(** * MLAI-CRAWLER: a shallow embedding of the crawl engine

    The development follows the Python sources of the repository:
    - [Crawler-v02.py]  (PDFProcessor, FileHandler, ProxyManager, EnhancedCrawler),
    - [Crawler-mlai.py] (PDFProcessor),
    - [crawler.py]      (DatabaseHandler, Crawler),
    - [Code.py], [crawler4.py], [Crawler5.py] (the classifier over [Path(url)]).

    Python strings are modelled as lists of characters with code points
    below 256; integers as [Z]; exceptions as values of [result].
    The standard-library functions the sources call ([urllib.parse],
    [pathlib]) are modelled after CPython 3.11. *)

From Stdlib Require Import Ascii String ZArith Lia Bool Arith List ListSet.
Import ListNotations.

Set Implicit Arguments.

(* ------------------------------------------------------------------ *)
(** ** Python strings *)

Module Py.

Definition str := list ascii.

Definition lit (s : string) : str := list_ascii_of_string s.
Arguments lit s%_string.

Definition str_eq_dec : forall a b : str, {a = b} + {a <> b} :=
  list_eq_dec ascii_dec.

Definition str_eqb (a b : str) : bool :=
  if str_eq_dec a b then true else false.

Definition code (c : ascii) : nat := nat_of_ascii c.

Definition in_range (lo hi : nat) (c : ascii) : bool :=
  (lo <=? code c)%nat && (code c <=? hi)%nat.

Definition chr (n : nat) : ascii := ascii_of_nat n.

Definition SLASH : ascii := chr 47.
Definition QMARK : ascii := chr 63.
Definition HASH : ascii := chr 35.
Definition COLON : ascii := chr 58.
Definition SEMI : ascii := chr 59.
Definition DOT : ascii := chr 46.
Definition LBRACKET : ascii := chr 91.
Definition RBRACKET : ascii := chr 93.

Definition is_ch (k : ascii) (c : ascii) : bool := Ascii.eqb c k.

(** [c in s] for a character. *)
Definition contains (k : ascii) (s : str) : bool := existsb (is_ch k) s.

(** [s in l] for a list of strings. *)
Definition str_in (s : str) (l : list str) : bool := existsb (str_eqb s) l.

Definition is_upper_ascii (c : ascii) : bool := in_range 65 90 c.
Definition is_lower_ascii (c : ascii) : bool := in_range 97 122 c.
Definition is_ascii_alpha (c : ascii) : bool :=
  is_upper_ascii c || is_lower_ascii c.
Definition is_digit (c : ascii) : bool := in_range 48 57 c.
Definition isascii_char (c : ascii) : bool := (code c <? 128)%nat.
Definition isascii (s : str) : bool := forallb isascii_char s.

(** [str.lower()] on code points below 256: the ASCII capitals and the
    Latin-1 capitals (all of 0xC0..0xDE but the multiplication sign). *)
Definition lower_char (c : ascii) : ascii :=
  if is_upper_ascii c || in_range 192 214 c || in_range 216 222 c
  then chr (code c + 32) else c.
Definition lower (s : str) : str := map lower_char s.

(** [str.isspace()] on code points below 256. *)
Definition isspace (c : ascii) : bool :=
  in_range 9 13 c || in_range 28 32 c ||
  (code c =? 133)%nat || (code c =? 160)%nat.

(** [s.lstrip(chars)], [s.rstrip(chars)], [s.strip(chars)], the set of
    characters given by its membership test. *)
Fixpoint lstrip (P : ascii -> bool) (s : str) : str :=
  match s with
  | [] => []
  | c :: t => if P c then lstrip P t else s
  end.

Fixpoint rstrip (P : ascii -> bool) (s : str) : str :=
  match s with
  | [] => []
  | c :: t =>
      match rstrip P t with
      | [] => if P c then [] else [c]
      | r => c :: r
      end
  end.

Definition strip (P : ascii -> bool) (s : str) : str := rstrip P (lstrip P s).

(** The prefix before the first character satisfying [P], and the rest
    (which starts with that character, or is empty when there is none). *)
Fixpoint break_at (P : ascii -> bool) (s : str) : str * str :=
  match s with
  | [] => ([], [])
  | c :: t =>
      if P c then ([], s)
      else let (a, b) := break_at P t in (c :: a, b)
  end.

(** [s.partition(k)] when [k] occurs: the text before its first occurrence
    and the text after it. *)
Definition partition (k : ascii) (s : str) : option (str * str) :=
  match break_at (is_ch k) s with
  | (a, _ :: b) => Some (a, b)
  | (_, []) => None
  end.

(** [s.rfind(k)], [None] for -1. *)
Fixpoint rfind (k : ascii) (s : str) : option nat :=
  match s with
  | [] => None
  | c :: t =>
      match rfind k t with
      | Some j => Some (S j)
      | None => if is_ch k c then Some 0%nat else None
      end
  end.

(** [s.split(k)]: never empty. *)
Fixpoint split (k : ascii) (s : str) : list str :=
  match s with
  | [] => [[]]
  | c :: t =>
      if is_ch k c then [] :: split k t
      else match split k t with
           | h :: r => (c :: h) :: r
           | [] => [[c]]
           end
  end.

(** [k.join(l)]. *)
Fixpoint join (k : ascii) (l : list str) : str :=
  match l with
  | [] => []
  | [x] => x
  | x :: r => x ++ k :: join k r
  end.

Definition nonempty (s : str) : bool :=
  match s with [] => false | _ => true end.

(** [s.startswith(p)]. *)
Fixpoint startswith (p s : str) : bool :=
  match p, s with
  | [], _ => true
  | a :: p', b :: s' => Ascii.eqb a b && startswith p' s'
  | _ :: _, [] => false
  end.

End Py.

Import Py.

(* ------------------------------------------------------------------ *)
(** ** Exceptions *)

Inductive exn : Type :=
| ValueError
| IndexError
| ClientError          (* transport error raised by the HTTP client *)
| TimeoutError
| HTTPStatusError (status : Z)   (* [raise_for_status] on a status >= 400 *)
| OtherError.

Inductive result (A : Type) : Type :=
| Ok (a : A)
| Raise (e : exn).
Arguments Ok {A} a.
Arguments Raise {A} e.

Definition bind {A B} (r : result A) (k : A -> result B) : result B :=
  match r with
  | Ok a => k a
  | Raise e => Raise e
  end.

Notation "x <- r ;; k" := (bind r (fun x => k))
  (at level 61, r at next level, right associativity).
Notation "' p <- r ;; k" := (bind r (fun x => let 'p := x in k))
  (at level 61, p pattern, r at next level, right associativity).

(* ------------------------------------------------------------------ *)
(** ** External collaborators

    Library behaviour that the crawl engine calls but that lies outside the
    repository.  Everything below is stated for arbitrary collaborators. *)

Record Externals := {
  (** [urllib.parse._check_bracketed_netloc]: validation (through the
      [ipaddress] module) of a netloc holding both brackets. *)
  check_bracketed_netloc : str -> bool;
  (** the NFKC part of [urllib.parse._checknetloc], reached only for a
      netloc with a non-ASCII character. *)
  checknetloc_nfkc : str -> bool;
  (** [hashlib.md5(s.encode()).hexdigest()] *)
  md5 : str -> str;
  (** [BeautifulSoup(html, 'html.parser')] and what is read off the soup:
      [soup.title.string if soup.title else None], the stripped strings;
      [Raise] when the parse or the access raises. *)
  soup_title : str -> result (option str);
  soup_stripped_strings : str -> result (list str);
  (** the [href] values of [soup.find_all('a', href=True)] *)
  soup_hrefs : str -> result (list str);
  (** [list(set(l))]: the distinct elements of [l], in the order the
      interpreter's hashing yields. *)
  list_set : list str -> list str;
}.

(* ------------------------------------------------------------------ *)
(** ** urllib.parse *)

Module Urllib.

Definition uses_relative : list str :=
  [[]; lit "ftp"; lit "http"; lit "gopher"; lit "nntp"; lit "imap";
   lit "wais"; lit "file"; lit "https"; lit "shttp"; lit "mms";
   lit "prospero"; lit "rtsp"; lit "rtspu"; lit "sftp";
   lit "svn"; lit "svn+ssh"; lit "ws"; lit "wss"].

Definition uses_netloc : list str :=
  [[]; lit "ftp"; lit "http"; lit "gopher"; lit "nntp"; lit "telnet";
   lit "imap"; lit "wais"; lit "file"; lit "mms"; lit "https"; lit "shttp";
   lit "snews"; lit "prospero"; lit "rtsp"; lit "rtspu"; lit "rsync";
   lit "svn"; lit "svn+ssh"; lit "sftp"; lit "nfs"; lit "git"; lit "git+ssh";
   lit "ws"; lit "wss"].

Definition uses_params : list str :=
  [[]; lit "ftp"; lit "hdl"; lit "prospero"; lit "http"; lit "imap";
   lit "https"; lit "shttp"; lit "rtsp"; lit "rtspu"; lit "sip"; lit "sips";
   lit "mms"; lit "sftp"; lit "tel"].

Definition is_scheme_char (c : ascii) : bool :=
  is_ascii_alpha c || is_digit c
  || is_ch (chr 43) c || is_ch (chr 45) c || is_ch DOT c.

(** [_WHATWG_C0_CONTROL_OR_SPACE]: code points 0..32. *)
Definition is_c0_control_or_space (c : ascii) : bool := (code c <=? 32)%nat.

(** [_UNSAFE_URL_BYTES_TO_REMOVE]: tab, carriage return, line feed. *)
Definition is_unsafe_url_byte (c : ascii) : bool :=
  (code c =? 9)%nat || (code c =? 13)%nat || (code c =? 10)%nat.

Definition remove_unsafe (s : str) : str :=
  filter (fun c => negb (is_unsafe_url_byte c)) s.

Definition is_netloc_delim (c : ascii) : bool :=
  is_ch SLASH c || is_ch QMARK c || is_ch HASH c.

(** [_splitnetloc(url, 2)] on a [url] starting with two slashes, given the
    text after them: the domain runs to the earliest of [/], [?], [#]. *)
Definition _splitnetloc (after_slashes : str) : str * str :=
  break_at is_netloc_delim after_slashes.

Record SplitResult := {
  sp_scheme : str; sp_netloc : str; sp_url : str;
  sp_query : str; sp_fragment : str }.

Record ParseResult := {
  scheme : str; netloc : str; path : str;
  params : str; query : str; fragment : str }.

(** [_splitparams(url)], called when [';' in url]. *)
Definition _splitparams (url : str) : str * str :=
  if contains SLASH url then
    (* i = url.find(';', url.rfind('/')) *)
    match rfind SLASH url with
    | Some j =>
        match partition SEMI (skipn j url) with
        | Some (a, b) => (firstn j url ++ a, b)
        | None => (url, [])
        end
    | None => (url, [])
    end
  else
    match partition SEMI url with
    | Some (a, b) => (a, b)
    | None => (url, [])
    end.

Section WithExternals.
Variable E : Externals.

Definition _checknetloc (netloc : str) : result unit :=
  if negb (nonempty netloc) || isascii netloc then Ok tt
  else if checknetloc_nfkc E netloc then Ok tt else Raise ValueError.

(** The two tests [urlsplit] makes on the brackets of a netloc:
<<
    if (('[' in netloc and ']' not in netloc) or
            (']' in netloc and '[' not in netloc)):
        raise ValueError("Invalid IPv6 URL")
    if '[' in netloc and ']' in netloc:
        _check_bracketed_netloc(netloc)
>> *)
Definition check_brackets (netloc : str) : result unit :=
  let lb := contains LBRACKET netloc in
  let rb := contains RBRACKET netloc in
  if (lb && negb rb) || (rb && negb lb) then Raise ValueError
  else if lb && rb then
    if check_bracketed_netloc E netloc then Ok tt else Raise ValueError
  else Ok tt.

Definition urlsplit (url0 scheme0 : str) : result SplitResult :=
  let url := lstrip is_c0_control_or_space url0 in
  let scheme := strip is_c0_control_or_space scheme0 in
  let url := remove_unsafe url in
  let scheme := remove_unsafe scheme in
  let '(scheme, url) :=
    match break_at (is_ch COLON) url with
    | (c0 :: pre, _ :: post) =>
        (* i = url.find(':') > 0 *)
        if isascii_char c0 && is_ascii_alpha c0
           && forallb is_scheme_char (c0 :: pre)
        then (lower (c0 :: pre), post)
        else (scheme, url)
    | _ => (scheme, url)
    end in
  '(netloc, url) <-
    match url with
    | c1 :: c2 :: rest =>
        if is_ch SLASH c1 && is_ch SLASH c2 then
          let (netloc, url') := _splitnetloc rest in
          _ <- check_brackets netloc;;
          Ok (netloc, url')
        else Ok ([], url)
    | _ => Ok ([], url)
    end;;
  let '(url, fragment) :=
    match partition HASH url with
    | Some (a, b) => (a, b)
    | None => (url, [])
    end in
  let '(url, query) :=
    match partition QMARK url with
    | Some (a, b) => (a, b)
    | None => (url, [])
    end in
  _ <- _checknetloc netloc;;
  Ok {| sp_scheme := scheme; sp_netloc := netloc; sp_url := url;
        sp_query := query; sp_fragment := fragment |}.

Definition urlparse (url scheme0 : str) : result ParseResult :=
  r <- urlsplit url scheme0;;
  let '(url, params) :=
    if str_in (sp_scheme r) uses_params && contains SEMI (sp_url r)
    then _splitparams (sp_url r)
    else (sp_url r, []) in
  Ok {| scheme := sp_scheme r; netloc := sp_netloc r; path := url;
        params := params; query := sp_query r; fragment := sp_fragment r |}.

End WithExternals.

Definition urlunsplit (scheme netloc url query fragment : str) : str :=
  let url :=
    if nonempty netloc
       || (nonempty scheme && str_in scheme uses_netloc
           && negb (startswith (lit "//") url))
    then
      let url := if nonempty url && negb (startswith (lit "/") url)
                 then SLASH :: url else url in
      lit "//" ++ netloc ++ url
    else url in
  let url := if nonempty scheme then scheme ++ COLON :: url else url in
  let url := if nonempty query then url ++ QMARK :: query else url in
  let url := if nonempty fragment then url ++ HASH :: fragment else url in
  url.

Definition urlunparse (p : ParseResult) : str :=
  let url := if nonempty (params p) then path p ++ SEMI :: params p
             else path p in
  urlunsplit (scheme p) (netloc p) url (query p) (fragment p).

(** [segments[1:-1] = filter(None, segments[1:-1])] *)
Definition filter_inner (segments : list str) : list str :=
  match segments with
  | a :: (_ :: _) as rest =>
      a :: filter nonempty (removelast rest) ++ [last rest []]
  | _ => segments
  end.

(** The loop of [urljoin] over the segments, [resolved_path] being the
    accumulator. *)
Definition resolve_step (resolved_path : list str) (seg : str) : list str :=
  if str_eqb seg (lit "..") then removelast resolved_path
  else if str_eqb seg (lit ".") then resolved_path
  else resolved_path ++ [seg].

Section WithExternals.
Variable E : Externals.

Definition urljoin (base url : str) : result str :=
  if negb (nonempty base) then Ok url
  else if negb (nonempty url) then Ok base
  else
    b <- urlparse E base [];;
    u <- urlparse E url (scheme b);;
    if negb (str_eqb (scheme u) (scheme b))
       || negb (str_in (scheme u) uses_relative)
    then Ok url
    else if str_in (scheme u) uses_netloc && nonempty (netloc u)
    then Ok (urlunparse u)
    else
      let netloc' := if str_in (scheme u) uses_netloc then netloc b
                     else netloc u in
      if negb (nonempty (path u)) && negb (nonempty (params u)) then
        let query' := if nonempty (query u) then query u else query b in
        Ok (urlunparse {| scheme := scheme u; netloc := netloc';
                          path := path b; params := params b;
                          query := query'; fragment := fragment u |})
      else
        let base_parts := split SLASH (path b) in
        let base_parts :=
          if nonempty (last base_parts []) then removelast base_parts
          else base_parts in
        let segments :=
          if startswith (lit "/") (path u) then split SLASH (path u)
          else filter_inner (base_parts ++ split SLASH (path u)) in
        let resolved_path := fold_left resolve_step segments [] in
        let resolved_path :=
          if str_in (last segments []) [lit "."; lit ".."]
          then resolved_path ++ [[]] else resolved_path in
        let joined := join SLASH resolved_path in
        Ok (urlunparse {| scheme := scheme u; netloc := netloc';
                          path := if nonempty joined then joined else lit "/";
                          params := params u; query := query u;
                          fragment := fragment u |}).

End WithExternals.

End Urllib.

(* ------------------------------------------------------------------ *)
(** ** pathlib (pure POSIX paths) *)

Module Pathlib.

(** The components of [Path(s)] after the root: empty components and
    single dots are dropped. *)
Definition parts (s : str) : list str :=
  filter (fun x => nonempty x && negb (str_eqb x (lit "."))) (split SLASH s).

(** [Path(s).name] *)
Definition name (s : str) : str := last (parts s) [].

(** [Path(s).suffix]:
    [i = name.rfind('.'); name[i:] if 0 < i < len(name) - 1 else ''] *)
Definition suffix (s : str) : str :=
  let name := name s in
  match rfind DOT name with
  | Some i =>
      if (0 <? i)%nat && (i <? length name - 1)%nat then skipn i name else []
  | None => []
  end.

End Pathlib.

(* ------------------------------------------------------------------ *)
(** ** FileHandler *)

Module FileHandler.

(** [self.downloadable_extensions] of Crawler-v02.py, Code.py and
    Crawler5.py, in the order the dictionary is written. *)
Definition downloadable_extensions : list (str * list str) :=
  [ (lit "document", [lit ".pdf"; lit ".doc"; lit ".docx"; lit ".txt";
                      lit ".rtf"; lit ".odt"]);
    (lit "spreadsheet", [lit ".xls"; lit ".xlsx"; lit ".csv"; lit ".ods"]);
    (lit "presentation", [lit ".ppt"; lit ".pptx"; lit ".odp"]);
    (lit "archive", [lit ".zip"; lit ".rar"; lit ".7z"; lit ".tar";
                     lit ".gz"]);
    (lit "image", [lit ".jpg"; lit ".jpeg"; lit ".png"; lit ".gif";
                   lit ".bmp"; lit ".svg"]);
    (lit "audio", [lit ".mp3"; lit ".wav"; lit ".ogg"; lit ".m4a"]);
    (lit "video", [lit ".mp4"; lit ".avi"; lit ".mkv"; lit ".mov"]);
    (lit "code", [lit ".py"; lit ".js"; lit ".html"; lit ".css";
                  lit ".java"; lit ".cpp"; lit ".h"]);
    (lit "data", [lit ".json"; lit ".xml"; lit ".yaml"; lit ".sql"]);
    (lit "ebook", [lit ".epub"; lit ".mobi"; lit ".azw"]);
    (lit "other", []) ].

(** The shorter table of crawler4.py. *)
Definition downloadable_extensions_crawler4 : list (str * list str) :=
  [ (lit "document", [lit ".pdf"; lit ".doc"; lit ".docx"; lit ".txt";
                      lit ".rtf"; lit ".odt"]);
    (lit "spreadsheet", [lit ".xls"; lit ".xlsx"; lit ".csv"; lit ".ods"]);
    (lit "presentation", [lit ".ppt"; lit ".pptx"; lit ".odp"]);
    (lit "archive", [lit ".zip"; lit ".rar"; lit ".7z"; lit ".tar";
                     lit ".gz"]);
    (lit "image", [lit ".jpg"; lit ".jpeg"; lit ".png"; lit ".gif";
                   lit ".bmp"; lit ".svg"]);
    (lit "audio", [lit ".mp3"; lit ".wav"; lit ".ogg"; lit ".m4a"]);
    (lit "video", [lit ".mp4"; lit ".avi"; lit ".mkv"; lit ".mov"]);
    (lit "other", []) ].

(** The body of [get_file_category] once [ext] is known:
<<
    for category, extensions in self.downloadable_extensions.items():
        if ext in extensions:
            return category
    if ext:
        return 'other'
    return None
>> *)
Fixpoint category_loop (table : list (str * list str)) (ext : str)
  : option str :=
  match table with
  | [] => None
  | (category, extensions) :: rest =>
      if str_in ext extensions then Some category
      else category_loop rest ext
  end.

Definition category_of_ext (table : list (str * list str)) (ext : str)
  : option str :=
  match category_loop table ext with
  | Some category => Some category
  | None => if nonempty ext then Some (lit "other") else None
  end.

(** Crawler-v02.py: [ext = Path(urlparse(url).path).suffix.lower()] *)
Definition get_file_category (E : Externals) (url : str)
  : result (option str) :=
  p <- Urllib.urlparse E url [];;
  Ok (category_of_ext downloadable_extensions
        (lower (Pathlib.suffix (Urllib.path p)))).

Definition is_downloadable_file (E : Externals) (url : str) : result bool :=
  c <- get_file_category E url;;
  Ok (match c with Some _ => true | None => false end).

(** Code.py, Crawler5.py and (with its own table) crawler4.py:
    [ext = Path(url).suffix.lower()] *)
Definition get_file_category_of_url (table : list (str * list str))
  (url : str) : option str :=
  category_of_ext table (lower (Pathlib.suffix url)).

Definition is_downloadable_file_of_url (table : list (str * list str))
  (url : str) : bool :=
  match get_file_category_of_url table url with
  | Some _ => true
  | None => false
  end.

End FileHandler.

(* ------------------------------------------------------------------ *)
(** ** PDFProcessor *)

Module PDFProcessor.

(** What the logger of the processor receives. *)
Inductive log_entry : Type :=
| ErrorWith (method_name : str) (e : exn).

(** What one pass of [extract_text_from_pdf] does, in order. *)
Inductive event : Type :=
| Called (method_name : str)
| Logged (entry : log_entry).

(** An extraction method: given the path of the PDF it returns text or
    raises.  The three methods of the source wrap the PDF libraries. *)
Definition method := str -> result str.

Record state := {
  best_text : str;
  best_method : str;
  max_length : nat;
  events : list event }.

(** One turn of the loop
<<
    for method_name, extract_method in methods.items():
        try:
            extracted_text = extract_method(pdf_path)
            text_length = len(extracted_text.strip())
            if text_length > max_length:
                max_length = text_length
                best_text = extracted_text
                best_method = method_name
        except Exception as e:
            self.logger.error(f"Error with {method_name}: {e}")
            continue
>> *)
Definition loop_body (pdf_path : str) (st : state) (m : str * method)
  : state :=
  let (method_name, extract_method) := m in
  match extract_method pdf_path with
  | Ok extracted_text =>
      let text_length := length (strip isspace extracted_text) in
      if (max_length st <? text_length)%nat then
        {| best_text := extracted_text; best_method := method_name;
           max_length := text_length;
           events := events st ++ [Called method_name] |}
      else
        {| best_text := best_text st; best_method := best_method st;
           max_length := max_length st;
           events := events st ++ [Called method_name] |}
  | Raise e =>
      {| best_text := best_text st; best_method := best_method st;
         max_length := max_length st;
         events := events st ++ [Called method_name;
                                 Logged (ErrorWith method_name e)] |}
  end.

Definition initial : state :=
  {| best_text := []; best_method := []; max_length := 0; events := [] |}.

Definition run (methods : list (str * method)) (pdf_path : str) : state :=
  fold_left (loop_body pdf_path) methods initial.

(** [extract_text_from_pdf] over the method table [methods]. *)
Definition extract_text_from_pdf_with (methods : list (str * method))
  (pdf_path : str) : str * str :=
  let st := run methods pdf_path in (best_text st, best_method st).

(** The three extraction backends, external to the repository. *)
Record Backends := {
  _extract_with_pymupdf : method;   (* [_extract_with_pdfminer] in
                                       Crawler-mlai.py, same body *)
  _extract_with_pypdf2 : method;
  _extract_with_ocr : method }.

(** Crawler-v02.py *)
Definition methods (B : Backends) : list (str * method) :=
  [ (lit "pymupdf", _extract_with_pymupdf B);
    (lit "pypdf2", _extract_with_pypdf2 B);
    (lit "ocr", _extract_with_ocr B) ].

Definition extract_text_from_pdf (B : Backends) (pdf_path : str)
  : str * str :=
  extract_text_from_pdf_with (methods B) pdf_path.

(** Crawler-mlai.py *)
Definition methods_mlai (B : Backends) : list (str * method) :=
  [ (lit "pdfminer", _extract_with_pymupdf B);
    (lit "pypdf2", _extract_with_pypdf2 B);
    (lit "ocr", _extract_with_ocr B) ].

Definition extract_text_from_pdf_mlai (B : Backends) (pdf_path : str)
  : str * str :=
  extract_text_from_pdf_with (methods_mlai B) pdf_path.

End PDFProcessor.

(* ------------------------------------------------------------------ *)
(** ** ProxyManager *)

Module ProxyManager.

(** A proxy entry: the dictionary with keys ['http'], ['https'] and, once
    a health probe has succeeded, ['speed'].  Times are in microseconds. *)
Record proxy := {
  http : option str;
  https : option str;
  speed : option Z }.

(** [{"http": None, "https": None}] *)
Definition direct : proxy :=
  {| http := None; https := None; speed := None |}.

Record proxy_stats := {
  total_used : Z;
  successful_requests : Z;
  failed_requests : Z;
  rotations : Z }.

Record t := {
  proxies : list proxy;
  current_index : nat;
  last_update : Z;
  stats : proxy_stats }.

(** [timedelta(hours=1)] *)
Definition update_interval : Z := 3600 * 1000000.

(** [str.splitlines()] on code points below 256. *)
Definition is_linebreak (c : ascii) : bool :=
  in_range 10 13 c || in_range 28 30 c || (code c =? 133)%nat.

Fixpoint splitlines_from (cur : str) (s : str) : list str :=
  match s with
  | [] => match cur with [] => [] | _ => [cur] end
  | c :: t =>
      if is_linebreak c then
        match t with
        | c' :: t' =>
            if (code c =? 13)%nat && (code c' =? 10)%nat
            then cur :: splitlines_from [] t'
            else cur :: splitlines_from [] t
        | [] => [cur]
        end
      else splitlines_from (cur ++ [c]) t
  end.

Definition splitlines (s : str) : list str := splitlines_from [] s.

(** The proxy built from one line of the file, [None] for a blank line or
    one that does not split into four fields. *)
Definition parse_line (line0 : str) : option proxy :=
  let line := strip isspace line0 in
  if negb (nonempty line) then None
  else
    match split COLON line with
    | [ip; port; username; password] =>
        let proxy_url :=
          lit "http://" ++ username ++ COLON :: password
          ++ chr 64 :: ip ++ COLON :: port in
        Some {| http := Some proxy_url; https := Some proxy_url;
                speed := None |}
    | _ => None
    end.

Fixpoint filter_map {A B} (f : A -> option B) (l : list A) : list B :=
  match l with
  | [] => []
  | x :: r => match f x with
              | Some y => y :: filter_map f r
              | None => filter_map f r
              end
  end.

(** The proxy file as [_load_proxies] finds it: absent, unreadable (the
    read raises), or a text. *)
Inductive proxy_file : Type :=
| Absent
| Unreadable (e : exn)
| Content (text : str).

(** [_load_proxies], [self.proxies] being [current] on entry. *)
Definition _load_proxies (file : proxy_file) (current : list proxy)
  : list proxy :=
  match file with
  | Unreadable _ => [direct]
  | Absent =>
      match current with [] => [direct] | _ => current end
  | Content text =>
      let loaded_proxies := filter_map parse_line (splitlines text) in
      match loaded_proxies with [] => [direct] | _ => loaded_proxies end
  end.

(** [__init__]: the list starts empty, [_load_proxies] fills it. *)
Definition init (file : proxy_file) (now : Z) : t :=
  {| proxies := _load_proxies file [];
     current_index := 0;
     last_update := now;
     stats := {| total_used := 0; successful_requests := 0;
                 failed_requests := 0; rotations := 0 |} |}.

(** The outcome of the health probe [_test_proxy] on each entry: the
    response time when the probe answered 200, [None] otherwise. *)
Definition probe := proxy -> option Z.

(** [_test_all_proxies]: the entries whose probe succeeded, each with its
    ['speed'] set to the measured time. *)
Definition _test_all_proxies (pr : probe) (l : list proxy) : list proxy :=
  filter_map
    (fun p => match pr p with
              | Some t => Some {| http := http p; https := https p;
                                  speed := Some t |}
              | None => None
              end) l.

(** [x.get('speed', float('inf'))], compared: [None] is infinity. *)
Definition speed_le (a b : proxy) : bool :=
  match speed a, speed b with
  | Some x, Some y => (x <=? y)%Z
  | Some _, None => true
  | None, Some _ => false
  | None, None => true
  end.

(** [sorted(l, key=...)]: a stable sort. *)
Fixpoint insert_sorted (p : proxy) (l : list proxy) : list proxy :=
  match l with
  | [] => [p]
  | q :: r => if speed_le p q then p :: l else q :: insert_sorted p r
  end.

Definition sorted_by_speed (l : list proxy) : list proxy :=
  fold_right insert_sorted [] l.

(** [_update_proxies]; [now] is the clock when the sweep ends. *)
Definition _update_proxies (pr : probe) (now : Z) (pm : t) : t :=
  let working_proxies := _test_all_proxies pr (proxies pm) in
  {| proxies := match working_proxies with
                | [] => [direct]
                | _ => sorted_by_speed working_proxies
                end;
     current_index := current_index pm;
     last_update := now;
     stats := stats pm |}.

(** What one call of [get_proxy] reads from its environment. *)
Record env := {
  now : Z;            (* [datetime.now()] on entry *)
  probes : probe;     (* the answers of the health endpoint, if swept *)
  now_after : Z }.    (* [datetime.now()] at the end of a sweep *)

Definition bump_total_used (pm : t) : t :=
  {| proxies := proxies pm; current_index := current_index pm;
     last_update := last_update pm;
     stats := {| total_used := total_used (stats pm) + 1;
                 successful_requests := successful_requests (stats pm);
                 failed_requests := failed_requests (stats pm);
                 rotations := rotations (stats pm) |} |}.

(** [get_proxy]: the entry returned, or the exception raised by
    [self.proxies[self.current_index]], and the manager afterwards. *)
Definition get_proxy (e : env) (pm0 : t) : result proxy * t :=
  let pm := bump_total_used pm0 in
  let pm := if (update_interval <? now e - last_update pm)%Z
            then _update_proxies (probes e) (now_after e) pm else pm in
  match proxies pm with
  | [] => (Ok direct, pm)
  | _ =>
      match nth_error (proxies pm) (current_index pm) with
      | None => (Raise IndexError, pm)
      | Some proxy =>
          (Ok proxy,
           {| proxies := proxies pm;
              current_index :=
                (current_index pm + 1) mod length (proxies pm);
              last_update := last_update pm;
              stats := {| total_used := total_used (stats pm);
                          successful_requests :=
                            successful_requests (stats pm);
                          failed_requests := failed_requests (stats pm);
                          rotations := rotations (stats pm) + 1 |} |})
      end
  end.

Definition record_result (success : bool) (pm : t) : t :=
  {| proxies := proxies pm; current_index := current_index pm;
     last_update := last_update pm;
     stats :=
       if success then
         {| total_used := total_used (stats pm);
            successful_requests := successful_requests (stats pm) + 1;
            failed_requests := failed_requests (stats pm);
            rotations := rotations (stats pm) |}
       else
         {| total_used := total_used (stats pm);
            successful_requests := successful_requests (stats pm);
            failed_requests := failed_requests (stats pm) + 1;
            rotations := rotations (stats pm) |} |}.

End ProxyManager.

(* ------------------------------------------------------------------ *)
(** ** A few more string operations used by the crawler *)

Module PyMore.

(** [needle in s] for strings. *)
Fixpoint is_substring (needle s : str) : bool :=
  startswith needle s
  || match s with
     | [] => false
     | _ :: t => is_substring needle t
     end.

(** [s.endswith(suffix)] *)
Definition endswith (suffix s : str) : bool :=
  startswith (rev suffix) (rev s).

Definition LF : ascii := chr 10.

(** The text a non-multiline [$] can end at: [s] itself and, when [s]
    ends with a newline, [s] without it. *)
Definition dollar_ends (s : str) : list str :=
  match rev s with
  | c :: r => if is_ch LF c then [s; rev r] else [s]
  | [] => [s]
  end.

(** [os.path.join(a, b)] for a non-empty [a] that does not end with a
    slash. *)
Definition os_path_join (a b : str) : str :=
  if startswith (lit "/") b then b else a ++ SLASH :: b.

End PyMore.

Import PyMore.

(* ------------------------------------------------------------------ *)
(** ** EnhancedCrawler (Crawler-v02.py) *)

Module EnhancedCrawler.

Record response := {
  status : Z;
  headers : list (str * str);     (* case-insensitive keys *)
  text : result str }.            (* [await response.text()] *)

(** [response.headers.get(key, default)] *)
Fixpoint headers_get (key : str) (default : str) (h : list (str * str))
  : str :=
  match h with
  | [] => default
  | (k, v) :: r =>
      if str_eqb (lower k) (lower key) then v else headers_get key default r
  end.

(** What the network answers to one request. *)
Inductive reply : Type :=
| Responds (r : response)
| Fails (e : exn).

(** What one attempt of [_handle_request] reads from its environment: the
    clock and probes seen by [get_proxy], and the answer to the request
    sent through the chosen proxy. *)
Record attempt_env := {
  proxy_env : ProxyManager.env;
  send : option str -> reply }.

Inductive effect : Type :=
| Attempt (url : str) (attempt : nat)   (* one turn of the retry loop *)
| Sleep (multiplier : Z)   (* [asyncio.sleep(self.request_delay * multiplier)] *)
| LogError (url : str) (attempt : nat) (e : exn)
| LogWarning (url : str)
| LogInfo (url : str).

Record metadata := {
  m_url : str;
  m_title : option str;
  m_timestamp : Z;
  m_headers : list (str * str);
  m_status_code : Z }.

(** The dictionary [_fetch_url] returns for a page. *)
Record page_data := {
  d_metadata : metadata;
  d_content : str;
  d_html : str }.

Record stats_file := {
  pages_crawled : nat;
  stats_pages_processed : Z;
  stats_errors : Z;
  stats_failed_urls : list str }.

(** What gets written to disk. *)
Inductive artifact : Type :=
| TextFile (content : str)
| MetadataJson (m : metadata)
| StatsJson (s : stats_file).

(** The state the coroutines share, [seen_urls] apart. *)
Record store := {
  proxy_manager : ProxyManager.t;
  failed_urls : set str;
  content_hashes : set str;
  pages_processed : Z;
  errors : Z;
  files : list (str * artifact);     (* writes, oldest first *)
  effects : list effect }.

Definition with_proxy_manager (pm : ProxyManager.t) (s : store) : store :=
  {| proxy_manager := pm; failed_urls := failed_urls s;
     content_hashes := content_hashes s;
     pages_processed := pages_processed s; errors := errors s;
     files := files s; effects := effects s |}.

Definition add_failed_url (url : str) (s : store) : store :=
  {| proxy_manager := proxy_manager s;
     failed_urls := set_add str_eq_dec url (failed_urls s);
     content_hashes := content_hashes s;
     pages_processed := pages_processed s; errors := errors s;
     files := files s; effects := effects s |}.

Definition add_content_hash (h : str) (s : store) : store :=
  {| proxy_manager := proxy_manager s; failed_urls := failed_urls s;
     content_hashes := set_add str_eq_dec h (content_hashes s);
     pages_processed := pages_processed s; errors := errors s;
     files := files s; effects := effects s |}.

Definition incr_pages_processed (s : store) : store :=
  {| proxy_manager := proxy_manager s; failed_urls := failed_urls s;
     content_hashes := content_hashes s;
     pages_processed := pages_processed s + 1; errors := errors s;
     files := files s; effects := effects s |}.

Definition incr_errors (s : store) : store :=
  {| proxy_manager := proxy_manager s; failed_urls := failed_urls s;
     content_hashes := content_hashes s;
     pages_processed := pages_processed s; errors := errors s + 1;
     files := files s; effects := effects s |}.

Definition write_file (path : str) (a : artifact) (s : store) : store :=
  {| proxy_manager := proxy_manager s; failed_urls := failed_urls s;
     content_hashes := content_hashes s;
     pages_processed := pages_processed s; errors := errors s;
     files := files s ++ [(path, a)]; effects := effects s |}.

Definition emit (e : effect) (s : store) : store :=
  {| proxy_manager := proxy_manager s; failed_urls := failed_urls s;
     content_hashes := content_hashes s;
     pages_processed := pages_processed s; errors := errors s;
     files := files s; effects := effects s ++ [e] |}.

(** The constructor arguments the engine reads, and [self.domain]. *)
Record config := {
  base_url : str;
  domain : str;
  max_pages : Z;
  concurrent_requests : Z;
  max_retries : Z }.

Definition base_dir (cfg : config) : str := lit "crawled_data/" ++ domain cfg.
Definition text_dir (cfg : config) : str := base_dir cfg ++ lit "/text".
Definition meta_dir (cfg : config) : str := base_dir cfg ++ lit "/metadata".

(** [_init_tracking], with the proxy manager built by [__init__]. *)
Definition init_store (pm : ProxyManager.t) : store :=
  {| proxy_manager := pm; failed_urls := []; content_hashes := [];
     pages_processed := 0; errors := 0; files := []; effects := [] |}.

(** [response.raise_for_status()] *)
Definition raise_for_status (r : response) : result response :=
  if (400 <=? status r)%Z then Raise (HTTPStatusError (status r)) else Ok r.

(** The body of the [try] of [_handle_request]: acquire a proxy, send,
    check the status. *)
Definition try_request (e : attempt_env) (url : str) (s : store)
  : result response * store :=
  let (px, pm) := ProxyManager.get_proxy (proxy_env e) (proxy_manager s) in
  let s := with_proxy_manager pm s in
  match px with
  | Raise ex => (Raise ex, s)
  | Ok proxy =>
      let chosen := if startswith (lit "http://") url
                    then ProxyManager.http proxy
                    else ProxyManager.https proxy in
      match send e chosen with
      | Fails ex => (Raise ex, s)
      | Responds r => (raise_for_status r, s)
      end
  end.

(** [_handle_request]: the loop [for attempt in range(self.max_retries)],
    [remaining] turns being left from turn [attempt] on. *)
Fixpoint _handle_request_from (cfg : config) (envs : nat -> attempt_env)
  (url : str) (remaining attempt : nat) (s : store)
  : option response * store :=
  match remaining with
  | O => (None, s)
  | S remaining' =>
      let s := emit (Attempt url attempt) s in
      match try_request (envs attempt) url s with
      | (Ok r, s) =>
          (Some r,
           with_proxy_manager
             (ProxyManager.record_result true (proxy_manager s)) s)
      | (Raise ex, s) =>
          let s := emit (LogError url (attempt + 1) ex) s in
          let s := with_proxy_manager
                     (ProxyManager.record_result false (proxy_manager s)) s in
          let s := if (Z.of_nat attempt =? max_retries cfg - 1)%Z
                   then incr_errors (add_failed_url url s) else s in
          let s := emit (Sleep (Z.of_nat attempt + 1)) s in
          _handle_request_from cfg envs url remaining' (S attempt) s
      end
  end.

Definition _handle_request (cfg : config) (envs : nat -> attempt_env)
  (url : str) (s : store) : option response * store :=
  _handle_request_from cfg envs url (Z.to_nat (max_retries cfg)) 0 s.

Section WithExternals.
Variable E : Externals.

(** [_normalize_url] *)
Definition _normalize_url (cfg : config) (url : str) : result str :=
  url <- Urllib.urljoin E (base_url cfg) url;;
  parsed <- Urllib.urlparse E url [];;
  Ok (rstrip (is_ch SLASH)
        (Urllib.scheme parsed ++ lit "://" ++ Urllib.netloc parsed
         ++ Urllib.path parsed)).

(** [re.search(r'(login|logout|signin|signout|auth)', s)] *)
Definition matches_auth_words (s : str) : bool :=
  existsb (fun w => is_substring w s)
    [lit "login"; lit "logout"; lit "signin"; lit "signout"; lit "auth"].

(** [re.search(r'#.*$', s)]: a hash with no newline between it and where
    [$] can match. *)
Definition matches_fragment (s : str) : bool :=
  existsb (fun t => contains HASH (last (split LF t) [])) (dollar_ends s).

(** [re.search(r'\.(css|js|json|xml)$', s)] *)
Definition matches_static_suffix (s : str) : bool :=
  existsb (fun t =>
             existsb (fun x => endswith x t)
               [lit ".css"; lit ".js"; lit ".json"; lit ".xml"])
          (dollar_ends s).

(** [_is_valid_url] *)
Definition _is_valid_url (cfg : config) (url : str) : result bool :=
  if negb (nonempty url) then Ok false
  else
    parsed <- Urllib.urlparse E url [];;
    if nonempty (Urllib.netloc parsed)
       && negb (str_eqb (Urllib.netloc parsed) (domain cfg))
    then Ok false
    else
      let l := lower url in
      Ok (negb (matches_auth_words l || matches_fragment l
                || matches_static_suffix l)).

(** [_fetch_url]; [now] is the reading of [time.time()]. *)
Definition _fetch_url (cfg : config) (envs : nat -> attempt_env) (now : Z)
  (url : str) (s : store) : option page_data * store :=
  match _handle_request cfg envs url s with
  | (None, s) => (None, s)
  | (Some response, s) =>
      if negb (is_substring (lit "text/html")
                 (headers_get (lit "content-type") [] (headers response)))
      then (None, emit (LogWarning url) s)
      else
        match text response with
        | Raise ex => (None, incr_errors (emit (LogError url 0 ex) s))
        | Ok content =>
            let content_hash := md5 E content in
            if set_mem str_eq_dec content_hash (content_hashes s)
            then (None, emit (LogInfo url) s)
            else
              let s := add_content_hash content_hash s in
              match soup_title E content, soup_stripped_strings E content with
              | Ok title, Ok strings =>
                  let metadata :=
                    {| m_url := url; m_title := title; m_timestamp := now;
                       m_headers := headers response;
                       m_status_code := status response |} in
                  let text_content := join (chr 32) strings in
                  (Some {| d_metadata := metadata;
                           d_content := text_content;
                           d_html := content |},
                   incr_pages_processed s)
              | Raise ex, _ | _, Raise ex =>
                  (None, incr_errors (emit (LogError url 0 ex) s))
              end
        end
  end.

(** [_extract_links] *)
Fixpoint collect_links (cfg : config) (hrefs : list str) (links : list str)
  : result (list str) :=
  match hrefs with
  | [] => Ok links
  | href :: rest =>
      url <- _normalize_url cfg href;;
      valid <- _is_valid_url cfg url;;
      collect_links cfg rest (if valid then links ++ [url] else links)
  end.

Definition _extract_links (cfg : config) (html : str) (source_url : str)
  : result (list str) :=
  hrefs <- soup_hrefs E html;;
  links <- collect_links cfg hrefs [];;
  Ok (list_set E links).

(** [_save_data] for a page that was returned. *)
Definition _save_data (cfg : config) (url : str) (data : page_data)
  (s : store) : store :=
  let url_hash := md5 E url in
  let text_path := os_path_join (text_dir cfg) (url_hash ++ lit ".txt") in
  let s := write_file text_path (TextFile (d_content data)) s in
  let meta_path := os_path_join (meta_dir cfg) (url_hash ++ lit ".json") in
  write_file meta_path (MetadataJson (d_metadata data)) s.

(** Which branch [_process_url] takes. *)
Inductive action : Type :=
| DownloadFile (category : str)
| NoAction            (* a downloadable file whose category is falsy *)
| CrawlPage.

Definition route (url : str) : result action :=
  downloadable <- FileHandler.is_downloadable_file E url;;
  if downloadable : bool then
    category <- FileHandler.get_file_category E url;;
    match category with
    | Some c => if nonempty c then Ok (DownloadFile c) else Ok NoAction
    | None => Ok NoAction
    end
  else Ok CrawlPage.

(** The download pipeline ([_download_file] followed by the write of the
    file's metadata), as a transformer of the shared state. *)
Definition downloader := str -> str -> store -> store.

(** [_process_url] *)
Definition _process_url (cfg : config) (download : downloader)
  (envs : nat -> attempt_env) (now : Z) (url : str) (s : store)
  : result (option page_data) * store :=
  match route url with
  | Raise ex => (Raise ex, s)
  | Ok (DownloadFile category) => (Ok None, download url category s)
  | Ok NoAction => (Ok None, s)
  | Ok CrawlPage =>
      let (data, s) := _fetch_url cfg envs now url s in (Ok data, s)
  end.

(** The crawl loop's own state: the local [queue], [self.seen_urls], the
    shared store, and the URLs handed to [_process_url] so far. *)
Record crawler := {
  queue : list str;
  seen_urls : set str;
  shared : store;
  dispatched : list str }.

(** The loop
<<
    for link in new_links:
        if link not in self.seen_urls:
            queue.append(link)
            self.seen_urls.add(link)
>> *)
Definition enqueue_link (qs : list str * set str) (link : str)
  : list str * set str :=
  let (q, seen) := qs in
  if set_mem str_eq_dec link seen then (q, seen)
  else (q ++ [link], set_add str_eq_dec link seen).

Definition enqueue_links (new_links : list str) (qs : list str * set str)
  : list str * set str :=
  fold_left enqueue_link new_links qs.

(** The body of [for url, data in zip(batch_urls, results)]; an exception
    of [_extract_links] leaves the loop with what was done so far. *)
Definition handle_result (cfg : config) (c : crawler)
  (r : str * option page_data) : crawler * option exn :=
  let (url, data) := r in
  match data with
  | None => (c, None)
  | Some d =>
      let s := _save_data cfg url d (shared c) in
      match _extract_links cfg (d_html d) url with
      | Raise ex =>
          ({| queue := queue c; seen_urls := seen_urls c; shared := s;
              dispatched := dispatched c |}, Some ex)
      | Ok new_links =>
          let (q, seen) := enqueue_links new_links (queue c, seen_urls c) in
          ({| queue := q; seen_urls := seen; shared := s;
              dispatched := dispatched c |}, None)
      end
  end.

Fixpoint handle_results (cfg : config) (c : crawler)
  (rs : list (str * option page_data)) : crawler * option exn :=
  match rs with
  | [] => (c, None)
  | r :: rest =>
      match handle_result cfg c r with
      | (c, Some ex) => (c, Some ex)
      | (c, None) => handle_results cfg c rest
      end
  end.

(** [process_batch]: the results of [asyncio.gather] over the batch and
    what the tasks did to the shared store. *)
Definition batch_processor :=
  list str -> store -> result (list (option page_data)) * store.

Inductive outcome : Type :=
| Continue (c : crawler)
| Finished (c : crawler)
| Crashed (e : exn) (c : crawler).

Definition write_stats (cfg : config) (c : crawler) : crawler :=
  let s := shared c in
  {| queue := queue c; seen_urls := seen_urls c;
     shared :=
       write_file (os_path_join (base_dir cfg) (lit "crawl_stats.json"))
         (StatsJson {| pages_crawled := length (seen_urls c);
                       stats_pages_processed := pages_processed s;
                       stats_errors := errors s;
                       stats_failed_urls := failed_urls s |}) s;
     dispatched := dispatched c |}.

(** One turn of [while queue and len(self.seen_urls) < self.max_pages],
    or the end of [crawl] when the condition fails. *)
Definition crawl_step (cfg : config) (process_batch : batch_processor)
  (c : crawler) : outcome :=
  if negb (length (queue c) =? 0)%nat
     && (Z.of_nat (length (seen_urls c)) <? max_pages cfg)%Z
  then
    let batch_size :=
      Z.min (concurrent_requests cfg) (Z.of_nat (length (queue c))) in
    let batch_urls := firstn (Z.to_nat batch_size) (queue c) in
    let q := skipn (Z.to_nat batch_size) (queue c) in
    let (results, s) := process_batch batch_urls (shared c) in
    let c := {| queue := q; seen_urls := seen_urls c; shared := s;
                dispatched := dispatched c ++ batch_urls |} in
    match results with
    | Raise ex => Crashed ex c
    | Ok results =>
        match handle_results cfg c (combine batch_urls results) with
        | (c, Some ex) => Crashed ex c
        | (c, None) =>
            Continue {| queue := queue c; seen_urls := seen_urls c;
                        shared := emit (Sleep 1) (shared c);
                        dispatched := dispatched c |}
        end
    end
  else Finished (write_stats cfg c).

(** The state [crawl] starts its loop in. *)
Definition crawl_init (cfg : config) (s : store) : crawler :=
  {| queue := [base_url cfg];
     seen_urls := set_add str_eq_dec (base_url cfg) [];
     shared := s;
     dispatched := [] |}.

(** [crawl], for at most [fuel] turns of the loop: [None] when the loop
    has not ended by then. *)
Fixpoint crawl_loop (cfg : config) (process_batch : batch_processor)
  (fuel : nat) (c : crawler) : option outcome :=
  match fuel with
  | O => None
  | S fuel' =>
      match crawl_step cfg process_batch c with
      | Continue c' => crawl_loop cfg process_batch fuel' c'
      | o => Some o
      end
  end.

Definition crawl (cfg : config) (process_batch : batch_processor)
  (fuel : nat) (s : store) : option outcome :=
  crawl_loop cfg process_batch fuel (crawl_init cfg s).

(** The state after [n] turns of the loop, while it keeps going. *)
Fixpoint after_turns (cfg : config) (process_batch : batch_processor)
  (n : nat) (c : crawler) : option crawler :=
  match n with
  | O => Some c
  | S n' =>
      match crawl_step cfg process_batch c with
      | Continue c' => after_turns cfg process_batch n' c'
      | _ => None
      end
  end.

(** [process_batch] under the schedule in which the tasks of the batch
    complete one after the other; [world url] is what the network answers
    to the attempts at [url]. *)
Fixpoint process_batch_seq (cfg : config) (download : downloader)
  (world : str -> nat -> attempt_env) (now : Z)
  (urls : list str) (s : store)
  : result (list (option page_data)) * store :=
  match urls with
  | [] => (Ok [], s)
  | url :: rest =>
      match _process_url cfg download (world url) now url s with
      | (Raise ex, s) =>
          let (_, s) := process_batch_seq cfg download world now rest s in
          (Raise ex, s)
      | (Ok data, s) =>
          match process_batch_seq cfg download world now rest s with
          | (Ok l, s) => (Ok (data :: l), s)
          | (Raise ex, s) => (Raise ex, s)
          end
      end
  end.

End WithExternals.

End EnhancedCrawler.

(* ------------------------------------------------------------------ *)
(** ** The classifier over the whole URL (Code.py, crawler4.py, Crawler5.py) *)

Module UrlClassifier.

Import EnhancedCrawler.

(** Which branch [_process_url] takes in these variants.  [table] is
    [downloadable_extensions] of the variant. *)
Definition route (table : list (str * list str)) (url : str) : action :=
  if FileHandler.is_downloadable_file_of_url table url then
    match FileHandler.get_file_category_of_url table url with
    | Some c => if nonempty c then DownloadFile c else NoAction
    | None => NoAction
    end
  else CrawlPage.

End UrlClassifier.

(* ------------------------------------------------------------------ *)
(** ** crawler.py: the visited table and the claim in [crawl_page] *)

Module Crawler.

(** The rows of [visited_urls], whose column is its primary key. *)
Definition visited_urls := set str.

(** [DatabaseHandler.is_visited] *)
Definition is_visited (db : visited_urls) (url : str) : bool :=
  set_mem str_eq_dec url db.

(** [DatabaseHandler.mark_as_visited]: [INSERT OR IGNORE] *)
Definition mark_as_visited (db : visited_urls) (url : str) : visited_urls :=
  set_add str_eq_dec url db.

Section WithExternals.
Variable E : Externals.

(** [Crawler.normalize_url] *)
Definition normalize_url (url : str) : result str :=
  parsed <- Urllib.urlparse E url [];;
  Ok (Urllib.scheme parsed ++ lit "://" ++ Urllib.netloc parsed
      ++ rstrip (is_ch SLASH) (Urllib.path parsed)).

(** The shared state of the workers. *)
Record state := {
  db : visited_urls;
  queue : list str;
  fetched : list str }.     (* the normalized URLs claimed, in order *)

(** The sections the workers run under [lock], one at a time. *)
Inductive section : Type :=
| Claim (url : str)     (* the head of [crawl_page(url)] *)
| Offer (link : str).  (* one turn of the loop over [new_links] *)

(** The head of [crawl_page]:
<<
    normalized_url = self.normalize_url(url)
    with lock:
        if self.db.is_visited(normalized_url):
            return
        self.db.mark_as_visited(normalized_url)
>>
    [true] when the worker goes on to fetch. *)
Definition claim (url : str) (s : state) : bool * state :=
  match normalize_url url with
  | Raise _ => (false, s)
  | Ok normalized_url =>
      if is_visited (db s) normalized_url then (false, s)
      else (true, {| db := mark_as_visited (db s) normalized_url;
                     queue := queue s;
                     fetched := fetched s ++ [normalized_url] |})
  end.

(** One turn of
<<
    for link in new_links:
        normalized_link = self.normalize_url(link)
        with lock:
            if not self.db.is_visited(normalized_link):
                self.queue.put(link)
>> *)
Definition offer (link : str) (s : state) : state :=
  match normalize_url link with
  | Raise _ => s
  | Ok normalized_link =>
      if is_visited (db s) normalized_link then s
      else {| db := db s; queue := queue s ++ [link];
              fetched := fetched s |}
  end.

Definition run_section (s : state) (x : section) : state :=
  match x with
  | Claim url => snd (claim url s)
  | Offer link => offer link s
  end.

(** Any interleaving of the workers is a sequence of their sections. *)
Definition run (xs : list section) (s : state) : state :=
  fold_left run_section xs s.

(** The state a run starts in.  The table is the one [DatabaseHandler]
    finds in [crawler.db]: the file is created only if it does not exist
    ([CREATE TABLE IF NOT EXISTS]) and never cleared, so [db0] is empty on
    a first run and holds the rows of the earlier runs otherwise. *)
Definition initial (db0 : visited_urls) (start_url : str) : state :=
  {| db := db0; queue := [start_url]; fetched := [] |}.

End WithExternals.

End Crawler.


(* ------------------------------------------------------------------ *)
(** ** [os.path] (posixpath) and [str(int)] *)

From Stdlib Require DecimalString DecimalNat DecimalFacts.

Module OsPath.

(** [os.path.basename(p)]: [p[p.rfind('/') + 1:]]. *)
Definition basename (p : str) : str :=
  match rfind SLASH p with
  | Some i => skipn (S i) p
  | None => p
  end.

(** The loop of [genericpath._splitext] over [p[filenameIndex:dotIndex]]:
    whether a character other than the dot comes before the last dot. *)
Fixpoint has_name_before_dot (between : str) : bool :=
  match between with
  | [] => false
  | c :: t => if is_ch DOT c then has_name_before_dot t else true
  end.

(** [os.path.splitext(p)]. *)
Definition splitext (p : str) : str * str :=
  match rfind DOT p with
  | None => (p, [])
  | Some dotIndex =>
      let filenameIndex :=
        match rfind SLASH p with Some i => S i | None => 0%nat end in
      if (filenameIndex <=? dotIndex)%nat
         && has_name_before_dot
              (firstn (dotIndex - filenameIndex) (skipn filenameIndex p))
      then (firstn dotIndex p, skipn dotIndex p)
      else (p, [])
  end.

(** [os.path.join(a, b)]. *)
Definition join (a b : str) : str :=
  if startswith [SLASH] b then b
  else if negb (nonempty a) || endswith [SLASH] a then a ++ b
  else a ++ SLASH :: b.

End OsPath.

(** [str(n)] for a natural number [n]. *)
Definition str_of_nat (n : nat) : str :=
  list_ascii_of_string
    (DecimalString.NilZero.string_of_uint (Nat.to_uint n)).

(* ------------------------------------------------------------------ *)
(** ** FileHandler.generate_safe_filename (Crawler-v02.py) *)

Module SafeFilename.

Section WithExternals.
Variable E : Externals.

(** [mimetypes.guess_extension]. *)
Variable guess_extension : str -> option str.

(** [os.path.exists], the state of the file system. *)
Variable os_path_exists : str -> bool.

(**
<<
    original_filename = os.path.basename(urlparse(url).path)
    if not original_filename:
        filename_hash = hashlib.md5(url.encode()).hexdigest()
        ext = mimetypes.guess_extension(urlparse(url).path) or '.unknown'
        original_filename = f"{filename_hash}{ext}"
>> *)
Definition original_filename (url : str) : result str :=
  p <- Urllib.urlparse E url [] ;;
  let original_filename := OsPath.basename (Urllib.path p) in
  if nonempty original_filename then Ok original_filename
  else
    let filename_hash := md5 E url in
    p <- Urllib.urlparse E url [] ;;
    let ext :=
      match guess_extension (Urllib.path p) with
      | Some e => if nonempty e then e else lit ".unknown"
      | None => lit ".unknown"
      end in
    Ok (filename_hash ++ ext).

(**
<<
    while os.path.exists(os.path.join(base_path, filename)):
        name, ext = os.path.splitext(original_filename)
        filename = f"{name}_{counter}{ext}"
        counter += 1
    return filename
>>
    for at most [fuel] tests of the condition. *)
Fixpoint unique_loop (base_path original_filename : str) (fuel : nat)
  (filename : str) (counter : nat) : option str :=
  match fuel with
  | O => None
  | S fuel' =>
      if os_path_exists (OsPath.join base_path filename) then
        let (name, ext) := OsPath.splitext original_filename in
        unique_loop base_path original_filename fuel'
          (name ++ lit "_" ++ str_of_nat counter ++ ext) (S counter)
      else Some filename
  end.

(** [generate_safe_filename(url, base_path)]; [Ok None] when the loop has
    not ended after [fuel] tests. *)
Definition generate_safe_filename (fuel : nat) (url base_path : str)
  : result (option str) :=
  original_filename <- original_filename url ;;
  Ok (unique_loop base_path original_filename fuel original_filename 1).

End WithExternals.

End SafeFilename.

(* ------------------------------------------------------------------ *)
(** ** [_fetch_url] with its own retry loop (crawler4.py, Code.py) *)

(** What [_fetch_url] of these two files reads and writes of the crawler:
    [self.failed_urls], [self.content_hashes], and what it does besides
    (requests, sleeps, log lines). *)
Module Fetch.

Record state := {
  failed_urls : set str;
  content_hashes : set str;
  effects : list EnhancedCrawler.effect }.

Definition add_failed_url (url : str) (s : state) : state :=
  {| failed_urls := set_add str_eq_dec url (failed_urls s);
     content_hashes := content_hashes s;
     effects := effects s |}.

Definition add_content_hash (h : str) (s : state) : state :=
  {| failed_urls := failed_urls s;
     content_hashes := set_add str_eq_dec h (content_hashes s);
     effects := effects s |}.

Definition emit (e : EnhancedCrawler.effect) (s : state) : state :=
  {| failed_urls := failed_urls s;
     content_hashes := content_hashes s;
     effects := effects s ++ [e] |}.

End Fetch.

Module Crawler4.

Import Fetch.

(** A [requests.Response]. *)
Record response := {
  status_code : Z;
  headers : list (str * str);     (* case-insensitive keys *)
  content : str;                  (* [response.content], the bytes *)
  text : str }.                   (* [response.text] *)

(** What [self.session.get] does. *)
Inductive reply : Type :=
| Responds (r : response)
| Fails (e : exn).

Section WithExternals.
Variable E : Externals.

(** The body of the [try]: [Raise] is an exception caught by the
    [except], [Ok] a value returned.  [response.raise_for_status()] of
    [requests] raises for the codes 400 to 599. *)
Definition attempt_body (now : Z) (url : str) (r : reply) (s : state)
  : result (option EnhancedCrawler.page_data) * state :=
  match r with
  | Fails ex => (Raise ex, s)
  | Responds response =>
      if (400 <=? status_code response)%Z && (status_code response <? 600)%Z
      then (Raise (HTTPStatusError (status_code response)), s)
      else if negb (is_substring (lit "text/html")
                      (EnhancedCrawler.headers_get (lit "Content-Type") []
                         (headers response)))
      then (Ok None, emit (EnhancedCrawler.LogWarning url) s)
      else
        let content_hash := md5 E (content response) in
        if set_mem str_eq_dec content_hash (content_hashes s)
        then (Ok None, emit (EnhancedCrawler.LogInfo url) s)
        else
          let s := add_content_hash content_hash s in
          match soup_title E (text response),
                soup_stripped_strings E (text response) with
          | Ok title, Ok strings =>
              let metadata :=
                {| EnhancedCrawler.m_url := url;
                   EnhancedCrawler.m_title := title;
                   EnhancedCrawler.m_timestamp := now;
                   EnhancedCrawler.m_headers := headers response;
                   EnhancedCrawler.m_status_code := status_code response |} in
              (Ok (Some {| EnhancedCrawler.d_metadata := metadata;
                           EnhancedCrawler.d_content :=
                             join (chr 32) strings;
                           EnhancedCrawler.d_html := text response |}), s)
          | Raise ex, _ | _, Raise ex => (Raise ex, s)
          end
  end.

(** [_fetch_url]: the loop [for attempt in range(self.max_retries)] with
    [remaining] turns left from turn [attempt] on, and what follows it. *)
Fixpoint _fetch_url_from (sends : nat -> reply) (now : Z) (url : str)
  (remaining attempt : nat) (s : state)
  : option EnhancedCrawler.page_data * state :=
  match remaining with
  | O => (None, add_failed_url url s)
  | S remaining' =>
      let s := emit (EnhancedCrawler.Attempt url attempt) s in
      match attempt_body now url (sends attempt) s with
      | (Ok returned, s) => (returned, s)
      | (Raise ex, s) =>
          let s := emit (EnhancedCrawler.LogError url (attempt + 1) ex) s in
          let s := emit (EnhancedCrawler.Sleep (Z.of_nat attempt + 1)) s in
          _fetch_url_from sends now url remaining' (S attempt) s
      end
  end.

Definition _fetch_url (max_retries : Z) (sends : nat -> reply) (now : Z)
  (url : str) (s : state) : option EnhancedCrawler.page_data * state :=
  _fetch_url_from sends now url (Z.to_nat max_retries) 0 s.

End WithExternals.

End Crawler4.

Module CodePy.

Import Fetch.

(** An [aiohttp.ClientResponse]. *)
Record response := {
  status : Z;
  headers : list (str * str);     (* case-insensitive keys *)
  read : result str;              (* [await response.read()] *)
  text : result str }.            (* [await response.text()] *)

(** What [session.get] does. *)
Inductive reply : Type :=
| Responds (r : response)
| Fails (e : exn).

(** [_get_request]: an exception is logged and [None] returned. *)
Definition _get_request (url : str) (r : reply) (s : state)
  : option response * state :=
  match r with
  | Responds response => (Some response, s)
  | Fails ex => (None, emit (EnhancedCrawler.LogError url 0 ex) s)
  end.

Section WithExternals.
Variable E : Externals.

(** The body of the [try] of [_fetch_url]. *)
Definition attempt_body (now : Z) (url : str) (r : reply) (s : state)
  : result (option EnhancedCrawler.page_data) * state :=
  let (response, s) := _get_request url r s in
  match response with
  | None => (Ok None, emit (EnhancedCrawler.LogWarning url) s)
  | Some response =>
      if negb (is_substring (lit "text/html")
                 (EnhancedCrawler.headers_get (lit "Content-Type") []
                    (headers response)))
      then (Ok None, emit (EnhancedCrawler.LogWarning url) s)
      else
        match read response with
        | Raise ex => (Raise ex, s)
        | Ok body =>
            let content_hash := md5 E body in
            if set_mem str_eq_dec content_hash (content_hashes s)
            then (Ok None, emit (EnhancedCrawler.LogInfo url) s)
            else
              let s := add_content_hash content_hash s in
              match text response with
              | Raise ex => (Raise ex, s)
              | Ok html =>
                  match soup_title E html, soup_stripped_strings E html with
                  | Ok title, Ok strings =>
                      let metadata :=
                        {| EnhancedCrawler.m_url := url;
                           EnhancedCrawler.m_title := title;
                           EnhancedCrawler.m_timestamp := now;
                           EnhancedCrawler.m_headers := headers response;
                           EnhancedCrawler.m_status_code :=
                             status response |} in
                      (Ok (Some {| EnhancedCrawler.d_metadata := metadata;
                                   EnhancedCrawler.d_content :=
                                     join (chr 32) strings;
                                   EnhancedCrawler.d_html := html |}), s)
                  | Raise ex, _ | _, Raise ex => (Raise ex, s)
                  end
              end
        end
  end.

Fixpoint _fetch_url_from (sends : nat -> reply) (now : Z) (url : str)
  (remaining attempt : nat) (s : state)
  : option EnhancedCrawler.page_data * state :=
  match remaining with
  | O => (None, add_failed_url url s)
  | S remaining' =>
      let s := emit (EnhancedCrawler.Attempt url attempt) s in
      match attempt_body now url (sends attempt) s with
      | (Ok returned, s) => (returned, s)
      | (Raise ex, s) =>
          let s := emit (EnhancedCrawler.LogError url (attempt + 1) ex) s in
          let s := emit (EnhancedCrawler.Sleep (Z.of_nat attempt + 1)) s in
          _fetch_url_from sends now url remaining' (S attempt) s
      end
  end.

Definition _fetch_url (max_retries : Z) (sends : nat -> reply) (now : Z)
  (url : str) (s : state) : option EnhancedCrawler.page_data * state :=
  _fetch_url_from sends now url (Z.to_nat max_retries) 0 s.

End WithExternals.

End CodePy.

(* ------------------------------------------------------------------ *)
(** ** EnhancedCrawler._process_pdf (Crawler-v02.py) *)

Module ProcessPdf.

(** [self.pdf_stats]; the dictionary of counters per method is a list of
    keys and values. *)
Record pdf_stats := {
  processed : Z;
  failed : Z;
  extraction_methods : list (str * Z) }.

(** As [_init_tracking] sets it. *)
Definition init_pdf_stats : pdf_stats :=
  {| processed := 0; failed := 0;
     extraction_methods :=
       [(lit "pymupdf", 0%Z); (lit "pypdf2", 0%Z); (lit "ocr", 0%Z)] |}.

(** [d[key] += 1]; [None] when the key is missing ([KeyError]). *)
Fixpoint dict_increment (key : str) (d : list (str * Z))
  : option (list (str * Z)) :=
  match d with
  | [] => None
  | (k, v) :: r =>
      if str_eqb k key then Some ((k, (v + 1)%Z) :: r)
      else match dict_increment key r with
           | Some r' => Some ((k, v) :: r')
           | None => None
           end
  end.

Record pdf_metadata := {
  pm_url : str;
  pm_source_file : str;
  pm_extraction_method : str;
  pm_timestamp : Z;
  pm_text_file : str;
  pm_text_length : nat }.

Inductive log_line : Type :=
| NoTextExtracted (url : str)
| ErrorProcessing (url : str) (e : exn).

Record state := {
  stats : pdf_stats;
  text_files : list (str * str);      (* path and text, oldest first *)
  log : list log_line }.

Definition count_failed (st : state) : state :=
  {| stats := {| processed := processed (stats st);
                 failed := failed (stats st) + 1;
                 extraction_methods := extraction_methods (stats st) |};
     text_files := text_files st; log := log st |}.

Definition count_processed (st : state) : state :=
  {| stats := {| processed := processed (stats st) + 1;
                 failed := failed (stats st);
                 extraction_methods := extraction_methods (stats st) |};
     text_files := text_files st; log := log st |}.

Definition with_methods (d : list (str * Z)) (st : state) : state :=
  {| stats := {| processed := processed (stats st);
                 failed := failed (stats st);
                 extraction_methods := d |};
     text_files := text_files st; log := log st |}.

Definition write_text (path text : str) (st : state) : state :=
  {| stats := stats st; text_files := text_files st ++ [(path, text)];
     log := log st |}.

Definition log_line_of (l : log_line) (st : state) : state :=
  {| stats := stats st; text_files := text_files st; log := log st ++ [l] |}.

(** [_process_pdf]; [write path text] is what opening [path] and writing
    [text] to it does, [now] the reading of [time.time()]. *)
Definition _process_pdf (B : PDFProcessor.Backends) (E : Externals)
  (text_dir : str) (write : str -> str -> result unit) (now : Z)
  (pdf_path url : str) (st : state) : option pdf_metadata * state :=
  let (extracted_text, method_used) :=
    PDFProcessor.extract_text_from_pdf B pdf_path in
  if negb (nonempty (strip isspace extracted_text)) then
    (None, count_failed (log_line_of (NoTextExtracted url) st))
  else
    let st := count_processed st in
    match dict_increment method_used (extraction_methods (stats st)) with
    | None =>
        (None, count_failed (log_line_of (ErrorProcessing url OtherError) st))
    | Some d =>
        let st := with_methods d st in
        let url_hash := md5 E url in
        let text_path := OsPath.join text_dir (url_hash ++ lit "_pdf.txt") in
        match write text_path extracted_text with
        | Raise ex =>
            (None, count_failed (log_line_of (ErrorProcessing url ex) st))
        | Ok _ =>
            let st := write_text text_path extracted_text st in
            (Some {| pm_url := url;
                     pm_source_file := pdf_path;
                     pm_extraction_method := method_used;
                     pm_timestamp := now;
                     pm_text_file := text_path;
                     pm_text_length := length extracted_text |}, st)
        end
    end.

End ProcessPdf.

(* ------------------------------------------------------------------ *)
(** ** Text and file names (crawler.py) *)

Module CrawlerText.

(** [re.sub(r'\s+', ' ', text)]: every run of white space becomes one
    space; [in_run] tells that the previous character was white space. *)
Fixpoint collapse_spaces (in_run : bool) (text : str) : str :=
  match text with
  | [] => []
  | c :: t =>
      if isspace c then
        if in_run then collapse_spaces true t
        else chr 32 :: collapse_spaces true t
      else c :: collapse_spaces false t
  end.

(** [clean_text] *)
Definition clean_text (text : str) : str :=
  strip isspace (collapse_spaces false text).

(** ["-_.() %s%s" % (string.ascii_letters, string.digits)] *)
Definition valid_chars : str :=
  lit "-_.() "
  ++ lit "abcdefghijklmnopqrstuvwxyzABCDEFGHIJKLMNOPQRSTUVWXYZ"
  ++ lit "0123456789".

(** [sanitize_filename] *)
Definition sanitize_filename (E : Externals) (filename : str) : str :=
  let short_filename := firstn 50 filename in
  let filename_hash := md5 E filename in
  let filename :=
    filter (fun c => existsb (Ascii.eqb c) valid_chars) short_filename in
  let filename := filename ++ lit "_" ++ filename_hash in
  rstrip (is_ch DOT) filename.

End CrawlerText.

(* ------------------------------------------------------------------ *)
(** ** EnhancedCrawler._download_file (Crawler-v02.py) *)

Module Download.

Import EnhancedCrawler.

(** [self.files_dir] *)
Definition files_dir (cfg : config) : str := base_dir cfg ++ lit "/files".

(** The dictionary [_download_file] returns. *)
Record file_metadata := {
  fm_url : str;
  fm_filename : str;
  fm_category : str;
  fm_size : nat;
  fm_timestamp : Z;
  fm_headers : list (str * str);
  fm_status_code : Z;
  fm_filepath : str;
  fm_pdf_extraction : option ProcessPdf.pdf_metadata }.

(** What [_download_file] reads and writes: the store shared with the
    page fetches, the PDF counters, the files on disk (path and bytes,
    oldest first), [self.downloaded_files] and
    [self.crawl_stats['files_downloaded']]. *)
Record state := {
  shared : store;
  pdf : ProcessPdf.state;
  disk : list (str * str);
  downloaded_files : list (str * set str);
  files_downloaded : Z }.

(** As [_init_tracking] sets it. *)
Definition init_downloaded_files : list (str * set str) :=
  map (fun entry => (fst entry, [])) FileHandler.downloadable_extensions.

Definition with_shared (s : store) (d : state) : state :=
  {| shared := s; pdf := pdf d; disk := disk d;
     downloaded_files := downloaded_files d;
     files_downloaded := files_downloaded d |}.

Definition with_pdf (p : ProcessPdf.state) (d : state) : state :=
  {| shared := shared d; pdf := p; disk := disk d;
     downloaded_files := downloaded_files d;
     files_downloaded := files_downloaded d |}.

Definition write_disk (path bytes : str) (d : state) : state :=
  {| shared := shared d; pdf := pdf d; disk := disk d ++ [(path, bytes)];
     downloaded_files := downloaded_files d;
     files_downloaded := files_downloaded d |}.

(** [d[key].add(url)]; [None] when the key is missing ([KeyError]). *)
Fixpoint dict_add (key url : str) (d : list (str * set str))
  : option (list (str * set str)) :=
  match d with
  | [] => None
  | (k, v) :: r =>
      if str_eqb k key then Some ((k, set_add str_eq_dec url v) :: r)
      else match dict_add key url r with
           | Some r' => Some ((k, v) :: r')
           | None => None
           end
  end.

(** The loop
<<
    while True:
        chunk = await response.content.read(8192)
        if not chunk:
            break
        f.write(chunk)
        total_size += len(chunk)
>>
    over the chunks the reads return, one after the other, the stream
    being at its end after the last: what was written, [total_size], and
    the exception a read raised, if one did. *)
Fixpoint read_chunks (chunks : list (result str)) (written : str)
  (total_size : nat) : result unit * str * nat :=
  match chunks with
  | [] => (Ok tt, written, total_size)
  | Raise ex :: _ => (Raise ex, written, total_size)
  | Ok chunk :: rest =>
      if nonempty chunk
      then read_chunks rest (written ++ chunk) (total_size + length chunk)
      else (Ok tt, written, total_size)
  end.

(** The [except] branch. *)
Definition failed (url : str) (ex : exn) (d : state)
  : option file_metadata * state :=
  (None,
   with_shared
     (incr_errors (add_failed_url url (emit (LogError url 0 ex) (shared d))))
     d).

Section WithExternals.
Variable B : PDFProcessor.Backends.
Variable E : Externals.
Variable guess_extension : str -> option str.

(** [_download_file]: [body response] is what the successive reads of
    [response.content] return, [can_open path] what opening [path] for
    writing does, [write_text] what writing the text of a PDF does. *)
Definition _download_file (cfg : config) (envs : nat -> attempt_env)
  (body : response -> list (result str)) (can_open : str -> result unit)
  (write_text : str -> str -> result unit) (now : Z)
  (url category : str) (d : state) : option file_metadata * state :=
  let (response, s) := _handle_request cfg envs url (shared d) in
  let d := with_shared s d in
  match response with
  | None => (None, d)
  | Some response =>
      let base_path := OsPath.join (files_dir cfg) category in
      let paths := map fst (disk d) in
      match SafeFilename.generate_safe_filename E guess_extension
              (fun p => str_in p paths) (S (length paths)) url base_path with
      | Raise ex => failed url ex d
      | Ok None => (None, d)     (* the loop of the names still running *)
      | Ok (Some filename) =>
          let filepath := OsPath.join base_path filename in
          match can_open filepath with
          | Raise ex => failed url ex d
          | Ok _ =>
              let '(outcome, written, total_size) :=
                read_chunks (body response) [] 0 in
              let d := write_disk filepath written d in
              match outcome with
              | Raise ex => failed url ex d
              | Ok _ =>
                  let (pdf_metadata, d) :=
                    if str_eqb category (lit "document")
                       && endswith (lit ".pdf") (lower filepath)
                    then
                      let (m, p) :=
                        ProcessPdf._process_pdf B E (text_dir cfg) write_text
                          now filepath url (pdf d) in
                      (m, with_pdf p d)
                    else (None, d) in
                  match dict_add category url (downloaded_files d) with
                  | None => failed url OtherError d
                  | Some files =>
                      (Some {| fm_url := url;
                               fm_filename := OsPath.basename filepath;
                               fm_category := category;
                               fm_size := total_size;
                               fm_timestamp := now;
                               fm_headers := headers response;
                               fm_status_code := status response;
                               fm_filepath := filepath;
                               fm_pdf_extraction := pdf_metadata |},
                       {| shared := emit (LogInfo url) (shared d);
                          pdf := pdf d; disk := disk d;
                          downloaded_files := files;
                          files_downloaded := files_downloaded d + 1 |})
                  end
              end
          end
      end
  end.

End WithExternals.

End Download.
(* ================================================================== *)
(** * Specification vocabulary *)

(* ------------------------------------------------------------------ *)
(** ** PDF extraction: the longest stripped text wins *)

Module LongestWins.

Import PDFProcessor.

(** [len(text.strip())] *)
Definition stripped_length (t : str) : nat := length (strip isspace t).

(** What a backend contributes to the comparison: the stripped length of
    its text, nothing when it raises. *)
Definition yield (pdf_path : str) (m : str * method) : nat :=
  match snd m pdf_path with
  | Ok t => stripped_length t
  | Raise _ => 0
  end.

(** The backends invoked, in order. *)
Fixpoint calls (evs : list event) : list str :=
  match evs with
  | [] => []
  | Called n :: r => n :: calls r
  | Logged _ :: r => calls r
  end.

(** The errors logged, in order. *)
Fixpoint logged (evs : list event) : list log_entry :=
  match evs with
  | [] => []
  | Called _ :: r => logged r
  | Logged e :: r => e :: logged r
  end.

Definition raised (pdf_path : str) (m : str * method) : list log_entry :=
  match snd m pdf_path with
  | Ok _ => []
  | Raise e => [ErrorWith (fst m) e]
  end.

(** The winner of a table: the first backend whose stripped text is as
    long as any other's, that length being positive. *)
Definition wins (methods : list (str * method)) (pdf_path : str)
  (text name : str) : Prop :=
  exists pre f post,
    methods = pre ++ (name, f) :: post
    /\ f pdf_path = Ok text
    /\ (0 < stripped_length text)%nat
    /\ (forall m, In m pre -> (yield pdf_path m < stripped_length text)%nat)
    /\ (forall m, In m post -> (yield pdf_path m <= stripped_length text)%nat).

Definition longest_wins (methods : list (str * method)) (pdf_path : str)
  : Prop :=
  calls (events (run methods pdf_path)) = map fst methods
  /\ logged (events (run methods pdf_path))
     = flat_map (raised pdf_path) methods
  /\ ((forall m, In m methods -> yield pdf_path m = 0%nat) ->
      extract_text_from_pdf_with methods pdf_path = ([], []))
  /\ ((exists m, In m methods /\ (0 < yield pdf_path m)%nat) ->
      exists text name,
        extract_text_from_pdf_with methods pdf_path = (text, name)
        /\ wins methods pdf_path text name).

(** The loop invariant: after the backends of [done], the best so far is
    the winner of [done], or nothing when all of [done] came out empty. *)
Definition best_so_far (done : list (str * method)) (pdf_path : str)
  (st : state) : Prop :=
  (forall m, In m done -> (yield pdf_path m <= max_length st)%nat)
  /\ ((max_length st = 0%nat /\ best_text st = [] /\ best_method st = [])
      \/ (max_length st = stripped_length (best_text st)
          /\ wins done pdf_path (best_text st) (best_method st))).

(** Backends as in a PDF whose native text is short and whose OCR text is
    long; the middle one raises. *)
Definition scanned_pdf : Backends :=
  {| _extract_with_pymupdf := fun _ => Ok (lit "abc");
     _extract_with_pypdf2 := fun _ => Raise OtherError;
     _extract_with_ocr := fun _ => Ok (lit "  abcdefghij  ") |}.

(** Backends that all come out blank. *)
Definition blank_pdf : Backends :=
  {| _extract_with_pymupdf := fun _ => Ok (lit "   ");
     _extract_with_pypdf2 := fun _ => Ok [];
     _extract_with_ocr := fun _ => Raise OtherError |}.

(** Two backends of equal stripped length. *)
Definition tied_pdf : Backends :=
  {| _extract_with_pymupdf := fun _ => Ok [];
     _extract_with_pypdf2 := fun _ => Ok (lit "abc ");
     _extract_with_ocr := fun _ => Ok (lit " xyz") |}.

End LongestWins.

(* ------------------------------------------------------------------ *)
(** ** Sample collaborators *)

(** Collaborators under which everything can be run: the library checks
    accept, the digest is the identity, pages have no title, text or
    links. *)
Definition sample_externals : Externals := {|
  check_bracketed_netloc := fun _ => true;
  checknetloc_nfkc := fun _ => true;
  md5 := fun s => s;
  soup_title := fun _ => Ok None;
  soup_stripped_strings := fun _ => Ok [];
  soup_hrefs := fun _ => Ok [];
  list_set := fun l => l |}.

(* ------------------------------------------------------------------ *)
(** ** Classification by suffix *)

Module Classifier.

Import FileHandler.

(** A table is well formed when no suffix is listed twice, every category
    has a name, ['other'] is one of the categories, and the empty suffix
    is not listed. *)
Definition well_formed (table : list (str * list str)) : Prop :=
  NoDup (flat_map snd table)
  /\ Forall (fun c => nonempty c = true) (map fst table)
  /\ In (lit "other") (map fst table)
  /\ ~ In [] (flat_map snd table).

(** No string occurs twice in [l]. *)
Fixpoint distinct (l : list str) : bool :=
  match l with
  | [] => true
  | x :: r => negb (str_in x r) && distinct r
  end.

(** What the table says about a suffix [ext], for the category [c] the
    classifier returned: [c] is a category of the table, the only one
    listing [ext], and it is ['other'] when none lists it. *)
Definition category_for (table : list (str * list str)) (ext c : str)
  : Prop :=
  In c (map fst table)
  /\ (forall c' exts, In (c', exts) table -> In ext exts -> c' = c)
  /\ ((forall c' exts, In (c', exts) table -> ~ In ext exts) ->
      c = lit "other").

(** Crawler-v02.py: a URL whose path has a suffix is a file of exactly one
    category; a URL whose path has none is a page to crawl. *)
Definition classified (E : Externals) (url : str) (p : Urllib.ParseResult)
  : Prop :=
  let suffix := Pathlib.suffix (Urllib.path p) in
  (suffix <> [] ->
   exists c,
     get_file_category E url = Ok (Some c)
     /\ category_for downloadable_extensions (lower suffix) c
     /\ EnhancedCrawler.route E url = Ok (EnhancedCrawler.DownloadFile c))
  /\ (suffix = [] ->
      get_file_category E url = Ok None
      /\ EnhancedCrawler.route E url = Ok EnhancedCrawler.CrawlPage).

(** Code.py, crawler4.py, Crawler5.py: the URL [scheme://a.seg] gets the
    suffix [.seg] and is downloaded as a file of the category the table
    gives to that suffix. *)
Definition host_classified (table : list (str * list str))
  (scheme a seg : str) : Prop :=
  let url := scheme ++ lit "://" ++ a ++ DOT :: seg in
  Pathlib.suffix url = DOT :: seg
  /\ exists c,
       get_file_category_of_url table url = Some c
       /\ category_for table (lower (DOT :: seg)) c
       /\ UrlClassifier.route table url = EnhancedCrawler.DownloadFile c.

End Classifier.

(* ------------------------------------------------------------------ *)
(** ** Proxy rotation *)

Module ProxyFacts.

Import ProxyManager.

(** A proxy file with three well-formed lines. *)
Definition three_lines : str :=
  lit "10.0.0.1:8080:user:secret" ++ [LF]
  ++ lit "10.0.0.2:8080:user:secret" ++ [LF]
  ++ lit "10.0.0.3:8080:user:secret" ++ [LF].

(** Within the hour after start-up: no sweep. *)
Definition early : env :=
  {| now := 1000000; probes := fun _ => None; now_after := 1000000 |}.

(** More than an hour after start-up, no proxy answering the probe. *)
Definition late_all_down : env :=
  {| now := update_interval + 2000000; probes := fun _ => None;
     now_after := update_interval + 7000000 |}.

End ProxyFacts.

(* ------------------------------------------------------------------ *)
(** ** Retries *)

Module Retry.

Import EnhancedCrawler.

(** What the retry loop does around a failed attempt [i] that raised
    [ex]: the attempt, the error logged with the attempt's number, and the
    sleep of [request_delay * (i + 1)]. *)
Definition failed_attempt (url : str) (iex : nat * exn) : list effect :=
  let (i, ex) := iex in
  [Attempt url i; LogError url (i + 1) ex; Sleep (Z.of_nat i + 1)].

(** The effects of [k] failed attempts, numbered from [from]. *)
Definition failed_attempts (url : str) (from : nat) (exs : list exn)
  : list effect :=
  flat_map (failed_attempt url) (combine (seq from (length exs)) exs).

(** The policy [_handle_request] follows on [url] from store [s]:
    attempts [0 .. k-1] raise and are each followed by a sleep of
    [request_delay * attempt_number]; either attempt [k] answers with a
    status below 400 and is returned, the failed set and the error counter
    being untouched, or [k] is [max_retries], nothing is returned, and
    (when there was an attempt at all) the URL is in the failed set and
    the error counter is one higher. *)
Definition policy (cfg : config) (envs : nat -> attempt_env) (url : str)
  (s : store) : Prop :=
  let result := _handle_request cfg envs url s in
  let s' := snd result in
  exists exs : list exn,
    (length exs <= Z.to_nat (max_retries cfg))%nat
    /\ content_hashes s' = content_hashes s
    /\ files s' = files s
    /\ pages_processed s' = pages_processed s
    /\ match fst result with
       | Some r =>
           (length exs < Z.to_nat (max_retries cfg))%nat
           /\ (status r < 400)%Z
           /\ effects s' = effects s ++ failed_attempts url 0 exs
                           ++ [Attempt url (length exs)]
           /\ failed_urls s' = failed_urls s
           /\ errors s' = errors s
       | None =>
           length exs = Z.to_nat (max_retries cfg)
           /\ effects s' = effects s ++ failed_attempts url 0 exs
           /\ ((1 <= max_retries cfg)%Z ->
               failed_urls s' = set_add str_eq_dec url (failed_urls s)
               /\ errors s' = (errors s + 1)%Z)
           /\ ((max_retries cfg <= 0)%Z -> s' = s)
       end.

(** Every request, through whatever proxy, is answered 404. *)
Definition always_404 (envs : nat -> attempt_env) : Prop :=
  forall (i : nat) (proxy : option str),
    exists r, send (envs i) proxy = Responds r /\ status r = 404%Z.

(** The attempts made, counted in the effects. *)
Fixpoint attempts_in (evs : list effect) : nat :=
  match evs with
  | [] => 0
  | Attempt _ _ :: r => S (attempts_in r)
  | _ :: r => attempts_in r
  end.

(** A 404 is retried like any other failure. *)
Definition retried_404 (cfg : config) (envs : nat -> attempt_env)
  (url : str) (s : store) : Prop :=
  let result := _handle_request cfg envs url s in
  fst result = None
  /\ attempts_in (effects (snd result))
     = (attempts_in (effects s) + Z.to_nat (max_retries cfg))%nat.

(** A direct connection, no sweep in sight, and the given reply. *)
Definition answering (r : reply) : attempt_env :=
  {| proxy_env := ProxyFacts.early; send := fun _ => r |}.

Definition plain_response (code : Z) : response :=
  {| status := code;
     headers := [(lit "Content-Type", lit "text/html; charset=utf-8")];
     text := Ok (lit "<html><title>T</title>Hello</html>") |}.

(** The first attempt is answered 404, the later ones 200. *)
Definition first_404_then_200 (i : nat) : attempt_env :=
  match i with
  | O => answering (Responds (plain_response 404))
  | _ => answering (Responds (plain_response 200))
  end.

Definition sample_config : config :=
  {| base_url := lit "https://example.com";
     domain := lit "example.com";
     max_pages := 100;
     concurrent_requests := 5;
     max_retries := 3 |}.

Definition sample_store : store :=
  init_store (ProxyManager.init ProxyManager.Absent 0).

End Retry.

(* ------------------------------------------------------------------ *)
(** ** Duplicate bodies *)

Module Dedup.

Import EnhancedCrawler.

(** The request for [url] from store [s] is answered by [response], an
    HTML page whose decoded body is [content]. *)
Definition fetched_html (cfg : config) (envs : nat -> attempt_env)
  (url : str) (s : store) (response : EnhancedCrawler.response)
  (content : str) : Prop :=
  fst (_handle_request cfg envs url s) = Some response
  /\ is_substring (lit "text/html")
       (headers_get (lit "content-type") [] (headers response)) = true
  /\ text response = Ok content.

Definition with_shared (s : store) (c : crawler) : crawler :=
  {| queue := queue c; seen_urls := seen_urls c; shared := s;
     dispatched := dispatched c |}.

(** The page at [url] is dropped: [_fetch_url] returns nothing, writes no
    file and leaves the hash set and the page counter as they were; the
    crawl loop, given that result, saves nothing, extracts no link, and
    leaves the queue and the seen set as they were. *)
Definition discarded (E : Externals) (cfg : config)
  (envs : nat -> attempt_env) (now : Z) (url : str) (c : crawler) : Prop :=
  let fetched := _fetch_url E cfg envs now url (shared c) in
  let c1 := with_shared (snd fetched) c in
  fst fetched = None
  /\ files (snd fetched) = files (shared c)
  /\ content_hashes (snd fetched) = content_hashes (shared c)
  /\ pages_processed (snd fetched) = pages_processed (shared c)
  /\ handle_result E cfg c1 (url, fst fetched) = (c1, None)
  /\ queue c1 = queue c
  /\ seen_urls c1 = seen_urls c.

(** One turn of the crawl loop on a queue holding just [url], a page that
    is dropped: the turn ends with an empty queue, the same seen set and
    the same files. *)
Definition turn_adds_nothing (E : Externals) (cfg : config)
  (download : downloader) (world : str -> nat -> attempt_env) (now : Z)
  (url : str) (c : crawler) : Prop :=
  exists c',
    crawl_step E cfg (process_batch_seq E cfg download world now) c
    = Continue c'
    /\ queue c' = []
    /\ seen_urls c' = seen_urls c
    /\ files (shared c') = files (shared c)
    /\ dispatched c' = dispatched c ++ [url].

(** [_handle_request] returns the response from inside its two
    [async with] blocks (Crawler-v02.py:390-400): when [_fetch_url] gets
    it, the session is closed and the connection released, and
    [await response.text()] raises. *)
Definition read_after_release (r : response) : Prop :=
  exists ex, text r = Raise ex.

(** The answers as the running program meets them: every response is
    read after its release. *)
Definition released_world (envs : nat -> attempt_env) : Prop :=
  forall i proxy r, send (envs i) proxy = Responds r -> read_after_release r.

(** The page at [url] leaves no trace in the hash set: [_fetch_url]
    returns nothing, records no digest, writes no file and counts no
    page. *)
Definition never_recorded (E : Externals) (cfg : config)
  (envs : nat -> attempt_env) (now : Z) (url : str) (s : store) : Prop :=
  let fetched := _fetch_url E cfg envs now url s in
  fst fetched = None
  /\ content_hashes (snd fetched) = content_hashes s
  /\ files (snd fetched) = files s
  /\ pages_processed (snd fetched) = pages_processed s.

(** [Retry.plain_response] as [_fetch_url] gets it. *)
Definition released_response (code : Z) : response :=
  {| status := code;
     headers := headers (Retry.plain_response code);
     text := Raise ClientError |}.

(** A site whose every URL answers 200 with the same HTML page. *)
Definition released_site (url : str) (i : nat) : attempt_env :=
  Retry.answering (Responds (released_response 200)).

(** The crawl of that site. *)
Definition released_crawl (fuel : nat) : option outcome :=
  crawl sample_externals Retry.sample_config
    (process_batch_seq sample_externals Retry.sample_config
       (fun _ _ s => s) released_site 0)
    fuel Retry.sample_store.

End Dedup.

(* ------------------------------------------------------------------ *)
(** ** At most one dispatch per URL *)

Module AtMostOnce.

Import EnhancedCrawler.

(** The invariant of the crawl loop: no URL occurs twice among those
    dispatched and those waiting, and the seen set is exactly these. *)
Definition claimed_once (c : crawler) : Prop :=
  NoDup (dispatched c ++ queue c)
  /\ NoDup (seen_urls c)
  /\ (forall u, In u (seen_urls c) <-> In u (dispatched c ++ queue c)).

(** The invariant on the three lists it speaks of. *)
Definition once (d q : list str) (seen : set str) : Prop :=
  NoDup (d ++ q) /\ NoDup seen /\ (forall u, In u seen <-> In u (d ++ q)).

Definition outcome_state (o : outcome) : crawler :=
  match o with
  | Continue c => c
  | Finished c => c
  | Crashed _ c => c
  end.

(** A link is pushed only when it is not in the seen set, and enters the
    seen set as it is pushed. *)
Definition enqueue_law (q : list str) (seen : set str) (link : str)
  : Prop :=
  (In link seen -> enqueue_link (q, seen) link = (q, seen))
  /\ (~ In link seen ->
      enqueue_link (q, seen) link = (q ++ [link], seen ++ [link])).

(** crawler.py, a run that starts from the table [db0]: no normalized URL
    is granted twice, none that the table held at start is granted, and
    every URL whose claim is attempted ends in the table, granted once
    when the table did not hold it at start and never otherwise. *)
Definition granted_once (E : Externals) (db0 : Crawler.visited_urls)
  (xs : list Crawler.section) (start_url : str) : Prop :=
  let final := Crawler.run E xs (Crawler.initial db0 start_url) in
  NoDup (Crawler.fetched final)
  /\ (forall u, In u (Crawler.fetched final) -> ~ In u db0)
  /\ (forall url n,
        In (Crawler.Claim url) xs -> Crawler.normalize_url E url = Ok n ->
        count_occ str_eq_dec (Crawler.fetched final) n
        = (if Crawler.is_visited db0 n then 0 else 1)%nat
        /\ Crawler.is_visited (Crawler.db final) n = true).

(** crawler.py: what was claimed was claimed once and is in the table. *)
Definition claims_agree (s : Crawler.state) : Prop :=
  NoDup (Crawler.fetched s)
  /\ (forall u, In u (Crawler.fetched s) -> In u (Crawler.db s)).

(** crawler.py: what is in the table was claimed in this run or was in
    the table at start. *)
Definition db_fetched (db0 : Crawler.visited_urls) (s : Crawler.state)
  : Prop :=
  forall u, In u (Crawler.db s) -> In u (Crawler.fetched s) \/ In u db0.

(** crawler.py: the table keeps the rows it had at start, and none of
    them is claimed. *)
Definition keeps_rows (db0 : Crawler.visited_urls) (s : Crawler.state)
  : Prop :=
  (forall u, In u db0 -> In u (Crawler.db s))
  /\ (forall u, In u (Crawler.fetched s) -> ~ In u db0).

End AtMostOnce.

(* ------------------------------------------------------------------ *)
(** ** The cap on pages *)

Module Cap.

Import EnhancedCrawler.

Definition index_body : str :=
  lit "<a href=/a>a</a><a href=/b>b</a><a href=/c>c</a>".

(** Collaborators that find three links in [index_body] and none
    elsewhere. *)
Definition linking_externals : Externals := {|
  check_bracketed_netloc := fun _ => true;
  checknetloc_nfkc := fun _ => true;
  md5 := fun s => s;
  soup_title := fun _ => Ok None;
  soup_stripped_strings := fun _ => Ok [];
  soup_hrefs := fun html =>
    if str_eqb html index_body then Ok [lit "/a"; lit "/b"; lit "/c"]
    else Ok [];
  list_set := fun l => l |}.

(** A site whose every URL answers 200 with [index_body]. *)
Definition index_world (url : str) (i : nat) : attempt_env :=
  Retry.answering
    (Responds {| status := 200;
                 headers := [(lit "Content-Type", lit "text/html")];
                 text := Ok index_body |}).

Definition capped_config (cap : Z) : config :=
  {| base_url := lit "https://example.com";
     domain := lit "example.com";
     max_pages := cap;
     concurrent_requests := 5;
     max_retries := 3 |}.

Definition no_download : downloader := fun _ _ s => s.

(** The crawl of that site with [max_pages = cap]. *)
Definition capped_crawl (cap : Z) (fuel : nat) : option outcome :=
  crawl linking_externals (capped_config cap)
    (process_batch_seq linking_externals (capped_config cap) no_download
       index_world 0)
    fuel Retry.sample_store.

End Cap.

(* ------------------------------------------------------------------ *)
(** ** URLs written out from their components *)

Module Url.

Import Urllib.

(** A scheme as [urlsplit] recognizes one: an ASCII letter followed by
    scheme characters. *)
Definition valid_scheme (s : str) : Prop :=
  match s with
  | [] => False
  | c0 :: _ => is_ascii_alpha c0 = true /\ forallb is_scheme_char s = true
  end.

(** No tab, carriage return or line feed. *)
Definition clean (t : str) : Prop :=
  Forall (fun c => is_unsafe_url_byte c = false) t.

Definition without (k : ascii) (t : str) : Prop := ~ In k t.

(** A network location: not empty, ASCII, without delimiter or bracket. *)
Definition plain_netloc (n : str) : Prop :=
  n <> [] /\ isascii n = true /\ clean n
  /\ without SLASH n /\ without QMARK n /\ without HASH n
  /\ without LBRACKET n /\ without RBRACKET n.

(** A path after a network location: empty or starting with a slash,
    without [?], [#] or [;]. *)
Definition plain_path (p : str) : Prop :=
  (p = [] \/ exists r, p = SLASH :: r)
  /\ clean p /\ without QMARK p /\ without HASH p /\ without SEMI p.

Definition plain_query (q : option str) : Prop :=
  match q with
  | Some q => clean q /\ without HASH q
  | None => True
  end.

Definition plain_fragment (f : option str) : Prop :=
  match f with
  | Some f => clean f
  | None => True
  end.

Definition marked (k : ascii) (t : option str) : str :=
  match t with
  | Some t => k :: t
  | None => []
  end.

(** [scheme://netloc path ?query #fragment] *)
Definition build (s n p : str) (q f : option str) : str :=
  s ++ lit "://" ++ n ++ p ++ marked QMARK q ++ marked HASH f.

Definition well_formed (s n p : str) (q f : option str) : Prop :=
  valid_scheme s /\ plain_netloc n /\ plain_path p
  /\ plain_query q /\ plain_fragment f.

(** A network location as [urlsplit] lets one through: not empty, without
    delimiter, and passing the checks on brackets and on non-ASCII
    characters. *)
Definition accepted_netloc (E : Externals) (n : str) : Prop :=
  n <> [] /\ clean n
  /\ without SLASH n /\ without QMARK n /\ without HASH n
  /\ check_brackets E n = Ok tt /\ _checknetloc E n = Ok tt.

Definition well_formed_for (E : Externals) (s n p : str)
  (q f : option str) : Prop :=
  valid_scheme s /\ accepted_netloc E n /\ plain_path p
  /\ plain_query q /\ plain_fragment f.

(** The scheme [urlsplit] finds, when it finds one, and the text it goes
    on with. *)
Definition scheme_cut (u : str) : str * str :=
  match break_at (is_ch COLON) u with
  | (c0 :: pre, _ :: post) =>
      if isascii_char c0 && is_ascii_alpha c0
         && forallb is_scheme_char (c0 :: pre)
      then (lower (c0 :: pre), post)
      else ([], u)
  | _ => ([], u)
  end.

(** The network location [urlsplit] finds and the text it goes on
    with. *)
Definition netloc_cut (E : Externals) (u : str) : result (str * str) :=
  match u with
  | c1 :: c2 :: rest =>
      if is_ch SLASH c1 && is_ch SLASH c2 then
        let (netloc, url') := _splitnetloc rest in
        _ <- check_brackets E netloc;;
        Ok (netloc, url')
      else Ok ([], u)
  | _ => Ok ([], u)
  end.

Definition headed (t : str) : Prop :=
  match t with [] => True | c :: _ => is_netloc_delim c = true end.

(** The path [urlsplit] is left with, the fragment and the query cut
    off. *)
Definition path_cut (u : str) : str :=
  let '(u1, _) := match partition HASH u with
                  | Some (a, b) => (a, b)
                  | None => (u, [])
                  end in
  let '(u2, _) := match partition QMARK u1 with
                  | Some (a, b) => (a, b)
                  | None => (u1, [])
                  end in
  u2.

(** A parse with a scheme, a network location, and no [;] in its path. *)
Definition absolute (p : ParseResult) : Prop :=
  scheme p <> [] /\ netloc p <> [] /\ without SEMI (path p).

(** A query or fragment that [urlunsplit] writes out: a non-empty one. *)
Definition present (t : option str) : option str :=
  match t with
  | Some (c :: r) => Some (c :: r)
  | _ => None
  end.

Definition text_of (t : option str) : str :=
  match t with
  | Some t => t
  | None => []
  end.

End Url.

(* ------------------------------------------------------------------ *)
(** ** Normalization *)

Module Normal.

Import Urllib Url EnhancedCrawler.

(** The base URL can be joined against: it is empty or it parses. *)
Definition usable_base (E : Externals) (base : str) : Prop :=
  base = [] \/ exists b, urlparse E base [] = Ok b.

(** The canonical text of [scheme://netloc path]: the scheme in lower
    case, the network location as written, the path without its trailing
    slashes; no query, no fragment. *)
Definition canonical (s n p : str) : str :=
  lower s ++ lit "://" ++ n ++ rstrip (is_ch SLASH) p.

(** What [_normalize_url] returns on any input it accepts. *)
Definition normal_form (E : Externals) (cfg : config) (url out : str)
  : Prop :=
  (exists joined parsed,
      urljoin E (base_url cfg) url = Ok joined
      /\ urlparse E joined [] = Ok parsed
      /\ out = rstrip (is_ch SLASH)
                 (scheme parsed ++ lit "://" ++ netloc parsed ++ path parsed)
      /\ without HASH (scheme parsed ++ netloc parsed ++ path parsed)
      /\ without QMARK (scheme parsed ++ netloc parsed ++ path parsed))
  /\ without HASH out
  /\ without QMARK out
  /\ (out = [] \/ last out SLASH <> SLASH).

(** What it returns on [scheme://netloc path ?query #fragment]. *)
Definition normalizes_to_canonical (E : Externals) (cfg : config)
  (s n p : str) (q f : option str) : Prop :=
  _normalize_url E cfg (build s n p q f) = Ok (canonical s n p).

(** The claim as the specification words it: lower-case host, query
    kept. *)
Definition canonical_as_specified (s n p : str) (q : option str) : str :=
  lower s ++ lit "://" ++ lower n ++ rstrip (is_ch SLASH) p ++ marked QMARK q.

(** [_normalize_url] on a URL whose resolved form parses as [p]: it
    returns the canonical text of [p], and returns that text again when
    given it. *)
Definition fixed_after_one (E : Externals) (cfg : config) (url : str)
  (p : ParseResult) : Prop :=
  let out := canonical (scheme p) (netloc p) (path p) in
  _normalize_url E cfg url = Ok out /\ _normalize_url E cfg out = Ok out.

(** The same for [normalize_url] of crawler.py, [p] being the parse of
    the URL itself. *)
Definition fixed_after_one_crawler (E : Externals) (url : str)
  (p : ParseResult) : Prop :=
  let out := canonical (scheme p) (netloc p) (path p) in
  Crawler.normalize_url E url = Ok out
  /\ Crawler.normalize_url E out = Ok out.

(** Normalizing twice is normalizing once, in Crawler-v02.py and in
    crawler.py. *)
Definition idempotent_on (E : Externals) (cfg : config) (url : str) : Prop :=
  (forall out, _normalize_url E cfg url = Ok out ->
               _normalize_url E cfg out = Ok out)
  /\ (forall out, Crawler.normalize_url E url = Ok out ->
                  Crawler.normalize_url E out = Ok out).

End Normal.

(* ------------------------------------------------------------------ *)
(** ** How long the crawl loop runs *)

Module Turns.

Import EnhancedCrawler.

(** The batch a turn of the loop takes off the queue. *)
Definition batch_of (cfg : config) (c : crawler) : list str :=
  firstn (Z.to_nat (Z.min (concurrent_requests cfg)
                          (Z.of_nat (length (queue c)))))
    (queue c).

(** The most URLs [crawl] can hand to [_process_url]: a turn starts with
    at most [max_pages - 2] URLs dispatched and takes at most
    [concurrent_requests] more. *)
Definition dispatch_bound (cfg : config) : Z :=
  Z.max 0 (max_pages cfg - 2 + concurrent_requests cfg).

(** The crawl has come to an end, by the loop condition or by an
    exception. *)
Definition ended (o : outcome) : Prop :=
  match o with
  | Continue _ => False
  | Finished _ | Crashed _ _ => True
  end.

(** [asyncio.gather] over an empty batch returns no result. *)
Definition gathers_nothing (process_batch : batch_processor) : Prop :=
  forall s, exists s', process_batch [] s = (Ok [], s').

(** A configuration that asks for no request at a time. *)
Definition idle_config : config :=
  {| base_url := lit "https://example.com";
     domain := lit "example.com";
     max_pages := 100;
     concurrent_requests := 0;
     max_retries := 3 |}.

End Turns.

(* ------------------------------------------------------------------ *)
(** ** The names [generate_safe_filename] tries *)

Module Names.

Import SafeFilename.

(** The name tested at the [k]-th evaluation of the loop condition,
    counting from 0: the original one, then [name_1ext], [name_2ext],
    ... *)
Definition candidate (original_filename : str) (k : nat) : str :=
  match k with
  | O => original_filename
  | S _ =>
      let (name, ext) := OsPath.splitext original_filename in
      name ++ lit "_" ++ str_of_nat k ++ ext
  end.

(** [os.path.exists] for a file system that holds the paths [files]. *)
Definition listed (files : list str) : str -> bool :=
  fun p => str_in p files.

(** Files saved one after the other into [base_path], under the names
    [generate_safe_filename] gives for [urls]: the paths written. *)
Fixpoint written_paths (E : Externals) (guess_extension : str -> option str)
  (base_path : str) (urls : list str) (files : list str)
  : result (list str) :=
  match urls with
  | [] => Ok []
  | url :: rest =>
      o <- generate_safe_filename E guess_extension (listed files)
             (S (length files)) url base_path ;;
      match o with
      | None => Ok []
      | Some filename =>
          let filepath := OsPath.join base_path filename in
          ps <- written_paths E guess_extension base_path rest
                  (filepath :: files) ;;
          Ok (filepath :: ps)
      end
  end.

(** No MIME type is known. *)
Definition no_guess : str -> option str := fun _ => None.

End Names.

(* ------------------------------------------------------------------ *)
(** ** The proxy manager in use *)

From Stdlib Require Import Sorted Permutation.

Module Rotation.

Import ProxyManager EnhancedCrawler.

(** Calls of [get_proxy] one after the other: what each returned, and the
    manager after the last. *)
Fixpoint get_proxies (es : list env) (pm : t) : list (result proxy) * t :=
  match es with
  | [] => ([], pm)
  | e :: rest =>
      let (r, pm) := get_proxy e pm in
      let (rs, pm) := get_proxies rest pm in
      (r :: rs, pm)
  end.

(** At the call, the last sweep is no more than an hour old. *)
Definition no_sweep_due (pm : t) (e : env) : Prop :=
  (now e - last_update pm <= update_interval)%Z.

(** The entry [k] places after the current one, going round. *)
Definition turn (pm : t) (k : nat) : proxy :=
  nth ((current_index pm + k) mod length (proxies pm)) (proxies pm) direct.

(** Every proxy handed out has had its outcome recorded. *)
Definition balanced (pm : t) : Prop :=
  total_used (stats pm)
  = (successful_requests (stats pm) + failed_requests (stats pm))%Z.

(** [1] for a request that was answered, [0] for one given up. *)
Definition answered (r : option response) : Z :=
  match r with Some _ => 1 | None => 0 end.

(** The entry [q] is [p] with the time its probe took. *)
Definition measured (pr : probe) (p q : proxy) : Prop :=
  exists t, pr p = Some t
            /\ q = {| http := http p; https := https p; speed := Some t |}.

(** From the fastest to the slowest. *)
Definition ascending (l : list proxy) : Prop :=
  StronglySorted (fun a b => speed_le a b = true) l.

(** The line [ip:port:username:password] of a proxy file. *)
Definition line_of (ip port username password : str) : str :=
  ip ++ COLON :: port ++ COLON :: username ++ COLON :: password.

(** The entry [_load_proxies] makes of such a line. *)
Definition entry_of (ip port username password : str) : proxy :=
  let proxy_url :=
    lit "http://" ++ username ++ lit ":" ++ password ++ lit "@"
    ++ ip ++ lit ":" ++ port in
  {| http := Some proxy_url; https := Some proxy_url; speed := None |}.

End Rotation.

(* ------------------------------------------------------------------ *)
(** ** The links a page contributes *)

Module Links.

Import Urllib Url EnhancedCrawler.

(** What [_is_valid_url] and [_normalize_url] together let through: a URL
    that parses, on the crawled domain or without network location, with
    no query, no fragment and no trailing slash, that holds none of the
    words of the first pattern and ends with none of the suffixes of the
    third. *)
Definition in_scope (E : Externals) (cfg : config) (l : str) : Prop :=
  (exists p, urlparse E l [] = Ok p
             /\ (netloc p = [] \/ netloc p = domain cfg))
  /\ without HASH l
  /\ without QMARK l
  /\ l <> []
  /\ last l SLASH <> SLASH
  /\ matches_auth_words (lower l) = false
  /\ matches_static_suffix (lower l) = false.

(** [set(links)] holds nothing that [links] does not. *)
Definition set_of_its_list (E : Externals) : Prop :=
  forall (l : list str) (x : str), In x (list_set E l) -> In x l.

End Links.

(* ------------------------------------------------------------------ *)
(** ** The retry loops of crawler4.py and Code.py *)

Module FetchLaws.

Import EnhancedCrawler.

(** The sleeps among the effects: one after every attempt that raised. *)
Fixpoint sleeps_in (evs : list effect) : nat :=
  match evs with
  | [] => 0
  | Sleep _ :: r => S (sleeps_in r)
  | _ :: r => sleeps_in r
  end.

(** Building the soup of [html], or reading it, raises [ex]. *)
Definition parse_raises (E : Externals) (html : str) (ex : exn) : Prop :=
  soup_title E html = Raise ex
  \/ (exists t, soup_title E html = Ok t)
     /\ soup_stripped_strings E html = Raise ex.

(** A response [_fetch_url] of crawler4.py takes for a page. *)
Definition html_page (r : Crawler4.response) : Prop :=
  (Crawler4.status_code r < 400)%Z
  /\ is_substring (lit "text/html")
       (headers_get (lit "Content-Type") [] (Crawler4.headers r)) = true.

(** A parser that fails on every input. *)
Definition broken_parser : Externals := {|
  check_bracketed_netloc := fun _ => true;
  checknetloc_nfkc := fun _ => true;
  md5 := fun s => s;
  soup_title := fun _ => Raise OtherError;
  soup_stripped_strings := fun _ => Ok [];
  soup_hrefs := fun _ => Ok [];
  list_set := fun l => l |}.

Definition sample_page : Crawler4.response :=
  {| Crawler4.status_code := 200;
     Crawler4.headers := [(lit "Content-Type", lit "text/html")];
     Crawler4.content := lit "<p>";
     Crawler4.text := lit "<p>" |}.

Definition empty_state : Fetch.state :=
  {| Fetch.failed_urls := []; Fetch.content_hashes := [];
     Fetch.effects := [] |}.

(** The connection fails on the second request. *)
Definition second_request_fails (i : nat) : CodePy.reply :=
  match i with
  | 1%nat => CodePy.Fails ClientError
  | _ => CodePy.Responds
           {| CodePy.status := 200;
              CodePy.headers := [(lit "Content-Type", lit "text/html")];
              CodePy.read := Raise ClientError;
              CodePy.text := Raise ClientError |}
  end.

End FetchLaws.

(* ------------------------------------------------------------------ *)
(** ** Digests as [hexdigest] prints them *)

Module Digest.

Definition is_hex_char (c : ascii) : bool :=
  is_digit c || in_range 97 102 c.

(** [hashlib.md5(...).hexdigest()] is 32 hexadecimal digits. *)
Definition hex_digest (E : Externals) : Prop :=
  forall s, length (md5 E s) = 32%nat
            /\ forallb is_hex_char (md5 E s) = true.

(** A stand-in for MD5 that prints 32 hexadecimal digits: those of the
    text, then zeros. *)
Definition short_digest (s : str) : str :=
  firstn 32 (filter is_hex_char s ++ repeat (chr 48) 32).

Definition hex_externals : Externals := {|
  check_bracketed_netloc := fun _ => true;
  checknetloc_nfkc := fun _ => true;
  md5 := short_digest;
  soup_title := fun _ => Ok None;
  soup_stripped_strings := fun _ => Ok [];
  soup_hrefs := fun _ => Ok [];
  list_set := fun l => l |}.

(** [mimetypes.guess_extension] returns an extension, which holds no
    slash. *)
Definition plain_extensions (guess_extension : str -> option str) : Prop :=
  forall t e, guess_extension t = Some e -> ~ In SLASH e.

End Digest.

(* ------------------------------------------------------------------ *)
(** ** The PDF counters *)

Module PdfCounters.

Import ProcessPdf.

(** The counters per method are those of the three methods. *)
Definition keyed (st : state) : Prop :=
  map fst (extraction_methods (stats st))
  = [lit "pymupdf"; lit "pypdf2"; lit "ocr"].

(** The sum of the counters per method. *)
Definition by_method (st : state) : Z :=
  fold_right Z.add 0%Z (map snd (extraction_methods (stats st))).

(** Some method found text in the PDF. *)
Definition has_text (B : PDFProcessor.Backends) (pdf_path : str) : bool :=
  nonempty (strip isspace (fst (PDFProcessor.extract_text_from_pdf B pdf_path))).

Definition start : state :=
  {| stats := init_pdf_stats; text_files := []; log := [] |}.

End PdfCounters.

(* ------------------------------------------------------------------ *)
(** ** Pages fetched one after the other *)

Module Pages.

Import EnhancedCrawler.

(** [_fetch_url] on each of [urls] in turn: the pages returned, in
    order, and the store afterwards. *)
Fixpoint fetch_all (E : Externals) (cfg : config)
  (world : str -> nat -> attempt_env) (now : Z) (urls : list str)
  (s : store) : list page_data * store :=
  match urls with
  | [] => ([], s)
  | url :: rest =>
      let (r, s) := _fetch_url E cfg (world url) now url s in
      let (ps, s) := fetch_all E cfg world now rest s in
      (match r with Some d => d :: ps | None => ps end, s)
  end.

(** The digest under which the body of a page is recorded. *)
Definition digest (E : Externals) (d : page_data) : str :=
  md5 E (d_html d).

End Pages.

(* ------------------------------------------------------------------ *)
(** ** A proxy file, line by line *)

Module ProxyFile.

Import ProxyManager Rotation.

(** The four fields of a line. *)
Record fields := {
  ip : str;
  port : str;
  username : str;
  password : str }.

(** A field as it is written in a proxy file: no colon, no white
    space. *)
Definition plain_field (f : str) : Prop :=
  ~ In COLON f /\ forallb (fun c => negb (isspace c)) f = true.

Definition plain_fields (x : fields) : Prop :=
  plain_field (ip x) /\ plain_field (port x)
  /\ plain_field (username x) /\ plain_field (password x).

Definition line (x : fields) : str :=
  line_of (ip x) (port x) (username x) (password x).

Definition entry (x : fields) : proxy :=
  entry_of (ip x) (port x) (username x) (password x).

(** The text of a file with one line per proxy, each ended by a
    newline. *)
Definition file_of (xs : list fields) : str :=
  concat (map (fun x => line x ++ [LF]) xs).

End ProxyFile.

(* ------------------------------------------------------------------ *)
(** ** What a download leaves behind *)

Module DownloadLaws.

Import EnhancedCrawler Download.

(** The bytes the chunk loop writes: the chunks read before the end of
    the stream or the first read that raises. *)
Definition written (chunks : list (result str)) : str :=
  snd (fst (read_chunks chunks [] 0)).

(** [url] is recorded under [category]. *)
Definition recorded (category url : str) (files : list (str * set str))
  : Prop :=
  exists urls, In (category, urls) files /\ In url urls.

End DownloadLaws.
(* ================================================================== *)
(** * Properties *)

Unset Implicit Arguments.

(* ------------------------------------------------------------------ *)
(** ** Strings *)

Section StringFacts.

Lemma str_eqb_eq (a b : str) : str_eqb a b = true <-> a = b.
Proof.
  unfold str_eqb. destruct (str_eq_dec a b); split; congruence.
Qed.

Lemma str_eqb_refl (a : str) : str_eqb a a = true.
Proof. now apply str_eqb_eq. Qed.

Lemma str_eqb_neq (a b : str) : str_eqb a b = false <-> a <> b.
Proof.
  unfold str_eqb. destruct (str_eq_dec a b); split; congruence.
Qed.

Lemma str_in_In (s : str) (l : list str) : str_in s l = true <-> In s l.
Proof.
  unfold str_in. rewrite existsb_exists. split.
  - intros (x & Hx & Heq). apply str_eqb_eq in Heq. now subst.
  - intros H. exists s. split; [assumption | apply str_eqb_refl].
Qed.

Lemma nonempty_true (s : str) : nonempty s = true <-> s <> [].
Proof. destruct s; simpl; split; congruence. Qed.

Lemma nonempty_false (s : str) : nonempty s = false <-> s = [].
Proof. destruct s; simpl; split; congruence. Qed.

Lemma lower_length (s : str) : length (lower s) = length s.
Proof. apply length_map. Qed.

Lemma lower_nonempty (s : str) : nonempty (lower s) = nonempty s.
Proof. now destruct s. Qed.

Lemma set_mem_In (x : str) (l : set str) :
  set_mem str_eq_dec x l = true <-> In x l.
Proof.
  split; [apply set_mem_correct1 | apply set_mem_correct2].
Qed.

Lemma set_mem_not_In (x : str) (l : set str) :
  set_mem str_eq_dec x l = false <-> ~ In x l.
Proof.
  split.
  - apply set_mem_complete1.
  - apply set_mem_complete2.
Qed.

Lemma set_add_In (x y : str) (l : set str) :
  In y (set_add str_eq_dec x l) <-> y = x \/ In y l.
Proof. apply set_add_iff. Qed.

Lemma set_add_fresh (x : str) (l : set str) :
  ~ In x l -> set_add str_eq_dec x l = l ++ [x].
Proof.
  induction l as [|a l IH]; simpl; intros H; [reflexivity|].
  destruct (str_eq_dec x a) as [->|Hne].
  - exfalso. apply H. now left.
  - f_equal. apply IH. intros Hin. apply H. now right.
Qed.

End StringFacts.

(* ------------------------------------------------------------------ *)
(** ** PDF extraction: the longest stripped text wins *)

Section LongestWinsFacts.

Import PDFProcessor LongestWins.

Lemma calls_app (a b : list event) : calls (a ++ b) = calls a ++ calls b.
Proof.
  induction a as [|[n|e] a IH]; simpl; [reflexivity | now rewrite IH | exact IH].
Qed.

Lemma logged_app (a b : list event) :
  logged (a ++ b) = logged a ++ logged b.
Proof.
  induction a as [|[n|e] a IH]; simpl; [reflexivity | exact IH | now rewrite IH].
Qed.

Lemma run_snoc (methods : list (str * method)) (m : str * method)
  (pdf_path : str) :
  run (methods ++ [m]) pdf_path = loop_body pdf_path (run methods pdf_path) m.
Proof. unfold run. now rewrite fold_left_app. Qed.

Lemma run_best_so_far (methods : list (str * method)) (pdf_path : str) :
  best_so_far methods pdf_path (run methods pdf_path).
Proof.
  induction methods as [|[name f] methods IH] using rev_ind.
  - split; [intros m []|]. left. now cbn.
  - rewrite run_snoc. destruct IH as [Hle Hbest].
    set (st := run methods pdf_path) in *.
    unfold loop_body, best_so_far.
    destruct (f pdf_path) as [text|e] eqn:Hf.
    + destruct (Nat.ltb_spec (max_length st) (length (strip isspace text)))
        as [Hlt|Hge]; cbn [max_length best_text best_method].
      * split.
        -- intros m Hin. apply in_app_or in Hin as [Hin|[<-|[]]].
           ++ specialize (Hle m Hin). unfold stripped_length in *. lia.
           ++ unfold yield. cbn. rewrite Hf. reflexivity.
        -- right. split; [reflexivity|].
           exists methods, f, []. repeat split; try assumption.
           ++ unfold stripped_length. lia.
           ++ intros m Hin. specialize (Hle m Hin).
              unfold stripped_length. lia.
           ++ intros m [].
      * split.
        -- intros m Hin. apply in_app_or in Hin as [Hin|[<-|[]]].
           ++ now apply Hle.
           ++ unfold yield. cbn. rewrite Hf. exact Hge.
        -- destruct Hbest as [Hzero|[Hmax Hwin]]; [now left|right].
           split; [assumption|].
           destruct Hwin as (pre & g & post & Heq & Hg & Hpos & Hpre & Hpost).
           exists pre, g, (post ++ [(name, f)]).
           repeat split; try assumption.
           ++ rewrite Heq, <- app_assoc. reflexivity.
           ++ intros m Hin. apply in_app_or in Hin as [Hin|[<-|[]]].
              ** now apply Hpost.
              ** unfold yield. cbn. rewrite Hf.
                 unfold stripped_length in *. lia.
    + cbn [max_length best_text best_method]. split.
      * intros m Hin. apply in_app_or in Hin as [Hin|[<-|[]]].
        -- now apply Hle.
        -- unfold yield. cbn. rewrite Hf. lia.
      * destruct Hbest as [Hzero|[Hmax Hwin]]; [now left|right].
        split; [assumption|].
        destruct Hwin as (pre & g & post & Heq & Hg & Hpos & Hpre & Hpost).
        exists pre, g, (post ++ [(name, f)]).
        repeat split; try assumption.
        -- rewrite Heq, <- app_assoc. reflexivity.
        -- intros m Hin. apply in_app_or in Hin as [Hin|[<-|[]]].
           ++ now apply Hpost.
           ++ unfold yield. cbn. rewrite Hf. lia.
Qed.

Lemma loop_body_calls (pdf_path : str) (st : state) (m : str * method) :
  calls (events (loop_body pdf_path st m)) = calls (events st) ++ [fst m].
Proof.
  destruct m as [name f]. unfold loop_body.
  destruct (f pdf_path); [destruct (_ <? _)%nat|]; cbn [events fst];
    now rewrite calls_app.
Qed.

Lemma loop_body_logged (pdf_path : str) (st : state) (m : str * method) :
  logged (events (loop_body pdf_path st m))
  = logged (events st) ++ raised pdf_path m.
Proof.
  destruct m as [name f]. unfold loop_body, raised. cbn [fst snd].
  destruct (f pdf_path); [destruct (_ <? _)%nat|]; cbn [events];
    now rewrite logged_app.
Qed.

Lemma run_events (methods : list (str * method)) (pdf_path : str) :
  calls (events (run methods pdf_path)) = map fst methods
  /\ logged (events (run methods pdf_path))
     = flat_map (raised pdf_path) methods.
Proof.
  induction methods as [|m methods [IHc IHl]] using rev_ind.
  - now cbn.
  - rewrite run_snoc, map_app, flat_map_app, loop_body_calls,
      loop_body_logged, IHc, IHl.
    cbn [map flat_map]. now rewrite app_nil_r.
Qed.

Lemma longest_wins_holds (methods : list (str * method)) (pdf_path : str) :
  longest_wins methods pdf_path.
Proof.
  destruct (run_events methods pdf_path) as [Hc Hl].
  destruct (run_best_so_far methods pdf_path) as [Hle Hbest].
  unfold longest_wins, extract_text_from_pdf_with.
  repeat split; try assumption.
  - intros Hall. destruct Hbest as [(_ & -> & ->)|[Hmax Hwin]]; [reflexivity|].
    destruct Hwin as (pre & g & post & Heq & Hg & Hpos & _).
    assert (Hin : In (best_method (run methods pdf_path), g) methods)
      by (rewrite Heq at 2; apply in_elt).
    apply Hall in Hin. unfold yield in Hin. cbn in Hin. rewrite Hg in Hin. lia.
  - intros (m & Hin & Hpos). apply Hle in Hin.
    destruct Hbest as [(Hz & _)|[Hmax Hwin]]; [lia|].
    eexists _, _. split; [reflexivity | exact Hwin].
Qed.

Example longest_wins_scanned :
  extract_text_from_pdf scanned_pdf (lit "doc.pdf")
  = (lit "  abcdefghij  ", lit "ocr").
Proof. reflexivity. Qed.

Example longest_wins_blank :
  extract_text_from_pdf blank_pdf (lit "doc.pdf") = ([], []).
Proof. reflexivity. Qed.

Example longest_wins_tie :
  extract_text_from_pdf tied_pdf (lit "doc.pdf") = (lit "abc ", lit "pypdf2").
Proof. reflexivity. Qed.

End LongestWinsFacts.

(** C2. [extract_text_from_pdf], in Crawler-v02.py and in Crawler-mlai.py,
    calls its three backends in the declared order whatever they do, logs
    the exception of a backend that raises and goes on with the next one,
    and returns the text and the name of the first backend whose stripped
    text is longer than that of every backend before it and at least as
    long as that of every backend after it; when every backend yields an
    empty stripped text (or raises) it returns two empty strings. *)
Theorem C2_pdf_longest_wins (B : PDFProcessor.Backends) (pdf_path : str) :
  (map fst (PDFProcessor.methods B) = [lit "pymupdf"; lit "pypdf2"; lit "ocr"]
   /\ PDFProcessor.extract_text_from_pdf B pdf_path
      = PDFProcessor.extract_text_from_pdf_with (PDFProcessor.methods B) pdf_path
   /\ LongestWins.longest_wins (PDFProcessor.methods B) pdf_path)
  /\ (map fst (PDFProcessor.methods_mlai B)
      = [lit "pdfminer"; lit "pypdf2"; lit "ocr"]
      /\ PDFProcessor.extract_text_from_pdf_mlai B pdf_path
         = PDFProcessor.extract_text_from_pdf_with
             (PDFProcessor.methods_mlai B) pdf_path
      /\ LongestWins.longest_wins (PDFProcessor.methods_mlai B) pdf_path).
Proof.
  repeat split; try reflexivity; apply longest_wins_holds.
Qed.

(* ------------------------------------------------------------------ *)
(** ** Classification by suffix *)

Section ClassifierFacts.

Import FileHandler Classifier.

Lemma NoDup_app_apart {A : Type} (l l' : list A) (a : A) :
  NoDup (l ++ l') -> In a l -> In a l' -> False.
Proof.
  induction l as [|x l IH]; cbn; intros Hnd Hin Hin'; [contradiction|].
  apply NoDup_cons_iff in Hnd as [Hx Hnd]. destruct Hin as [->|Hin].
  - apply Hx, in_or_app. now right.
  - now apply IH.
Qed.

Lemma category_loop_first (table : list (str * list str)) (ext c : str)
  (exts : list str) :
  NoDup (flat_map snd table) ->
  In (c, exts) table -> In ext exts ->
  category_loop table ext = Some c.
Proof.
  induction table as [|[c0 e0] table IH]; intros Hnd Hin Hext; [contradiction|].
  cbn [flat_map snd] in Hnd. cbn [category_loop].
  destruct (str_in ext e0) eqn:Hmem.
  - apply str_in_In in Hmem. destruct Hin as [Heq|Hin]; [congruence|].
    exfalso. apply NoDup_app_apart with (1 := Hnd) (a := ext); [assumption|].
    apply in_flat_map. now exists (c, exts).
  - destruct Hin as [Heq|Hin].
    + inversion Heq; subst. apply str_in_In in Hext. congruence.
    + apply IH; try assumption. now apply NoDup_app_remove_l in Hnd.
Qed.

Lemma category_loop_in (table : list (str * list str)) (ext c : str) :
  category_loop table ext = Some c ->
  exists exts, In (c, exts) table /\ In ext exts.
Proof.
  induction table as [|[c0 e0] table IH]; cbn [category_loop]; [discriminate|].
  destruct (str_in ext e0) eqn:Hmem.
  - intros [= <-]. exists e0. split; [now left | now apply str_in_In].
  - intros H. destruct (IH H) as (exts & Hin & Hext).
    exists exts. split; [now right | assumption].
Qed.

Lemma category_loop_none (table : list (str * list str)) (ext : str) :
  (forall c exts, In (c, exts) table -> ~ In ext exts) ->
  category_loop table ext = None.
Proof.
  intros Hno. destruct (category_loop table ext) as [c|] eqn:H; [|reflexivity].
  apply category_loop_in in H as (exts & Hin & Hext).
  exfalso. exact (Hno _ _ Hin Hext).
Qed.

Lemma nodup_strs (l : list str) : distinct l = true -> NoDup l.
Proof.
  induction l as [|x l IH]; cbn; intros H; constructor;
    apply andb_prop in H as [Hx Hl].
  - intros Hin. apply str_in_In in Hin. rewrite Hin in Hx. discriminate.
  - now apply IH.
Qed.

Lemma downloadable_extensions_well_formed :
  well_formed downloadable_extensions.
Proof.
  split; [apply nodup_strs; vm_compute; reflexivity|].
  split; [repeat constructor|].
  split; [vm_compute; tauto|].
  vm_compute. intuition discriminate.
Qed.

Lemma downloadable_extensions_crawler4_well_formed :
  well_formed downloadable_extensions_crawler4.
Proof.
  split; [apply nodup_strs; vm_compute; reflexivity|].
  split; [repeat constructor|].
  split; [vm_compute; tauto|].
  vm_compute. intuition discriminate.
Qed.

(** What [category_of_ext] returns for a non-empty suffix: the one
    category listing it, or ['other']. *)
Lemma category_of_ext_some (table : list (str * list str)) (ext : str) :
  well_formed table -> ext <> [] ->
  exists c,
    category_of_ext table ext = Some c
    /\ In c (map fst table)
    /\ nonempty c = true
    /\ (forall c' exts, In (c', exts) table -> In ext exts -> c' = c)
    /\ ((forall c' exts, In (c', exts) table -> ~ In ext exts) ->
        c = lit "other").
Proof.
  intros (Hnd & Hnames & Hother & _) Hext. unfold category_of_ext.
  destruct (category_loop table ext) as [c|] eqn:Hloop.
  - exists c. destruct (category_loop_in _ _ _ Hloop) as (exts & Hin & Hmem).
    assert (Hc : In c (map fst table))
      by (apply in_map_iff; now exists (c, exts)).
    repeat split; try assumption.
    + rewrite Forall_forall in Hnames. now apply Hnames.
    + intros c' exts' Hin' Hmem'.
      pose proof (category_loop_first _ _ _ _ Hnd Hin' Hmem') as H.
      congruence.
    + intros Hno. exfalso. exact (Hno _ _ Hin Hmem).
  - apply nonempty_true in Hext. rewrite Hext.
    exists (lit "other"). repeat split; try assumption.
    intros c' exts Hin Hmem.
    pose proof (category_loop_first _ _ _ _ Hnd Hin Hmem) as H. congruence.
Qed.

Lemma category_of_ext_empty (table : list (str * list str)) :
  well_formed table -> category_of_ext table [] = None.
Proof.
  intros (_ & _ & _ & Hne). unfold category_of_ext.
  destruct (category_loop table []) as [c|] eqn:Hloop; [|reflexivity].
  apply category_loop_in in Hloop as (exts & Hin & Hmem).
  exfalso. apply Hne, in_flat_map. now exists (c, exts).
Qed.

End ClassifierFacts.

(* ------------------------------------------------------------------ *)
(** ** pathlib: name and suffix of a last component *)

Section PathlibFacts.

Lemma is_ch_true (k c : ascii) : is_ch k c = true <-> c = k.
Proof. unfold is_ch. apply Ascii.eqb_eq. Qed.

Lemma is_ch_false (k c : ascii) : is_ch k c = false <-> c <> k.
Proof. unfold is_ch. apply Ascii.eqb_neq. Qed.

Lemma is_ch_refl (k : ascii) : is_ch k k = true.
Proof. now apply is_ch_true. Qed.

Lemma contains_In (k : ascii) (s : str) : contains k s = true <-> In k s.
Proof.
  unfold contains. rewrite existsb_exists. split.
  - intros (c & Hc & Heq). apply is_ch_true in Heq. now subst.
  - intros H. exists k. split; [assumption | apply is_ch_refl].
Qed.

Lemma contains_not_In (k : ascii) (s : str) :
  contains k s = false <-> ~ In k s.
Proof.
  rewrite <- contains_In. destruct (contains k s); split; congruence.
Qed.

Lemma split_without (k : ascii) (h : str) : ~ In k h -> split k h = [h].
Proof.
  induction h as [|c h IH]; cbn; intros Hno; [reflexivity|].
  destruct (is_ch k c) eqn:Hc.
  - apply is_ch_true in Hc. exfalso. apply Hno. now left.
  - rewrite IH; [reflexivity|]. intros Hin. apply Hno. now right.
Qed.

Lemma split_not_nil (k : ascii) (s : str) : split k s <> [].
Proof.
  destruct s as [|c s]; cbn; [discriminate|].
  destruct (is_ch k c); [discriminate|].
  destruct (split k s); discriminate.
Qed.

Lemma split_app_sep (k : ascii) (pre h : str) :
  ~ In k h -> split k (pre ++ k :: h) = split k pre ++ [h].
Proof.
  intros Hno. induction pre as [|c pre IH]; cbn.
  - rewrite is_ch_refl, split_without by assumption. reflexivity.
  - destruct (is_ch k c); rewrite IH; [reflexivity|].
    destruct (split k pre) eqn:Hs; [now apply split_not_nil in Hs|].
    reflexivity.
Qed.

Lemma name_last_component (pre h : str) :
  ~ In SLASH h -> h <> [] -> h <> lit "." ->
  Pathlib.name (pre ++ SLASH :: h) = h.
Proof.
  intros Hno Hne Hdot. unfold Pathlib.name, Pathlib.parts.
  rewrite split_app_sep, filter_app by assumption. cbn [filter].
  apply nonempty_true in Hne. rewrite Hne.
  apply str_eqb_neq in Hdot. rewrite Hdot. cbn [negb andb].
  apply last_last.
Qed.

Lemma rfind_without (k : ascii) (s : str) : ~ In k s -> rfind k s = None.
Proof.
  induction s as [|c s IH]; cbn; intros Hno; [reflexivity|].
  rewrite IH by (intros Hin; apply Hno; now right).
  destruct (is_ch k c) eqn:Hc; [|reflexivity].
  apply is_ch_true in Hc. exfalso. apply Hno. now left.
Qed.

Lemma rfind_last (k : ascii) (a seg : str) :
  ~ In k seg -> rfind k (a ++ k :: seg) = Some (length a).
Proof.
  intros Hno. induction a as [|c a IH]; cbn.
  - now rewrite rfind_without, is_ch_refl.
  - now rewrite IH.
Qed.

Lemma suffix_last_component (pre a seg : str) :
  a <> [] -> seg <> [] ->
  ~ In SLASH a -> ~ In SLASH seg -> ~ In DOT seg ->
  Pathlib.suffix (pre ++ SLASH :: a ++ DOT :: seg) = DOT :: seg.
Proof.
  intros Ha Hseg Hsa Hss Hds. unfold Pathlib.suffix.
  rewrite name_last_component.
  - rewrite rfind_last by assumption.
    assert (0 < length a)%nat by (destruct a; [congruence | cbn; lia]).
    assert (0 < length seg)%nat by (destruct seg; [congruence | cbn; lia]).
    replace (0 <? length a)%nat with true by (symmetry; now apply Nat.ltb_lt).
    replace (length a <? length (a ++ DOT :: seg) - 1)%nat with true.
    + cbn [andb]. rewrite skipn_app, skipn_all, Nat.sub_diag. reflexivity.
    + symmetry. apply Nat.ltb_lt. rewrite length_app. cbn [length]. lia.
  - intros Hin. apply in_app_or in Hin as [Hin|[Heq|Hin]]; try contradiction.
    vm_compute in Heq. discriminate.
  - destruct a; [congruence | discriminate].
  - destruct a as [|c [|c' a]]; [congruence | | discriminate].
    destruct seg; [congruence | discriminate].
Qed.

End PathlibFacts.

Section ClassifierTheorems.

Import FileHandler Classifier.

Lemma route_of_category (E : Externals) (url : str) (c : option str) :
  get_file_category E url = Ok c ->
  match c with
  | Some c => nonempty c = true ->
              EnhancedCrawler.route E url = Ok (EnhancedCrawler.DownloadFile c)
  | None => EnhancedCrawler.route E url = Ok EnhancedCrawler.CrawlPage
  end.
Proof.
  intros H. unfold EnhancedCrawler.route, is_downloadable_file.
  rewrite H. cbn [bind]. destruct c as [c|]; [|reflexivity].
  intros ->. reflexivity.
Qed.

(** C8. In Crawler-v02.py the classification is a function of the suffix
    of the URL's path: a URL whose path has a non-empty suffix gets exactly
    one category of the table -- the only category that lists the
    lower-cased suffix, ['other'] when none does -- and is routed to the
    download; a URL whose path has no suffix gets no category and is
    fetched as a page. *)
Theorem C8_file_category_total (E : Externals) (url : str)
  (p : Urllib.ParseResult) :
  Urllib.urlparse E url [] = Ok p -> classified E url p.
Proof.
  intros Hp. unfold classified. cbv zeta.
  assert (Hcat : get_file_category E url
                 = Ok (category_of_ext downloadable_extensions
                         (lower (Pathlib.suffix (Urllib.path p)))))
    by (unfold get_file_category; now rewrite Hp).
  split; intros Hsuf.
  - destruct (category_of_ext_some downloadable_extensions
                (lower (Pathlib.suffix (Urllib.path p)))
                downloadable_extensions_well_formed)
      as (c & Hc & Hin & Hne & Huniq & Hother).
    { intros H. apply Hsuf. now destruct (Pathlib.suffix (Urllib.path p)). }
    rewrite Hc in Hcat. exists c. split; [assumption|].
    split; [now repeat split|].
    now apply (route_of_category E url (Some c)).
  - rewrite Hsuf in Hcat. cbn [lower map] in Hcat.
    rewrite category_of_ext_empty in Hcat
      by apply downloadable_extensions_well_formed.
    split; [assumption|]. now apply (route_of_category E url None).
Qed.

Lemma C8_file_category_total_witness :
  let url := lit "https://example.com/docs/Report.PDF" in
  let p := {| Urllib.scheme := lit "https"; Urllib.netloc := lit "example.com";
              Urllib.path := lit "/docs/Report.PDF"; Urllib.params := [];
              Urllib.query := []; Urllib.fragment := [] |} in
  Urllib.urlparse sample_externals url [] = Ok p
  /\ classified sample_externals url p.
Proof.
  split; [vm_compute; reflexivity|].
  apply (C8_file_category_total sample_externals). vm_compute. reflexivity.
Defined.

Lemma host_classified_holds (table : list (str * list str))
  (scheme a seg : str) :
  well_formed table ->
  a <> [] -> seg <> [] ->
  ~ In SLASH a -> ~ In SLASH seg -> ~ In DOT seg ->
  host_classified table scheme a seg.
Proof.
  intros Hwf Ha Hseg Hsa Hss Hds. unfold host_classified. cbv zeta.
  assert (Hsuf : Pathlib.suffix (scheme ++ lit "://" ++ a ++ DOT :: seg)
                 = DOT :: seg).
  { replace (scheme ++ lit "://" ++ a ++ DOT :: seg)
      with ((scheme ++ lit ":/") ++ SLASH :: a ++ DOT :: seg)
      by (rewrite <- app_assoc; reflexivity).
    now apply suffix_last_component. }
  split; [assumption|].
  destruct (category_of_ext_some table (lower (DOT :: seg)) Hwf)
    as (c & Hc & Hin & Hne & Huniq & Hother); [discriminate|].
  exists c. unfold UrlClassifier.route, is_downloadable_file_of_url,
    get_file_category_of_url.
  rewrite Hsuf, Hc, Hne. repeat split; assumption.
Qed.

(** C10 (amended). In the variants that take [Path(url).suffix] of the
    whole URL (Code.py, crawler4.py, Crawler5.py), a URL [scheme://a.seg]
    -- no slash after [://], [a] not empty, and [seg], the text after the
    last dot, not empty -- gets the suffix [.seg]; it is classified as a
    downloadable file of the category the variant's table gives to that
    suffix in lower case -- ['other'] when the table does not list it, as
    for [.com] -- and is routed to the download, not fetched as a page.
    The bare domain [https://example.com] is such a URL; what follows the
    host without a slash, a port or a query, is part of [seg]. *)
Theorem C10_bare_domain_is_a_file (table : list (str * list str))
  (scheme a seg : str) :
  In table [downloadable_extensions; downloadable_extensions_crawler4] ->
  a <> [] -> seg <> [] ->
  ~ In SLASH a -> ~ In SLASH seg -> ~ In DOT seg ->
  host_classified table scheme a seg.
Proof.
  intros [<-|[<-|[]]]; apply host_classified_holds.
  - apply downloadable_extensions_well_formed.
  - apply downloadable_extensions_crawler4_well_formed.
Qed.

Lemma C10_bare_domain_is_a_file_witness :
  host_classified downloadable_extensions (lit "https") (lit "example")
    (lit "com")
  /\ get_file_category_of_url downloadable_extensions
       (lit "https://example.com") = Some (lit "other").
Proof.
  assert (H : host_classified downloadable_extensions (lit "https")
                (lit "example") (lit "com")).
  { apply C10_bare_domain_is_a_file.
    - now left.
    - discriminate.
    - discriminate.
    - vm_compute. intuition discriminate.
    - vm_compute. intuition discriminate.
    - vm_compute. intuition discriminate. }
  split; [exact H | vm_compute; reflexivity].
Defined.

(** C10, as stated, fails: the host's last segment may be a suffix of the
    table ([.zip] is an archive in every variant), and a host that ends
    with a dot has no suffix at all and is fetched as a page. *)
Lemma C10_counterexample :
  (get_file_category_of_url downloadable_extensions
     (lit "https://example.zip") = Some (lit "archive")
   /\ get_file_category_of_url downloadable_extensions_crawler4
        (lit "https://example.zip") = Some (lit "archive")
   /\ lit "archive" <> lit "other")
  /\ (Pathlib.suffix (lit "https://example.com.") = []
      /\ UrlClassifier.route downloadable_extensions
           (lit "https://example.com.") = EnhancedCrawler.CrawlPage
      /\ UrlClassifier.route downloadable_extensions_crawler4
           (lit "https://example.com.") = EnhancedCrawler.CrawlPage).
Proof.
  repeat split; try (vm_compute; reflexivity). discriminate.
Qed.

End ClassifierTheorems.

(* ------------------------------------------------------------------ *)
(** ** Proxy rotation *)

Section ProxyManagerFacts.

Import ProxyManager ProxyFacts.

Lemma insert_sorted_length (p : proxy) (l : list proxy) :
  length (insert_sorted p l) = S (length l).
Proof.
  induction l as [|q l IH]; cbn; [reflexivity|].
  destruct (speed_le p q); cbn; [reflexivity | now rewrite IH].
Qed.

Lemma sorted_by_speed_length (l : list proxy) :
  length (sorted_by_speed l) = length l.
Proof.
  induction l as [|p l IH]; [reflexivity|].
  change (sorted_by_speed (p :: l)) with (insert_sorted p (sorted_by_speed l)).
  now rewrite insert_sorted_length, IH.
Qed.

(** The list is never empty once [_load_proxies] has run. *)
Lemma load_proxies_nonempty (file : proxy_file) (current : list proxy) :
  _load_proxies file current <> [].
Proof.
  destruct file as [| e | text]; cbn.
  - destruct current; discriminate.
  - discriminate.
  - destruct (filter_map parse_line (splitlines text)); discriminate.
Qed.

Lemma init_nonempty (file : proxy_file) (t0 : Z) :
  proxies (init file t0) <> [].
Proof. apply load_proxies_nonempty. Qed.

(** [_update_proxies] never leaves it empty. *)
Lemma update_proxies_nonempty (pr : probe) (t1 : Z) (pm : t) :
  proxies (_update_proxies pr t1 pm) <> [].
Proof.
  unfold _update_proxies. cbn [proxies].
  destruct (_test_all_proxies pr (proxies pm)) as [|p l] eqn:Hw;
    [discriminate|].
  intros H. apply (f_equal (@length proxy)) in H.
  rewrite sorted_by_speed_length in H. discriminate.
Qed.

(** Nor does [get_proxy]. *)
Lemma get_proxy_nonempty (e : env) (pm : t) :
  proxies pm <> [] -> proxies (snd (get_proxy e pm)) <> [].
Proof.
  intros Hne. unfold get_proxy.
  set (pm1 := if (update_interval <? now e - last_update (bump_total_used pm))%Z
              then _update_proxies (probes e) (now_after e) (bump_total_used pm)
              else bump_total_used pm).
  assert (H1 : proxies pm1 <> []).
  { unfold pm1. destruct (_ <? _)%Z; [apply update_proxies_nonempty | exact Hne]. }
  destruct (proxies pm1) as [|p l] eqn:Hp; [congruence|].
  destruct (nth_error (p :: l) (current_index pm1)); cbn [snd proxies];
    rewrite ?Hp; discriminate.
Qed.

(** Without a sweep, an index within the list stays within it. *)
Lemma get_proxy_in_range (e : env) (pm : t) :
  (now e - last_update pm <= update_interval)%Z ->
  (current_index pm < length (proxies pm))%nat ->
  exists p, fst (get_proxy e pm) = Ok p
            /\ (current_index (snd (get_proxy e pm))
                < length (proxies (snd (get_proxy e pm))))%nat.
Proof.
  intros Hnow Hidx. unfold get_proxy, bump_total_used.
  cbn [last_update proxies current_index stats].
  replace (update_interval <? now e - last_update pm)%Z with false
    by (symmetry; apply Z.ltb_ge; assumption).
  cbn [last_update proxies current_index stats].
  destruct (proxies pm) as [|p l] eqn:Hp; [cbn in Hidx; lia|].
  destruct (nth_error (p :: l) (current_index pm)) as [q|] eqn:Hn.
  - exists q. split; [reflexivity|]. cbn [snd current_index proxies].
    apply Nat.mod_upper_bound. discriminate.
  - apply nth_error_None in Hn. lia.
Qed.

(** C9. The proxy list is never empty -- not after [_load_proxies],
    whatever the file, nor after [get_proxy], sweep or no sweep -- yet
    [get_proxy] does not always return an entry: a sweep that shrinks the
    list leaves [current_index] where it was.  From a file of three
    proxies, two calls put the index at 2; an hour later no proxy answers
    the probe, the list becomes the single direct entry, and
    [self.proxies[self.current_index]] raises [IndexError] -- on that call
    and on every later one. *)
Theorem C9_get_proxy_raises_after_shrink :
  (forall file t0, proxies (init file t0) <> [])
  /\ (forall e pm, proxies pm <> [] -> proxies (snd (get_proxy e pm)) <> [])
  /\ (let pm0 := init (Content three_lines) 0 in
      let pm1 := snd (get_proxy early pm0) in
      let pm2 := snd (get_proxy early pm1) in
      let pm3 := snd (get_proxy late_all_down pm2) in
      length (proxies pm0) = 3%nat
      /\ (exists p1 p2, fst (get_proxy early pm0) = Ok p1
                        /\ fst (get_proxy early pm1) = Ok p2)
      /\ current_index pm2 = 2%nat
      /\ proxies pm3 = [direct]
      /\ fst (get_proxy late_all_down pm2) = Raise IndexError
      /\ fst (get_proxy late_all_down pm3) = Raise IndexError
      /\ fst (get_proxy early pm3) = Raise IndexError).
Proof.
  split; [apply init_nonempty|]. split; [apply get_proxy_nonempty|].
  cbv zeta. split; [vm_compute; reflexivity|].
  split; [eexists _, _; split; vm_compute; reflexivity|].
  repeat split; vm_compute; reflexivity.
Qed.

End ProxyManagerFacts.

(* ------------------------------------------------------------------ *)
(** ** Retries *)

Section RetryFacts.

Import EnhancedCrawler Retry.

(** An attempt touches the proxy manager only. *)
Lemma try_request_store (e : attempt_env) (url : str) (s : store) :
  exists pm, snd (try_request e url s) = with_proxy_manager pm s.
Proof.
  unfold try_request.
  destruct (ProxyManager.get_proxy (proxy_env e) (proxy_manager s))
    as [[proxy|ex] pm]; exists pm; [|reflexivity].
  now destruct (send e _).
Qed.

(** An answer that gets through has a status below 400. *)
Lemma try_request_ok (e : attempt_env) (url : str) (s : store)
  (r : response) :
  fst (try_request e url s) = Ok r -> (status r < 400)%Z.
Proof.
  unfold try_request.
  destruct (ProxyManager.get_proxy (proxy_env e) (proxy_manager s))
    as [[proxy|ex] pm]; [|discriminate].
  destruct (send e _) as [r'|ex]; [|discriminate].
  cbn [fst]. unfold raise_for_status.
  destruct (Z.leb_spec 400 (status r')); [discriminate|].
  now intros [= <-].
Qed.

Lemma failed_attempts_cons (url : str) (from : nat) (ex : exn)
  (exs : list exn) :
  failed_attempts url from (ex :: exs)
  = [Attempt url from; LogError url (from + 1) ex; Sleep (Z.of_nat from + 1)]
    ++ failed_attempts url (S from) exs.
Proof. reflexivity. Qed.

Lemma handle_request_from_policy (cfg : config) (envs : nat -> attempt_env)
  (url : str) (remaining : nat) :
  forall (attempt : nat) (s : store),
    remaining = 0%nat
    \/ Z.of_nat (attempt + remaining) = max_retries cfg ->
    let result := _handle_request_from cfg envs url remaining attempt s in
    let s' := snd result in
    exists exs : list exn,
      (length exs <= remaining)%nat
      /\ content_hashes s' = content_hashes s
      /\ files s' = files s
      /\ pages_processed s' = pages_processed s
      /\ match fst result with
         | Some r =>
             (length exs < remaining)%nat
             /\ (status r < 400)%Z
             /\ effects s' = effects s ++ failed_attempts url attempt exs
                             ++ [Attempt url (attempt + length exs)]
             /\ failed_urls s' = failed_urls s
             /\ errors s' = errors s
         | None =>
             length exs = remaining
             /\ effects s' = effects s ++ failed_attempts url attempt exs
             /\ ((1 <= remaining)%nat ->
                 failed_urls s' = set_add str_eq_dec url (failed_urls s)
                 /\ errors s' = (errors s + 1)%Z)
             /\ (remaining = 0%nat -> s' = s)
         end.
Proof.
  induction remaining as [|n IH]; intros attempt s Hn; cbv zeta.
  - exists []. cbn. rewrite app_nil_r. repeat split; try reflexivity; lia.
  - cbn [_handle_request_from].
    destruct (try_request_store (envs attempt) url
                (emit (Attempt url attempt) s)) as [pm Hpm].
    pose proof (try_request_ok (envs attempt) url
                  (emit (Attempt url attempt) s)) as Hok.
    destruct (try_request (envs attempt) url (emit (Attempt url attempt) s))
      as [[r|ex] s1]; cbn [fst snd] in *; subst s1.
    + exists []. cbn [fst snd length]. rewrite Nat.add_0_r.
      repeat split; try reflexivity; try lia. now apply Hok.
    + match goal with
      | |- context [_handle_request_from cfg envs url n (S attempt) ?x] =>
          remember x as s5 eqn:Hs5
      end.
      assert (H5 : content_hashes s5 = content_hashes s
                   /\ files s5 = files s
                   /\ pages_processed s5 = pages_processed s
                   /\ effects s5 = effects s
                        ++ [Attempt url attempt;
                            LogError url (attempt + 1) ex;
                            Sleep (Z.of_nat attempt + 1)]
                   /\ (Z.of_nat attempt = max_retries cfg - 1 ->
                       failed_urls s5
                       = set_add str_eq_dec url (failed_urls s)
                       /\ errors s5 = errors s + 1)%Z
                   /\ (Z.of_nat attempt <> max_retries cfg - 1 ->
                       failed_urls s5 = failed_urls s
                       /\ errors s5 = errors s)%Z).
      { subst s5.
        destruct (Z.eqb_spec (Z.of_nat attempt) (max_retries cfg - 1));
          cbn; rewrite <- !app_assoc; cbn; repeat split; tauto. }
      clear Hs5.
      destruct H5 as (H5c & H5f & H5p & H5e & H5mark & H5same).
      specialize (IH (S attempt) s5). cbv zeta in IH.
      destruct IH as (exs & Hlen & Hch & Hfiles & Hpp & Hres); [lia|].
      exists (ex :: exs). cbn [length].
      split; [lia|]. split; [congruence|]. split; [congruence|].
      split; [congruence|].
      rewrite failed_attempts_cons.
      destruct (fst (_handle_request_from cfg envs url n (S attempt) s5))
        as [r|].
      * destruct Hres as (Hlt & Hst & Heff & Hfu & Her).
        destruct H5same as [H5fu H5er]; [lia|].
        repeat split; try lia; try assumption; try congruence.
        rewrite Heff, H5e, <- !app_assoc. cbn.
        now replace (attempt + S (length exs))%nat
          with (S (attempt + length exs)) by lia.
      * destruct Hres as (Hl & Heff & Hmark & Hsame).
        split; [lia|].
        split; [rewrite Heff, H5e, <- !app_assoc; reflexivity|].
        split; [|discriminate].
        intros _. destruct n as [|n].
        -- rewrite (Hsame eq_refl). apply H5mark. lia.
        -- destruct Hmark as [Hfu Her]; [lia|].
           destruct H5same as [H5fu H5er]; [lia|].
           split; congruence.
Qed.

Lemma handle_request_policy (cfg : config) (envs : nat -> attempt_env)
  (url : str) (s : store) : policy cfg envs url s.
Proof.
  unfold policy, _handle_request. cbv zeta.
  destruct (handle_request_from_policy cfg envs url
              (Z.to_nat (max_retries cfg)) 0 s)
    as (exs & Hlen & Hch & Hf & Hp & Hres).
  { destruct (Z.le_gt_cases (max_retries cfg) 0); [left|right]; lia. }
  exists exs. repeat split; try assumption.
  destruct (fst (_handle_request_from cfg envs url _ 0 s)) as [r|].
  - exact Hres.
  - destruct Hres as (Hl & He & Hmark & Hsame).
    repeat split; try assumption.
    + apply Hmark. lia.
    + apply Hmark. lia.
    + intros Hle. apply Hsame. lia.
Qed.

Lemma attempts_in_app (a b : list effect) :
  attempts_in (a ++ b) = (attempts_in a + attempts_in b)%nat.
Proof.
  induction a as [|x a IH]; [reflexivity|].
  destruct x; cbn; rewrite IH; reflexivity.
Qed.

Lemma try_request_404 (envs : nat -> attempt_env) (i : nat) (url : str)
  (s : store) :
  always_404 envs -> exists ex, fst (try_request (envs i) url s) = Raise ex.
Proof.
  intros H404. unfold try_request.
  destruct (ProxyManager.get_proxy (proxy_env (envs i)) (proxy_manager s))
    as [[proxy|ex] pm]; [|now exists ex].
  destruct (H404 i (if startswith (lit "http://") url
                    then ProxyManager.http proxy
                    else ProxyManager.https proxy)) as (r & -> & Hst).
  cbn [fst]. unfold raise_for_status. rewrite Hst. cbn. now eexists.
Qed.

Lemma handle_request_from_404 (cfg : config) (envs : nat -> attempt_env)
  (url : str) (remaining : nat) :
  always_404 envs ->
  forall (attempt : nat) (s : store),
    fst (_handle_request_from cfg envs url remaining attempt s) = None
    /\ attempts_in
         (effects (snd (_handle_request_from cfg envs url remaining attempt s)))
       = (attempts_in (effects s) + remaining)%nat.
Proof.
  intros H404. induction remaining as [|n IH]; intros attempt s.
  - cbn. split; [reflexivity | lia].
  - cbn [_handle_request_from].
    destruct (try_request_404 envs attempt url
                (emit (Attempt url attempt) s) H404) as (ex & Hex).
    destruct (try_request_store (envs attempt) url
                (emit (Attempt url attempt) s)) as [pm Hpm].
    destruct (try_request (envs attempt) url (emit (Attempt url attempt) s))
      as [[r|ex'] s1]; cbn [fst snd] in *; [discriminate|]. subst s1.
    set (s5 := emit (Sleep _) _).
    destruct (IH (S attempt) s5) as [-> ->]. split; [reflexivity|].
    assert (attempts_in (effects s5) = S (attempts_in (effects s))).
    { unfold s5. destruct (_ =? _)%Z; cbn; rewrite !attempts_in_app; cbn; lia. }
    lia.
Qed.

(** C3 (amended). For every URL, [_handle_request] makes at most
    [max_retries] attempts, sleeping [request_delay * k] after the [k]-th
    attempt when it failed; an attempt is retried whenever it raises --
    transport error, timeout, or any status of 400 and above, 404
    included: when every answer is a 404, all [max_retries] attempts are
    made.  When all attempts fail (there being at least one) the URL is
    added to the failed set, the error counter goes up by one and the
    caller receives nothing; a returned response has a status below 400
    and leaves the failed set and the counter untouched. *)
Theorem C3_retry_policy (cfg : config) (envs : nat -> attempt_env)
  (url : str) (s : store) :
  policy cfg envs url s
  /\ (always_404 envs -> retried_404 cfg envs url s).
Proof.
  split; [apply handle_request_policy|].
  intros H404. unfold retried_404, _handle_request. cbv zeta.
  apply handle_request_from_404. exact H404.
Qed.

Lemma C3_retry_policy_witness :
  always_404 (fun _ => answering (Responds (plain_response 404)))
  /\ retried_404 sample_config
       (fun _ => answering (Responds (plain_response 404)))
       (lit "https://example.com/missing") sample_store.
Proof.
  assert (H : always_404 (fun _ => answering (Responds (plain_response 404)))).
  { intros i proxy. exists (plain_response 404). split; reflexivity. }
  split; [exact H|].
  apply (C3_retry_policy sample_config
           (fun _ => answering (Responds (plain_response 404)))
           (lit "https://example.com/missing") sample_store).
  exact H.
Defined.

(** C3, as stated, fails on the 404: it is not terminal.  With three
    attempts allowed, a first answer of 404 is followed by a sleep and a
    second attempt, whose answer (200 here) is what the caller gets; and
    a URL answering 404 every time is requested three times. *)
Lemma C3_counterexample :
  (let result := _handle_request sample_config first_404_then_200
                   (lit "https://example.com/missing") sample_store in
   fst result = Some (plain_response 200)
   /\ effects (snd result)
      = [Attempt (lit "https://example.com/missing") 0;
         LogError (lit "https://example.com/missing") 1 (HTTPStatusError 404);
         Sleep 1;
         Attempt (lit "https://example.com/missing") 1])
  /\ attempts_in
       (effects
          (snd (_handle_request sample_config
                  (fun _ => answering (Responds (plain_response 404)))
                  (lit "https://example.com/missing") sample_store)))
     = 3%nat.
Proof.
  split; [split|]; vm_compute; reflexivity.
Qed.

End RetryFacts.

(* ------------------------------------------------------------------ *)
(** ** Duplicate bodies *)

Section DedupFacts.

Import EnhancedCrawler Dedup.

Variable E : Externals.

(** [_handle_request] leaves the hash set, the files and the page counter
    alone. *)
Lemma handle_request_keeps (cfg : config) (envs : nat -> attempt_env)
  (url : str) (s : store) :
  content_hashes (snd (_handle_request cfg envs url s)) = content_hashes s
  /\ files (snd (_handle_request cfg envs url s)) = files s
  /\ pages_processed (snd (_handle_request cfg envs url s))
     = pages_processed s.
Proof.
  destruct (handle_request_policy cfg envs url s)
    as (exs & _ & Hc & Hf & Hp & _).
  now repeat split.
Qed.

Lemma fetch_url_duplicate (cfg : config) (envs : nat -> attempt_env)
  (now : Z) (url : str) (s : store) (response : EnhancedCrawler.response)
  (content : str) :
  fetched_html cfg envs url s response content ->
  In (md5 E content) (content_hashes s) ->
  fst (_fetch_url E cfg envs now url s) = None
  /\ files (snd (_fetch_url E cfg envs now url s)) = files s
  /\ content_hashes (snd (_fetch_url E cfg envs now url s))
     = content_hashes s
  /\ pages_processed (snd (_fetch_url E cfg envs now url s))
     = pages_processed s.
Proof.
  intros (Hreq & Hhtml & Htext) Hseen. unfold _fetch_url.
  destruct (handle_request_keeps cfg envs url s) as (Hc & Hf & Hp).
  destruct (_handle_request cfg envs url s) as [[r|] s1];
    cbn [fst snd] in *; [|discriminate].
  injection Hreq as ->. rewrite Hhtml, Htext. cbn [negb].
  rewrite <- Hc in Hseen. apply set_mem_In in Hseen. rewrite Hseen.
  cbn [fst snd files content_hashes pages_processed emit].
  now repeat split.
Qed.

Lemma fetch_url_first (cfg : config) (envs : nat -> attempt_env)
  (now : Z) (url : str) (s : store) (response : EnhancedCrawler.response)
  (content : str) :
  fetched_html cfg envs url s response content ->
  In (md5 E content)
     (content_hashes (snd (_fetch_url E cfg envs now url s))).
Proof.
  intros (Hreq & Hhtml & Htext). unfold _fetch_url.
  destruct (handle_request_keeps cfg envs url s) as (Hc & Hf & Hp).
  destruct (_handle_request cfg envs url s) as [[r|] s1];
    cbn [fst snd] in *; [|discriminate].
  injection Hreq as ->. rewrite Hhtml, Htext. cbn [negb].
  destruct (set_mem str_eq_dec (md5 E content) (content_hashes s1)) eqn:Hm.
  - cbn. now apply set_mem_In.
  - assert (In (md5 E content)
              (content_hashes (add_content_hash (md5 E content) s1)))
      by (cbn; apply set_add_In; now left).
    destruct (soup_title E content), (soup_stripped_strings E content);
      cbn; assumption.
Qed.

Lemma duplicate_discarded (cfg : config) (envs : nat -> attempt_env)
  (now : Z) (url : str) (c : crawler)
  (response : EnhancedCrawler.response) (content : str) :
  fetched_html cfg envs url (shared c) response content ->
  In (md5 E content) (content_hashes (shared c)) ->
  discarded E cfg envs now url c.
Proof.
  intros Hf Hseen.
  destruct (fetch_url_duplicate cfg envs now url (shared c) response content
              Hf Hseen) as (Hnone & Hfiles & Hch & Hpp).
  unfold discarded. cbv zeta. rewrite Hnone.
  repeat split; assumption.
Qed.

Lemma duplicate_turn (cfg : config) (download : downloader)
  (world : str -> nat -> attempt_env) (now : Z) (url : str) (c : crawler)
  (response : EnhancedCrawler.response) (content : str) :
  queue c = [url] ->
  (Z.of_nat (length (seen_urls c)) < max_pages cfg)%Z ->
  (1 <= concurrent_requests cfg)%Z ->
  route E url = Ok CrawlPage ->
  fetched_html cfg (world url) url (shared c) response content ->
  In (md5 E content) (content_hashes (shared c)) ->
  turn_adds_nothing E cfg download world now url c.
Proof.
  intros Hq Hcap Hwidth Hroute Hf Hseen.
  destruct (fetch_url_duplicate cfg (world url) now url (shared c) response
              content Hf Hseen) as (Hnone & Hfiles & Hch & Hpp).
  unfold turn_adds_nothing, crawl_step. rewrite Hq. cbn [length Nat.eqb negb].
  replace (Z.of_nat (length (seen_urls c)) <? max_pages cfg)%Z with true
    by (symmetry; now apply Z.ltb_lt).
  cbn [andb].
  replace (Z.to_nat (Z.min (concurrent_requests cfg) (Z.of_nat 1)))
    with 1%nat by lia.
  cbn [firstn skipn process_batch_seq]. unfold _process_url. rewrite Hroute.
  destruct (_fetch_url E cfg (world url) now url (shared c)) as [data s1].
  cbn [fst snd] in *. subst data.
  cbn [combine handle_results handle_result].
  eexists. split; [reflexivity|]. cbn. now repeat split.
Qed.

(** A response that [_handle_request] returns is one the network gave. *)
Lemma try_request_answer (e : attempt_env) (url : str) (s : store)
  (r : response) :
  fst (try_request e url s) = Ok r -> exists proxy, send e proxy = Responds r.
Proof.
  unfold try_request.
  destruct (ProxyManager.get_proxy (proxy_env e) (proxy_manager s))
    as [[proxy|ex] pm]; [|discriminate].
  set (chosen := if startswith (lit "http://") url
                 then ProxyManager.http proxy else ProxyManager.https proxy).
  destruct (send e chosen) as [r'|ex] eqn:Hsend; [|discriminate].
  cbn [fst]. unfold raise_for_status.
  destruct (400 <=? status r')%Z; [discriminate|].
  intros [= <-]. now exists chosen.
Qed.

Lemma handle_request_from_answer (cfg : config) (envs : nat -> attempt_env)
  (url : str) (remaining : nat) :
  forall attempt s r,
    fst (_handle_request_from cfg envs url remaining attempt s) = Some r ->
    exists i proxy, send (envs i) proxy = Responds r.
Proof.
  induction remaining as [|remaining IH]; intros attempt s r;
    cbn [_handle_request_from]; [discriminate|].
  pose proof (try_request_answer (envs attempt) url
                (emit (Attempt url attempt) s)) as Ht.
  destruct (try_request (envs attempt) url (emit (Attempt url attempt) s))
    as [[r'|ex] s1]; cbn [fst] in *.
  - intros [= <-]. destruct (Ht r' eq_refl) as [proxy Hp].
    now exists attempt, proxy.
  - apply IH.
Qed.

(** Read after its release, no page is recorded. *)
Lemma fetch_url_never_recorded (cfg : config) (envs : nat -> attempt_env)
  (now : Z) (url : str) (s : store) :
  released_world envs -> never_recorded E cfg envs now url s.
Proof.
  intros Hworld. unfold never_recorded. cbv zeta. unfold _fetch_url.
  destruct (handle_request_keeps cfg envs url s) as (Hc & Hf & Hp).
  pose proof (handle_request_from_answer cfg envs url
                (Z.to_nat (max_retries cfg)) 0 s) as Ha.
  fold (_handle_request cfg envs url s) in Ha.
  destruct (_handle_request cfg envs url s) as [[r|] s1];
    cbn [fst snd] in *; [|now repeat split].
  destruct (Ha r eq_refl) as (i & proxy & Hsend).
  destruct (Hworld i proxy r Hsend) as [ex Hex]. rewrite Hex.
  destruct (negb _); cbn; now repeat split.
Qed.

End DedupFacts.

(** C4. The dedup of Crawler-v02.py is written -- the digest of the body
    is computed, looked up and added -- but never runs:
    [_handle_request] hands [_fetch_url] a response that has left its
    [async with] blocks, so reading the body raises.  For every page of
    the running program, then, [_fetch_url] returns nothing and records no
    digest: the first page with a given body does not put its digest in
    the set, and a second page with that body is not found to be a
    duplicate.  On a site whose every URL answers 200 with the same HTML
    page, the fetch of the first page leaves the hash set empty and one
    error counted, and the crawl ends with the seed alone, no page
    processed and no digest recorded. *)
Theorem C4_body_is_read_after_release :
  (forall E cfg envs now url s,
     Dedup.released_world envs ->
     Dedup.never_recorded E cfg envs now url s)
  /\ Dedup.released_world (Dedup.released_site (lit "https://example.com"))
  /\ (let fetched :=
        EnhancedCrawler._fetch_url sample_externals Retry.sample_config
          (Dedup.released_site (lit "https://example.com")) 0
          (lit "https://example.com") Retry.sample_store in
      fst fetched = None
      /\ EnhancedCrawler.content_hashes (snd fetched) = []
      /\ EnhancedCrawler.errors (snd fetched) = 1%Z
      /\ EnhancedCrawler.files (snd fetched) = []
      /\ EnhancedCrawler.effects (snd fetched)
         = [EnhancedCrawler.Attempt (lit "https://example.com") 0;
            EnhancedCrawler.LogError (lit "https://example.com") 0
              ClientError])
  /\ (exists c,
        Dedup.released_crawl 2 = Some (EnhancedCrawler.Finished c)
        /\ EnhancedCrawler.dispatched c = [lit "https://example.com"]
        /\ EnhancedCrawler.seen_urls c = [lit "https://example.com"]
        /\ EnhancedCrawler.content_hashes (EnhancedCrawler.shared c) = []
        /\ EnhancedCrawler.pages_processed (EnhancedCrawler.shared c) = 0%Z
        /\ EnhancedCrawler.errors (EnhancedCrawler.shared c) = 1%Z).
Proof.
  split; [exact fetch_url_never_recorded|].
  split.
  { intros i proxy r [= <-]. exists ClientError. reflexivity. }
  split.
  { cbv zeta. repeat split; vm_compute; reflexivity. }
  eexists. split; [vm_compute; reflexivity|].
  repeat split; reflexivity.
Qed.

(* ------------------------------------------------------------------ *)
(** ** At most one dispatch per URL *)

Section AtMostOnceFacts.

Import EnhancedCrawler AtMostOnce.

Variable E : Externals.

Lemma enqueue_link_law (q : list str) (seen : set str) (link : str) :
  enqueue_law q seen link.
Proof.
  unfold enqueue_law, enqueue_link. split; intros H.
  - apply set_mem_In in H. now rewrite H.
  - pose proof H as Hm. apply set_mem_not_In in Hm. rewrite Hm.
    now rewrite set_add_fresh.
Qed.

Lemma enqueue_link_once (d q : list str) (seen : set str) (link : str) :
  once d q seen ->
  once d (fst (enqueue_link (q, seen) link))
         (snd (enqueue_link (q, seen) link)).
Proof.
  intros (Hnd & Hns & Heq).
  destruct (enqueue_link_law q seen link) as [Hin Hout].
  destruct (in_dec str_eq_dec link seen) as [Hl|Hl].
  - rewrite (Hin Hl). split; [assumption | split; assumption].
  - rewrite (Hout Hl). cbn [fst snd].
    assert (Hfresh : ~ In link (d ++ q)) by (intros H; now apply Heq in H).
    repeat split.
    + rewrite app_assoc. apply NoDup_app; [assumption | | ].
      * repeat constructor. intros [].
      * intros a Ha [<-|[]]. contradiction.
    + apply NoDup_app; [assumption | | ].
      * repeat constructor. intros [].
      * intros a Ha [<-|[]]. contradiction.
    + intros Hu. rewrite app_assoc. apply in_or_app.
      apply in_app_or in Hu as [Hu|Hu]; [left; now apply Heq | now right].
    + intros Hu. rewrite app_assoc in Hu. apply in_or_app.
      apply in_app_or in Hu as [Hu|Hu]; [left; now apply Heq | now right].
Qed.

Lemma enqueue_links_once (new_links : list str) :
  forall (d q : list str) (seen : set str),
    once d q seen ->
    once d (fst (enqueue_links new_links (q, seen)))
           (snd (enqueue_links new_links (q, seen))).
Proof.
  induction new_links as [|link rest IH]; intros d q seen H; [exact H|].
  unfold enqueue_links. cbn [fold_left].
  pose proof (enqueue_link_once d q seen link H) as H1.
  destruct (enqueue_link (q, seen) link) as [q1 seen1].
  now apply IH.
Qed.

Lemma handle_result_once (cfg : config) (c : crawler)
  (r : str * option page_data) :
  claimed_once c -> claimed_once (fst (handle_result E cfg c r)).
Proof.
  intros H. destruct r as [url [d|]]; [|exact H].
  unfold handle_result.
  destruct (_extract_links E cfg (d_html d) url) as [new_links|ex];
    [|exact H].
  pose proof (enqueue_links_once new_links (dispatched c) (queue c)
                (seen_urls c) H) as H1.
  now destruct (enqueue_links new_links (queue c, seen_urls c)).
Qed.

Lemma handle_results_once (cfg : config)
  (rs : list (str * option page_data)) :
  forall c, claimed_once c -> claimed_once (fst (handle_results E cfg c rs)).
Proof.
  induction rs as [|r rs IH]; intros c H; [exact H|].
  cbn [handle_results].
  pose proof (handle_result_once cfg c r H) as H1.
  destruct (handle_result E cfg c r) as [c1 [ex|]]; [exact H1|].
  now apply IH.
Qed.

(** Every turn of the loop, however it ends, keeps the invariant. *)
Lemma crawl_step_once (cfg : config) (process_batch : batch_processor)
  (c : crawler) :
  claimed_once c ->
  claimed_once (outcome_state (crawl_step E cfg process_batch c)).
Proof.
  intros H. unfold crawl_step.
  destruct (_ && _); [|exact H].
  set (k := Z.to_nat _).
  destruct (process_batch (firstn k (queue c)) (shared c)) as [results s].
  assert (H0 : claimed_once
                 {| queue := skipn k (queue c); seen_urls := seen_urls c;
                    shared := s;
                    dispatched := dispatched c ++ firstn k (queue c) |}).
  { unfold claimed_once in *. cbn [queue seen_urls dispatched].
    now rewrite <- app_assoc, firstn_skipn. }
  destruct results as [results|ex]; [|exact H0].
  pose proof (handle_results_once cfg
                (combine (firstn k (queue c)) results) _ H0) as H1.
  destruct (handle_results E cfg _ _) as [c1 [ex|]]; exact H1.
Qed.

Lemma crawl_init_once (cfg : config) (s : store) :
  claimed_once (crawl_init cfg s).
Proof.
  unfold claimed_once, crawl_init. cbn.
  repeat split; try (repeat constructor; intros []); tauto.
Qed.

Lemma after_turns_once (cfg : config) (process_batch : batch_processor)
  (n : nat) :
  forall c c', claimed_once c ->
               after_turns E cfg process_batch n c = Some c' ->
               claimed_once c'.
Proof.
  induction n as [|n IH]; intros c c' H; cbn [after_turns].
  - now intros [= <-].
  - pose proof (crawl_step_once cfg process_batch c H) as H1.
    destruct (crawl_step E cfg process_batch c); try discriminate.
    now apply IH.
Qed.

Lemma crawl_loop_once (cfg : config) (process_batch : batch_processor)
  (fuel : nat) :
  forall c o, claimed_once c ->
              crawl_loop E cfg process_batch fuel c = Some o ->
              claimed_once (outcome_state o).
Proof.
  induction fuel as [|fuel IH]; intros c o H; cbn [crawl_loop];
    [discriminate|].
  pose proof (crawl_step_once cfg process_batch c H) as H1.
  destruct (crawl_step E cfg process_batch c) as [c1|c1|ex c1] eqn:Hs.
  - now apply IH.
  - now intros [= <-].
  - now intros [= <-].
Qed.

Lemma run_section_agree (s : Crawler.state) (x : Crawler.section) :
  claims_agree s -> claims_agree (Crawler.run_section E s x).
Proof.
  intros (Hnd & Hsub). destruct x as [url|link]; cbn [Crawler.run_section].
  - unfold Crawler.claim.
    destruct (Crawler.normalize_url E url) as [n|ex]; [|now split].
    unfold Crawler.is_visited.
    destruct (set_mem str_eq_dec n (Crawler.db s)) eqn:Hm; [now split|].
    apply set_mem_not_In in Hm. cbn [snd]. split; cbn.
    + apply NoDup_app; [assumption | repeat constructor; intros [] |].
      intros a Ha [<-|[]]. apply Hm. now apply Hsub.
    + intros u Hu. apply set_add_In.
      apply in_app_or in Hu as [Hu|[<-|[]]]; [right; now apply Hsub | now left].
  - unfold Crawler.offer.
    destruct (Crawler.normalize_url E link) as [n|ex]; [|now split].
    destruct (Crawler.is_visited (Crawler.db s) n); now split.
Qed.

Lemma run_agree (xs : list Crawler.section) :
  forall s, claims_agree s -> claims_agree (Crawler.run E xs s).
Proof.
  induction xs as [|x xs IH]; intros s H; [exact H|].
  unfold Crawler.run. cbn [fold_left]. apply IH.
  now apply run_section_agree.
Qed.

(** What has been let through stays so. *)
Lemma run_section_grows (s : Crawler.state) (x : Crawler.section) (u : str) :
  (In u (Crawler.db s) -> In u (Crawler.db (Crawler.run_section E s x)))
  /\ (In u (Crawler.fetched s) ->
      In u (Crawler.fetched (Crawler.run_section E s x))).
Proof.
  destruct x as [url|link]; cbn [Crawler.run_section].
  - unfold Crawler.claim.
    destruct (Crawler.normalize_url E url) as [n|ex]; [|now split].
    destruct (Crawler.is_visited (Crawler.db s) n); [now split|].
    cbn. split; intros H.
    + apply set_add_In. now right.
    + apply in_or_app. now left.
  - unfold Crawler.offer.
    destruct (Crawler.normalize_url E link) as [n|ex]; [|now split].
    destruct (Crawler.is_visited (Crawler.db s) n); now split.
Qed.

Lemma run_grows (xs : list Crawler.section) (u : str) :
  forall s,
    (In u (Crawler.db s) -> In u (Crawler.db (Crawler.run E xs s)))
    /\ (In u (Crawler.fetched s) -> In u (Crawler.fetched (Crawler.run E xs s))).
Proof.
  induction xs as [|x xs IH]; intros s; [now split|].
  unfold Crawler.run. cbn [fold_left].
  destruct (run_section_grows s x u) as [Hd Hf].
  destruct (IH (Crawler.run_section E s x)) as [Hd' Hf'].
  split; intros H; [apply Hd', Hd, H | apply Hf', Hf, H].
Qed.

(** After the claim of [url], its normalized form is in the table, and
    among the fetched ones unless the table held it at start. *)
Lemma claim_records (db0 : Crawler.visited_urls) (s : Crawler.state)
  (url n : str) :
  Crawler.normalize_url E url = Ok n ->
  db_fetched db0 s ->
  In n (Crawler.db (snd (Crawler.claim E url s)))
  /\ (In n (Crawler.fetched (snd (Crawler.claim E url s))) \/ In n db0).
Proof.
  intros Hn Hsub. unfold Crawler.claim. rewrite Hn. unfold Crawler.is_visited.
  destruct (set_mem str_eq_dec n (Crawler.db s)) eqn:Hm; cbn.
  - apply set_mem_In in Hm. split; [assumption | now apply Hsub].
  - split; [apply set_add_In; now left|].
    left. apply in_or_app. right. now left.
Qed.

Lemma run_section_db_fetched (db0 : Crawler.visited_urls)
  (s : Crawler.state) (x : Crawler.section) :
  db_fetched db0 s -> db_fetched db0 (Crawler.run_section E s x).
Proof.
  intros H. destruct x as [url|link]; cbn [Crawler.run_section].
  - unfold Crawler.claim.
    destruct (Crawler.normalize_url E url) as [n|ex]; [|exact H].
    destruct (Crawler.is_visited (Crawler.db s) n); [exact H|].
    intros u Hu. cbn in *. apply set_add_In in Hu as [->|Hu].
    + left. apply in_or_app. right. now left.
    + destruct (H u Hu) as [Hf|H0]; [|now right].
      left. apply in_or_app. now left.
  - unfold Crawler.offer.
    destruct (Crawler.normalize_url E link) as [n|ex]; [|exact H].
    destruct (Crawler.is_visited (Crawler.db s) n); exact H.
Qed.

Lemma run_records (db0 : Crawler.visited_urls)
  (xs : list Crawler.section) (url n : str) :
  forall s,
    db_fetched db0 s ->
    In (Crawler.Claim url) xs -> Crawler.normalize_url E url = Ok n ->
    In n (Crawler.db (Crawler.run E xs s))
    /\ (In n (Crawler.fetched (Crawler.run E xs s)) \/ In n db0).
Proof.
  induction xs as [|x xs IH]; intros s Hs Hin Hn; [contradiction|].
  unfold Crawler.run. cbn [fold_left]. destruct Hin as [->|Hin].
  - cbn [Crawler.run_section].
    destruct (claim_records db0 s url n Hn Hs) as [Hd Hf].
    destruct (run_grows xs n (snd (Crawler.claim E url s))) as [Hd' Hf'].
    split; [now apply Hd'|].
    destruct Hf as [Hf|H0]; [left; now apply Hf' | now right].
  - apply IH; try assumption. now apply run_section_db_fetched.
Qed.

(** A URL that the table held at start is never claimed. *)
Lemma run_section_keeps_rows (db0 : Crawler.visited_urls)
  (s : Crawler.state) (x : Crawler.section) :
  keeps_rows db0 s -> keeps_rows db0 (Crawler.run_section E s x).
Proof.
  intros [Hrows Hnew]. destruct x as [url|link]; cbn [Crawler.run_section].
  - unfold Crawler.claim.
    destruct (Crawler.normalize_url E url) as [n|ex]; [|now split].
    unfold Crawler.is_visited.
    destruct (set_mem str_eq_dec n (Crawler.db s)) eqn:Hm; [now split|].
    apply set_mem_not_In in Hm. cbn [snd]. split; cbn.
    + intros u Hu. apply set_add_In. right. now apply Hrows.
    + intros u Hu. apply in_app_or in Hu as [Hu|[<-|[]]];
        [now apply Hnew|].
      intros H0. apply Hm. now apply Hrows.
  - unfold Crawler.offer.
    destruct (Crawler.normalize_url E link) as [n|ex]; [|now split].
    destruct (Crawler.is_visited (Crawler.db s) n); now split.
Qed.

Lemma run_keeps_rows (db0 : Crawler.visited_urls)
  (xs : list Crawler.section) :
  forall s, keeps_rows db0 s -> keeps_rows db0 (Crawler.run E xs s).
Proof.
  induction xs as [|x xs IH]; intros s H; [exact H|].
  unfold Crawler.run. cbn [fold_left]. apply IH.
  now apply run_section_keeps_rows.
Qed.

Lemma granted_once_holds (db0 : Crawler.visited_urls)
  (xs : list Crawler.section) (start_url : str) :
  granted_once E db0 xs start_url.
Proof.
  unfold granted_once. cbv zeta.
  assert (Hinit : claims_agree (Crawler.initial db0 start_url))
    by (split; [constructor | intros u []]).
  assert (Hrows : keeps_rows db0 (Crawler.initial db0 start_url))
    by (split; [trivial | intros u []]).
  destruct (run_agree xs _ Hinit) as [Hnd Hsub].
  destruct (run_keeps_rows db0 xs _ Hrows) as [_ Hnew].
  split; [exact Hnd|]. split; [exact Hnew|].
  intros url n Hin Hn.
  destruct (run_records db0 xs url n (Crawler.initial db0 start_url))
    as [Hd Hf]; try assumption.
  { intros u Hu. now right. }
  split; [|now apply set_mem_In].
  unfold Crawler.is_visited.
  destruct (set_mem str_eq_dec n db0) eqn:Hm.
  - apply set_mem_In in Hm. apply count_occ_not_In.
    intros Hc. now apply (Hnew n Hc).
  - apply set_mem_not_In in Hm.
    apply NoDup_count_occ' with (decA := str_eq_dec); [assumption|].
    destruct Hf as [Hf|H0]; [assumption | contradiction].
Qed.

(** C1 (amended). Crawler-v02.py: in every state the crawl loop reaches --
    after any number of turns, whatever the batch returns, and in the
    state it ends or crashes in -- no URL occurs twice among the URLs
    handed to [_process_url] and those waiting in the queue, and the seen
    set holds exactly these URLs: each URL is claimed once and dispatched
    to at most one fetch.  A link is pushed onto the queue only when it is
    not in the seen set, and it enters the seen set as it is pushed.
    crawler.py: whatever table [crawler.db] holds when the run starts and
    however the locked sections of the workers interleave, no normalized
    URL is claimed by [crawl_page] twice; a URL whose claim is attempted
    is claimed exactly once when the table did not hold it at start, and
    never when it did. *)
Theorem C1_claimed_at_most_once (cfg : config)
  (process_batch : batch_processor) (s : store) (n : nat) (c : crawler) :
  after_turns E cfg process_batch n (crawl_init cfg s) = Some c ->
  claimed_once c
  /\ claimed_once (outcome_state (crawl_step E cfg process_batch c))
  /\ (forall fuel o, crawl E cfg process_batch fuel s = Some o ->
                     claimed_once (outcome_state o))
  /\ (forall q seen link, enqueue_law q seen link)
  /\ (forall db0 xs start_url, granted_once E db0 xs start_url).
Proof.
  intros Hn.
  assert (Hc : claimed_once c)
    by (apply (after_turns_once cfg process_batch n _ _
                 (crawl_init_once cfg s) Hn)).
  split; [exact Hc|].
  split; [now apply crawl_step_once|].
  split.
  - intros fuel o Ho.
    apply (crawl_loop_once cfg process_batch fuel _ _
             (crawl_init_once cfg s) Ho).
  - split; [apply enqueue_link_law | apply granted_once_holds].
Qed.

End AtMostOnceFacts.

Lemma C1_claimed_at_most_once_witness :
  exists c,
    EnhancedCrawler.after_turns Cap.linking_externals (Cap.capped_config 100)
      (EnhancedCrawler.process_batch_seq Cap.linking_externals
         (Cap.capped_config 100) Cap.no_download Cap.index_world 0)
      1 (EnhancedCrawler.crawl_init (Cap.capped_config 100)
           Retry.sample_store) = Some c
    /\ AtMostOnce.claimed_once c
    /\ EnhancedCrawler.dispatched c = [lit "https://example.com"]
    /\ EnhancedCrawler.queue c
       = [lit "https://example.com/a"; lit "https://example.com/b";
          lit "https://example.com/c"].
Proof.
  eexists. split; [vm_compute; reflexivity|].
  split; [|split; reflexivity].
  apply (C1_claimed_at_most_once Cap.linking_externals
           (Cap.capped_config 100)
           (EnhancedCrawler.process_batch_seq Cap.linking_externals
              (Cap.capped_config 100) Cap.no_download Cap.index_world 0)
           Retry.sample_store 1).
  vm_compute. reflexivity.
Defined.

(** C1, as stated, fails in crawler.py: in a run that finds the start URL
    in [crawler.db], left there by an earlier run, every claim of it is
    refused, so it is claimed by no worker where the claim has exactly
    one. *)
Lemma C1_counterexample :
  Crawler.normalize_url sample_externals (lit "https://example.com")
  = Ok (lit "https://example.com")
  /\ Crawler.fetched
       (Crawler.run sample_externals
          [Crawler.Claim (lit "https://example.com");
           Crawler.Claim (lit "https://example.com")]
          (Crawler.initial [lit "https://example.com"]
             (lit "https://example.com"))) = []
  /\ count_occ str_eq_dec
       (Crawler.fetched
          (Crawler.run sample_externals
             [Crawler.Claim (lit "https://example.com");
              Crawler.Claim (lit "https://example.com")]
             (Crawler.initial [lit "https://example.com"]
                (lit "https://example.com"))))
       (lit "https://example.com") <> 1%nat.
Proof.
  split; [vm_compute; reflexivity|].
  split; [vm_compute; reflexivity|].
  vm_compute. discriminate.
Qed.

(* ------------------------------------------------------------------ *)
(** ** The cap on pages *)

Section CapFacts.

Import EnhancedCrawler Cap.

(** A turn of the loop starts only below the cap. *)
Lemma crawl_step_below_cap (E : Externals) (cfg : config)
  (process_batch : batch_processor) (c c' : crawler) :
  crawl_step E cfg process_batch c = Continue c' ->
  (Z.of_nat (length (seen_urls c)) < max_pages cfg)%Z.
Proof.
  unfold crawl_step.
  destruct (negb _) ; cbn [andb]; [|discriminate].
  destruct (Z.ltb_spec (Z.of_nat (length (seen_urls c))) (max_pages cfg));
    [trivial | discriminate].
Qed.

(** C5. The cap is checked only when a turn of the loop starts -- a turn
    starts only with fewer than [max_pages] URLs claimed -- and not when
    links are claimed: with [max_pages = 2], a first page with three links
    leaves four claimed URLs when the crawl ends, and [crawl_stats.json]
    reports four pages; with [max_pages = 0] the crawl ends at once with
    the seed claimed. *)
Theorem C5_seen_urls_exceed_max_pages :
  (forall E cfg process_batch c c',
     crawl_step E cfg process_batch c = Continue c' ->
     (Z.of_nat (length (seen_urls c)) < max_pages cfg)%Z)
  /\ (exists c,
        capped_crawl 2 2 = Some (Finished c)
        /\ length (seen_urls c) = 4%nat
        /\ (Z.of_nat (length (seen_urls c)) > max_pages (capped_config 2))%Z
        /\ dispatched c = [lit "https://example.com"]
        /\ exists s, In (lit "crawled_data/example.com/crawl_stats.json",
                         StatsJson s) (files (shared c))
                     /\ pages_crawled s = 4%nat)
  /\ (exists c,
        capped_crawl 0 1 = Some (Finished c)
        /\ length (seen_urls c) = 1%nat
        /\ (Z.of_nat (length (seen_urls c)) > max_pages (capped_config 0))%Z
        /\ dispatched c = []).
Proof.
  split; [exact crawl_step_below_cap|]. split.
  - eexists. split; [vm_compute; reflexivity|].
    split; [reflexivity|]. split; [reflexivity|]. split; [reflexivity|].
    eexists. split; [cbn; do 2 right; left; reflexivity | reflexivity].
  - eexists. split; [vm_compute; reflexivity|].
    repeat split; reflexivity.
Qed.

End CapFacts.

(* ------------------------------------------------------------------ *)
(** ** Characters *)

Section CharFacts.

Ltac each_char c :=
  destruct c as [[|] [|] [|] [|] [|] [|] [|] [|]].

Lemma lower_char_idem (c : ascii) : lower_char (lower_char c) = lower_char c.
Proof. each_char c; vm_compute; reflexivity. Qed.

Lemma lower_idem (s : str) : lower (lower s) = lower s.
Proof.
  unfold lower. rewrite map_map. apply map_ext. apply lower_char_idem.
Qed.

Lemma scheme_char_facts (c : ascii) :
  Urllib.is_scheme_char c = true ->
  Urllib.is_scheme_char (lower_char c) = true
  /\ Urllib.is_unsafe_url_byte c = false
  /\ Urllib.is_unsafe_url_byte (lower_char c) = false
  /\ c <> COLON /\ lower_char c <> COLON
  /\ lower_char c <> SLASH /\ lower_char c <> QMARK /\ lower_char c <> HASH
  /\ isascii_char (lower_char c) = true.
Proof.
  each_char c; vm_compute; intros H; try discriminate H;
    repeat split; discriminate.
Qed.

Lemma ascii_alpha_facts (c : ascii) :
  is_ascii_alpha c = true ->
  isascii_char c = true
  /\ Urllib.is_c0_control_or_space c = false
  /\ is_ascii_alpha (lower_char c) = true.
Proof.
  each_char c; vm_compute; intros H; try discriminate H; repeat split.
Qed.

Lemma unsafe_is_c0 (c : ascii) :
  Urllib.is_unsafe_url_byte c = true ->
  Urllib.is_c0_control_or_space c = true.
Proof. each_char c; vm_compute; intros H; try discriminate H; reflexivity. Qed.

End CharFacts.

(* ------------------------------------------------------------------ *)
(** ** Cutting strings *)

Section CutFacts.

Variable P : ascii -> bool.

Lemma break_at_app (s : str) :
  fst (break_at P s) ++ snd (break_at P s) = s.
Proof.
  induction s as [|c s IH]; [reflexivity|]. cbn.
  destruct (P c); [reflexivity|].
  destruct (break_at P s) as [a b]. cbn in *. now rewrite IH.
Qed.

Lemma break_at_prefix (s : str) :
  Forall (fun c => P c = false) (fst (break_at P s)).
Proof.
  induction s as [|c s IH]; [constructor|]. cbn.
  destruct (P c) eqn:Hc; [constructor|].
  destruct (break_at P s) as [a b]. cbn in *. now constructor.
Qed.

Lemma break_at_rest (s : str) :
  match snd (break_at P s) with
  | [] => True
  | c :: _ => P c = true
  end.
Proof.
  induction s as [|c s IH]; [exact I|]. cbn.
  destruct (P c) eqn:Hc; [exact Hc|].
  now destruct (break_at P s) as [a b].
Qed.

Lemma break_at_hit (a b : str) (k : ascii) :
  Forall (fun c => P c = false) a -> P k = true ->
  break_at P (a ++ k :: b) = (a, k :: b).
Proof.
  intros Ha Hk. induction Ha as [|c a Hc Ha IH]; cbn.
  - now rewrite Hk.
  - now rewrite Hc, IH.
Qed.

Lemma break_at_miss (a : str) :
  Forall (fun c => P c = false) a -> break_at P a = (a, []).
Proof.
  intros Ha. induction Ha as [|c a Hc Ha IH]; cbn; [reflexivity|].
  now rewrite Hc, IH.
Qed.

(** Cutting at the first of the characters [P] accepts, before a rest
    that is empty or starts with one of them. *)
Lemma break_at_headed (a rest : str) :
  Forall (fun c => P c = false) a ->
  match rest with [] => True | c :: _ => P c = true end ->
  break_at P (a ++ rest) = (a, rest).
Proof.
  intros Ha Hrest. destruct rest as [|k b].
  - rewrite app_nil_r. now apply break_at_miss.
  - now apply break_at_hit.
Qed.

Lemma lstrip_keeps (s : str) :
  match s with [] => True | c :: _ => P c = false end -> lstrip P s = s.
Proof. destruct s as [|c s]; cbn; [reflexivity|]. now intros ->. Qed.

Lemma filter_all (l : str) :
  Forall (fun c => P c = true) l -> filter P l = l.
Proof.
  intros H. induction H as [|c l Hc H IH]; cbn; [reflexivity|].
  now rewrite Hc, IH.
Qed.

Lemma rstrip_app_keep (a b : str) (c : ascii) :
  P c = false -> rstrip P ((a ++ [c]) ++ b) = (a ++ [c]) ++ rstrip P b.
Proof.
  intros Hc. induction a as [|x a IH]; cbn.
  - induction b as [|y b IHb]; cbn; [now rewrite Hc|].
    cbn in IHb. destruct (rstrip P b) as [|z r] eqn:Hb.
    + destruct (P y); cbn; [now rewrite Hc | reflexivity].
    + reflexivity.
  - rewrite IH. destruct a; reflexivity.
Qed.

Lemma rstrip_idem (s : str) : rstrip P (rstrip P s) = rstrip P s.
Proof.
  induction s as [|c s IH]; [reflexivity|]. cbn.
  destruct (rstrip P s) as [|z r] eqn:Hs.
  - destruct (P c) eqn:Hc; cbn; [reflexivity | now rewrite Hc].
  - cbn. cbn in IH. now rewrite IH.
Qed.

Lemma rstrip_incl (s : str) (c : ascii) : In c (rstrip P s) -> In c s.
Proof.
  induction s as [|x s IH]; cbn; [trivial|].
  destruct (rstrip P s) as [|z r].
  - destruct (P x); cbn; tauto.
  - cbn. intros [->|H]; [now left | right; now apply IH].
Qed.

(** The stripped text does not end with a stripped character. *)
Lemma rstrip_last (s : str) (d : ascii) :
  rstrip P s <> [] -> P (last (rstrip P s) d) = false.
Proof.
  induction s as [|x s IH]; cbn; [congruence|].
  destruct (rstrip P s) as [|z r] eqn:Hs.
  - destruct (P x) eqn:Hx; cbn; [congruence | now intros _].
  - intros _. cbn. cbn in IH. apply IH. discriminate.
Qed.

Lemma rstrip_head (c : ascii) (s : str) :
  rstrip P (c :: s) = [] \/ exists r, rstrip P (c :: s) = c :: r.
Proof.
  cbn. destruct (rstrip P s).
  - destruct (P c); [now left | right; now exists []].
  - right. now eexists.
Qed.

Lemma rstrip_forall (Q : ascii -> Prop) (s : str) :
  Forall Q s -> Forall Q (rstrip P s).
Proof.
  intros H. apply Forall_forall. intros c Hc.
  rewrite Forall_forall in H. now apply H, rstrip_incl.
Qed.

End CutFacts.

Section PartitionFacts.

Lemma not_in_forall (k : ascii) (s : str) :
  ~ In k s <-> Forall (fun c => is_ch k c = false) s.
Proof.
  rewrite Forall_forall. split.
  - intros H c Hc. apply is_ch_false. intros ->. contradiction.
  - intros H Hin. specialize (H k Hin). now rewrite is_ch_refl in H.
Qed.

Lemma partition_hit (k : ascii) (a b : str) :
  ~ In k a -> partition k (a ++ k :: b) = Some (a, b).
Proof.
  intros H. unfold partition.
  rewrite break_at_hit; [reflexivity | now apply not_in_forall | apply is_ch_refl].
Qed.

Lemma partition_miss (k : ascii) (a : str) :
  ~ In k a -> partition k a = None.
Proof.
  intros H. unfold partition.
  rewrite break_at_miss; [reflexivity | now apply not_in_forall].
Qed.

Lemma partition_some (k : ascii) (s a b : str) :
  partition k s = Some (a, b) -> s = a ++ k :: b /\ ~ In k a.
Proof.
  unfold partition. intros H.
  pose proof (break_at_app (is_ch k) s) as Happ.
  pose proof (break_at_prefix (is_ch k) s) as Hpre.
  pose proof (break_at_rest (is_ch k) s) as Hrest.
  destruct (break_at (is_ch k) s) as [x [|c y]]; [discriminate|].
  injection H as <- <-. cbn in *. apply is_ch_true in Hrest. subst c.
  split; [now symmetry | now apply not_in_forall].
Qed.

Lemma partition_none (k : ascii) (s : str) :
  partition k s = None -> ~ In k s.
Proof.
  unfold partition. intros H.
  pose proof (break_at_app (is_ch k) s) as Happ.
  pose proof (break_at_prefix (is_ch k) s) as Hpre.
  destruct (break_at (is_ch k) s) as [x [|c y]]; [|discriminate].
  cbn in *. rewrite app_nil_r in Happ. subst x. now apply not_in_forall.
Qed.

End PartitionFacts.

(* ------------------------------------------------------------------ *)
(** ** Parsing a URL written out from its components *)

Section BuildFacts.

Import Urllib Url.

Variable E : Externals.

Lemma valid_scheme_lower (s : str) : valid_scheme s -> valid_scheme (lower s).
Proof.
  destruct s as [|c0 s]; [trivial|]. intros [Ha Hall]. split.
  - now apply ascii_alpha_facts.
  - change (forallb is_scheme_char (lower (c0 :: s)) = true).
    rewrite forallb_forall in *. intros c Hc.
    apply in_map_iff in Hc as (x & <- & Hx).
    now apply scheme_char_facts, Hall.
Qed.

Lemma valid_scheme_chars (s : str) :
  valid_scheme s -> Forall (fun c => is_scheme_char c = true) s.
Proof.
  destruct s as [|c0 s]; [constructor|]. intros [_ Hall].
  apply Forall_forall. now apply forallb_forall.
Qed.

(** A network location of ASCII characters without brackets passes the
    checks. *)
Lemma plain_netloc_accepted (n : str) :
  plain_netloc n -> accepted_netloc E n.
Proof.
  intros (Hne & Hasc & Hc & Hs & Hq & Hh & Hlb & Hrb).
  repeat split; try assumption.
  - unfold check_brackets. apply contains_not_In in Hlb, Hrb.
    now rewrite Hlb, Hrb.
  - unfold _checknetloc. now rewrite Hasc, orb_true_r.
Qed.

Lemma well_formed_accepted (s n p : str) (q f : option str) :
  well_formed s n p q f -> well_formed_for E s n p q f.
Proof.
  intros (Hs & Hn & Hrest). split; [assumption|].
  split; [now apply plain_netloc_accepted | assumption].
Qed.

Lemma clean_app (a b : str) : clean a -> clean b -> clean (a ++ b).
Proof. intros Ha Hb. apply Forall_app. now split. Qed.

Lemma clean_marked (k : ascii) (t : option str) :
  is_unsafe_url_byte k = false ->
  match t with Some t => clean t | None => True end ->
  clean (marked k t).
Proof. destruct t; cbn; intros Hk Ht; constructor; assumption. Qed.

Lemma build_clean (s n p : str) (q f : option str) :
  well_formed_for E s n p q f -> clean (build s n p q f).
Proof.
  intros (Hs & Hn & Hp & Hq & Hf). unfold build.
  apply clean_app.
  - apply valid_scheme_chars in Hs. unfold clean.
    rewrite Forall_forall in *. intros c Hc. now apply scheme_char_facts, Hs.
  - apply clean_app; [repeat constructor|].
    apply clean_app; [apply Hn|]. apply clean_app; [apply Hp|].
    apply clean_app; apply clean_marked; try reflexivity.
    + destruct q; [apply Hq | exact I].
    + destruct f; [exact Hf | exact I].
Qed.

Lemma remove_unsafe_clean (t : str) : clean t -> remove_unsafe t = t.
Proof.
  intros H. unfold remove_unsafe. apply filter_all.
  unfold clean in H. rewrite Forall_forall in *.
  intros c Hc. now rewrite (H c Hc).
Qed.

Lemma remove_unsafe_is_clean (t : str) : clean (remove_unsafe t).
Proof.
  unfold clean, remove_unsafe. apply Forall_forall. intros c Hc.
  apply filter_In in Hc as [_ Hc]. now apply negb_true_iff.
Qed.

(** The text after the network location is empty or starts with one of
    the delimiters. *)
Lemma after_netloc_headed (p : str) (q f : option str) :
  plain_path p ->
  match p ++ marked QMARK q ++ marked HASH f with
  | [] => True
  | c :: _ => is_netloc_delim c = true
  end.
Proof.
  intros ([->|(r & ->)] & _); [|reflexivity].
  destruct q as [q|]; [reflexivity|]. destruct f as [f|]; [reflexivity|].
  exact I.
Qed.

Lemma netloc_no_delim (n : str) :
  accepted_netloc E n -> Forall (fun c => is_netloc_delim c = false) n.
Proof.
  intros (_ & _ & Hs & Hq & Hh & _). apply Forall_forall. intros c Hc.
  unfold is_netloc_delim.
  assert (c <> SLASH) by (intros ->; contradiction).
  assert (c <> QMARK) by (intros ->; contradiction).
  assert (c <> HASH) by (intros ->; contradiction).
  repeat (apply orb_false_intro); now apply is_ch_false.
Qed.

(** Cutting the fragment and the query off what follows the network
    location. *)
Lemma cut_fragment (p : str) (q f : option str) :
  plain_path p -> plain_query q ->
  match partition HASH (p ++ marked QMARK q ++ marked HASH f) with
  | Some (a, b) => (a, b)
  | None => (p ++ marked QMARK q ++ marked HASH f, [])
  end = (p ++ marked QMARK q, text_of f).
Proof.
  intros (_ & _ & _ & Hph & _) Hq.
  assert (Hno : ~ In HASH (p ++ marked QMARK q)).
  { intros H. apply in_app_or in H as [H|H]; [contradiction|].
    destruct q as [q|]; [|contradiction]. destruct Hq as [_ Hq].
    destruct H as [H|H]; [discriminate | contradiction]. }
  destruct f as [f|]; cbn [marked text_of].
  - rewrite app_assoc, partition_hit by assumption. reflexivity.
  - rewrite app_nil_r, partition_miss by assumption. reflexivity.
Qed.

Lemma cut_query (p : str) (q : option str) :
  plain_path p ->
  match partition QMARK (p ++ marked QMARK q) with
  | Some (a, b) => (a, b)
  | None => (p ++ marked QMARK q, [])
  end = (p, text_of q).
Proof.
  intros (_ & _ & Hpq & _).
  destruct q as [q|]; cbn [marked text_of].
  - rewrite partition_hit by assumption. reflexivity.
  - rewrite app_nil_r, partition_miss by assumption. reflexivity.
Qed.

Lemma urlsplit_build (s n p : str) (q f : option str) (scheme0 : str) :
  well_formed_for E s n p q f ->
  urlsplit E (build s n p q f) scheme0
  = Ok {| sp_scheme := lower s; sp_netloc := n; sp_url := p;
          sp_query := text_of q; sp_fragment := text_of f |}.
Proof.
  intros Hwf. pose proof (build_clean _ _ _ _ _ Hwf) as Hclean.
  destruct Hwf as (Hs & Hn & Hp & Hq & Hf).
  unfold urlsplit.
  assert (Hl : lstrip is_c0_control_or_space (build s n p q f)
               = build s n p q f).
  { apply lstrip_keeps. destruct s as [|c0 s]; [contradiction|].
    destruct Hs as [Ha _]. cbn. now apply ascii_alpha_facts. }
  rewrite Hl, (remove_unsafe_clean _ Hclean). clear Hl Hclean.
  unfold build at 1.
  change (lit "://" ++ n ++ p ++ marked QMARK q ++ marked HASH f)
    with (COLON :: SLASH :: SLASH :: n ++ p ++ marked QMARK q ++ marked HASH f).
  rewrite break_at_hit.
  2:{ apply valid_scheme_chars in Hs. rewrite Forall_forall in *.
      intros c Hc. apply is_ch_false. now apply scheme_char_facts, Hs. }
  2:{ apply is_ch_refl. }
  destruct s as [|c0 s]; [contradiction|]. destruct Hs as [Ha Hall].
  destruct (ascii_alpha_facts c0 Ha) as (Hascii & _ & _).
  rewrite Hascii, Ha, Hall. cbn [andb].
  rewrite !is_ch_refl. cbn [andb]. unfold _splitnetloc.
  rewrite break_at_headed;
    [| now apply netloc_no_delim | now apply after_netloc_headed].
  destruct Hn as (_ & _ & _ & _ & _ & Hbr & Hck).
  rewrite Hbr. cbn [bind].
  rewrite cut_fragment by assumption.
  rewrite cut_query by assumption.
  rewrite Hck. reflexivity.
Qed.

Lemma urlparse_build (s n p : str) (q f : option str) (scheme0 : str) :
  well_formed_for E s n p q f ->
  urlparse E (build s n p q f) scheme0
  = Ok {| scheme := lower s; netloc := n; path := p; params := [];
          query := text_of q; fragment := text_of f |}.
Proof.
  intros Hwf. unfold urlparse. rewrite (urlsplit_build _ _ _ _ _ _ Hwf).
  cbn [bind sp_scheme sp_url sp_netloc sp_query sp_fragment].
  destruct Hwf as (_ & _ & (_ & _ & _ & _ & Hsemi) & _).
  apply contains_not_In in Hsemi. rewrite Hsemi, andb_false_r. reflexivity.
Qed.

(** *** What any parse is made of *)

Lemma scheme_cut_shape (u : str) :
  clean u ->
  clean (snd (scheme_cut u))
  /\ (fst (scheme_cut u) <> [] ->
      valid_scheme (fst (scheme_cut u))
      /\ lower (fst (scheme_cut u)) = fst (scheme_cut u)).
Proof.
  intros Hu. unfold scheme_cut.
  pose proof (break_at_app (is_ch COLON) u) as Happ.
  destruct (break_at (is_ch COLON) u) as [[|c0 pre] [|c post]];
    try (split; [exact Hu | intros H; now elim H]).
  destruct (isascii_char c0 && is_ascii_alpha c0) eqn:Ha; cbn [andb];
    [|split; [exact Hu | intros H; now elim H]].
  destruct (forallb is_scheme_char (c0 :: pre)) eqn:Hall;
    [|split; [exact Hu | intros H; now elim H]].
  cbn [fst snd] in *. split.
  - rewrite <- Happ in Hu. apply Forall_app in Hu as [_ Hu].
    now inversion Hu.
  - intros _. split; [|apply lower_idem].
    apply (valid_scheme_lower (c0 :: pre)). split; [|exact Hall].
    now apply andb_prop in Ha.
Qed.

Lemma netloc_cut_shape (u nl rest : str) :
  clean u ->
  netloc_cut E u = Ok (nl, rest) ->
  clean rest
  /\ (nl <> [] ->
      clean nl /\ without SLASH nl /\ without QMARK nl /\ without HASH nl
      /\ check_brackets E nl = Ok tt /\ headed rest).
Proof.
  intros Hu. unfold netloc_cut.
  destruct u as [|c1 [|c2 r]];
    try (intros [= <- <-]; split; [exact Hu | intros H; now elim H]).
  destruct (is_ch SLASH c1 && is_ch SLASH c2);
    [|intros [= <- <-]; split; [exact Hu | intros H; now elim H]].
  unfold _splitnetloc.
  pose proof (break_at_app is_netloc_delim r) as Happ.
  pose proof (break_at_prefix is_netloc_delim r) as Hpre.
  pose proof (break_at_rest is_netloc_delim r) as Hrest.
  destruct (break_at is_netloc_delim r) as [n0 r0]. cbn [fst snd] in *.
  destruct (check_brackets E n0) as [[]|ex] eqn:Hbr; [|discriminate].
  cbn [bind]. intros [= <- <-].
  assert (Hr : clean r) by (inversion Hu as [|? ? _ Hu']; now inversion Hu').
  rewrite <- Happ in Hr. apply Forall_app in Hr as [Hn0 Hr0].
  split; [exact Hr0|]. intros _.
  rewrite Forall_forall in Hpre.
  repeat split; try assumption; intros Hin; specialize (Hpre _ Hin);
    discriminate.
Qed.

Lemma prefix_shape (a b : str) :
  clean (a ++ b) -> headed (a ++ b) ->
  clean a /\ (a = [] \/ headed a /\ a <> []).
Proof.
  intros Hc Hh. apply Forall_app in Hc as [Ha _]. split; [exact Ha|].
  destruct a as [|c a]; [now left | right]. split; [exact Hh | discriminate].
Qed.

Lemma path_cut_shape (u : str) :
  clean u -> headed u ->
  clean (path_cut u) /\ without QMARK (path_cut u)
  /\ without HASH (path_cut u)
  /\ (path_cut u = [] \/ exists r, path_cut u = SLASH :: r).
Proof.
  intros Hu Hh. unfold path_cut.
  assert (H1 : exists t, u = fst (match partition HASH u with
                                  | Some (a, b) => (a, b)
                                  | None => (u, [])
                                  end) ++ t
               /\ ~ In HASH (fst (match partition HASH u with
                                  | Some (a, b) => (a, b)
                                  | None => (u, [])
                                  end))).
  { destruct (partition HASH u) as [[a b]|] eqn:Hp.
    - apply partition_some in Hp as [-> Hno]. now exists (HASH :: b).
    - apply partition_none in Hp. exists []. now rewrite app_nil_r. }
  destruct (match partition HASH u with
            | Some (a, b) => (a, b)
            | None => (u, [])
            end) as [u1 frag]. cbn [fst] in H1.
  destruct H1 as (t1 & Hu1 & Hh1).
  assert (H2 : exists t, u1 = fst (match partition QMARK u1 with
                                   | Some (a, b) => (a, b)
                                   | None => (u1, [])
                                   end) ++ t
               /\ ~ In QMARK (fst (match partition QMARK u1 with
                                   | Some (a, b) => (a, b)
                                   | None => (u1, [])
                                   end))).
  { destruct (partition QMARK u1) as [[a b]|] eqn:Hp.
    - apply partition_some in Hp as [-> Hno]. now exists (QMARK :: b).
    - apply partition_none in Hp. exists []. now rewrite app_nil_r. }
  destruct (match partition QMARK u1 with
            | Some (a, b) => (a, b)
            | None => (u1, [])
            end) as [u2 qry]. cbn [fst] in H2.
  destruct H2 as (t2 & Hu2 & Hq2).
  subst u1. rewrite <- app_assoc in Hu1. subst u.
  destruct (prefix_shape _ _ Hu Hh) as [Hc Hhead].
  split; [exact Hc|]. split; [exact Hq2|]. split.
  - intros Hin. apply Hh1, in_or_app. now left.
  - destruct Hhead as [->|[Hd Hne]]; [now left | right].
    destruct u2 as [|c r]; [congruence|]. exists r. f_equal.
    cbn in Hd. unfold is_netloc_delim in Hd.
    destruct (is_ch SLASH c) eqn:Hs; [now apply is_ch_true|].
    exfalso. cbn in Hd. apply orb_prop in Hd as [Hd|Hd];
      apply is_ch_true in Hd; subst c.
    + apply Hq2. now left.
    + apply Hh1, in_or_app. left. now left.
Qed.

Lemma urlsplit_cuts (url : str) :
  urlsplit E url []
  = (let u := remove_unsafe (lstrip is_c0_control_or_space url) in
     '(netloc, rest) <- netloc_cut E (snd (scheme_cut u));;
     _ <- _checknetloc E netloc;;
     Ok {| sp_scheme := fst (scheme_cut u); sp_netloc := netloc;
           sp_url := path_cut rest;
           sp_query := snd (match partition QMARK
                                    (fst (match partition HASH rest with
                                          | Some (a, b) => (a, b)
                                          | None => (rest, [])
                                          end)) with
                            | Some (a, b) => (a, b)
                            | None => (fst (match partition HASH rest with
                                            | Some (a, b) => (a, b)
                                            | None => (rest, [])
                                            end), [])
                            end);
           sp_fragment := snd (match partition HASH rest with
                               | Some (a, b) => (a, b)
                               | None => (rest, [])
                               end) |}).
Proof.
  unfold urlsplit. cbv zeta.
  change (remove_unsafe (strip is_c0_control_or_space [])) with (@nil ascii).
  set (u := remove_unsafe (lstrip is_c0_control_or_space url)).
  unfold scheme_cut, netloc_cut, path_cut.
  destruct (break_at (is_ch COLON) u) as [[|c0 pre] [|c post]];
    cbn [fst snd].
  all: try destruct (isascii_char c0 && is_ascii_alpha c0
                     && forallb is_scheme_char (c0 :: pre)); cbn [fst snd].
  all: match goal with
       | |- context [match ?v with
                     | [] => Ok ([], ?v)
                     | _ => _ end] =>
           destruct v as [|c1 [|c2 r]]; cbn [bind]
       end.
  all: try destruct (is_ch SLASH c1 && is_ch SLASH c2); cbn [bind].
  all: try (destruct (_splitnetloc r) as [n0 r0];
            destruct (check_brackets E n0) as [[]|ex]; cbn [bind]).
  all: try reflexivity.
  all: match goal with
       | |- context [partition HASH ?v] =>
           destruct (partition HASH v) as [[a1 b1]|]; cbn [fst snd];
           match goal with
           | |- context [partition QMARK ?w] =>
               destruct (partition QMARK w) as [[a2 b2]|]; cbn [fst snd]
           end
       end.
  all: reflexivity.
Qed.

Lemma urlsplit_shape (url : str) (r : SplitResult) :
  urlsplit E url [] = Ok r ->
  sp_scheme r <> [] -> sp_netloc r <> [] ->
  valid_scheme (sp_scheme r)
  /\ lower (sp_scheme r) = sp_scheme r
  /\ accepted_netloc E (sp_netloc r)
  /\ clean (sp_url r) /\ without QMARK (sp_url r)
  /\ without HASH (sp_url r)
  /\ (sp_url r = [] \/ exists t, sp_url r = SLASH :: t).
Proof.
  rewrite urlsplit_cuts. cbv zeta.
  set (u := remove_unsafe (lstrip is_c0_control_or_space url)).
  pose proof (remove_unsafe_is_clean (lstrip is_c0_control_or_space url))
    as Hu. fold u in Hu.
  destruct (scheme_cut_shape u Hu) as [Hpost Hsch].
  destruct (netloc_cut E (snd (scheme_cut u))) as [[nl rest]|ex] eqn:Hnc;
    [|discriminate].
  destruct (netloc_cut_shape _ _ _ Hpost Hnc) as [Hrest Hnl].
  cbn [bind]. destruct (_checknetloc E nl) as [[]|ex] eqn:Hck; [|discriminate].
  cbn [bind]. intros [= <-]. cbn [sp_scheme sp_netloc sp_url].
  intros Hs Hn. destruct (Hsch Hs) as [Hv Hl].
  destruct (Hnl Hn) as (Hc & Hsl & Hq & Hh & Hbr & Hhead).
  destruct (path_cut_shape rest Hrest Hhead) as (Hpc & Hpq & Hph & Hpt).
  repeat split; assumption.
Qed.

Lemma splitparams_prefix (url : str) :
  exists t, url = fst (_splitparams url) ++ t.
Proof.
  unfold _splitparams. destruct (contains SLASH url).
  - destruct (rfind SLASH url) as [j|]; [|exists []; now rewrite app_nil_r].
    destruct (partition SEMI (skipn j url)) as [[a b]|] eqn:Hp;
      [|exists []; now rewrite app_nil_r].
    apply partition_some in Hp as [Hs _]. cbn [fst].
    exists (SEMI :: b). rewrite <- app_assoc, <- Hs. symmetry.
    apply firstn_skipn.
  - destruct (partition SEMI url) as [[a b]|] eqn:Hp;
      [|exists []; now rewrite app_nil_r].
    apply partition_some in Hp as [-> _]. now exists (SEMI :: b).
Qed.

(** A parse with a scheme, a network location and no [;] in its path is
    made of well-formed components. *)
Lemma urlparse_shape (url : str) (p : ParseResult) :
  urlparse E url [] = Ok p -> absolute p ->
  well_formed_for E (scheme p) (netloc p) (path p) None None
  /\ lower (scheme p) = scheme p.
Proof.
  unfold urlparse.
  destruct (urlsplit E url []) as [r|ex] eqn:Hr; [|discriminate].
  cbn [bind].
  destruct (splitparams_prefix (sp_url r)) as (t & Ht).
  assert (Hpre : exists t', sp_url r
            = fst (if str_in (sp_scheme r) uses_params
                      && contains SEMI (sp_url r)
                   then _splitparams (sp_url r) else (sp_url r, [])) ++ t').
  { destruct (_ && _); [now exists t | exists []; now rewrite app_nil_r]. }
  destruct (if str_in (sp_scheme r) uses_params && contains SEMI (sp_url r)
            then _splitparams (sp_url r) else (sp_url r, [])) as [pa pr].
  cbn [fst] in Hpre. destruct Hpre as (t' & Hpa).
  intros [= <-]. cbn [scheme netloc path]. intros (Hs & Hn & Hsemi).
  destruct (urlsplit_shape url r Hr Hs Hn)
    as (Hv & Hl & Hacc & Hc & Hq & Hh & Hhead).
  split; [|exact Hl]. split; [exact Hv|]. split; [exact Hacc|].
  split; [|now split].
  rewrite Hpa in Hc, Hq, Hh, Hhead.
  split.
  - destruct pa as [|c pa']; [now left | right].
    destruct Hhead as [Hnil|(x & Hx)]; [discriminate|].
    injection Hx as -> _. now exists pa'.
  - apply Forall_app in Hc as [Hc _]. split; [exact Hc|].
    repeat split; try assumption; intros Hin.
    + apply Hq, in_or_app. now left.
    + apply Hh, in_or_app. now left.
Qed.

End BuildFacts.

(* ------------------------------------------------------------------ *)
(** ** Normalization *)

Section NormalizeFacts.

Import Urllib Url EnhancedCrawler Normal.

Variable E : Externals.

(** *** What any parse is made of *)

Lemma path_cut_plain (url : str) :
  ~ In HASH (path_cut url) /\ ~ In QMARK (path_cut url).
Proof.
  unfold path_cut.
  assert (H1 : forall u1, ~ In HASH u1 ->
                 let '(u2, _) := match partition QMARK u1 with
                                 | Some (a, b) => (a, b)
                                 | None => (u1, [])
                                 end in
                 ~ In HASH u2 /\ ~ In QMARK u2).
  { intros u1 Hh. destruct (partition QMARK u1) as [[a b]|] eqn:Hp.
    - apply partition_some in Hp as [-> Hq]. split; [|assumption].
      intros H. apply Hh, in_or_app. now left.
    - apply partition_none in Hp. now split. }
  destruct (partition HASH url) as [[a b]|] eqn:Hp.
  - apply partition_some in Hp as [_ Hh]. specialize (H1 a Hh).
    cbv beta iota in *.
    destruct (partition QMARK a) as [[a0 b0]|]; exact H1.
  - apply partition_none in Hp. specialize (H1 url Hp).
    cbv beta iota in *.
    destruct (partition QMARK url) as [[a0 b0]|]; exact H1.
Qed.

Lemma scheme_cut_plain (u : str) (k : ascii) :
  k = HASH \/ k = QMARK -> ~ In k (fst (scheme_cut u)).
Proof.
  intros Hk. unfold scheme_cut.
  destruct (break_at (is_ch COLON) u) as [[|c0 pre] [|c1 post]];
    try (intros []).
  destruct (isascii_char c0 && is_ascii_alpha c0); cbn [andb]; [|intros []].
  destruct (forallb is_scheme_char (c0 :: pre)) eqn:Hall; [|intros []].
  cbn [fst]. intros Hin. apply in_map_iff in Hin as (c & Hc & Hin).
  rewrite forallb_forall in Hall. specialize (Hall c Hin).
  destruct (scheme_char_facts c Hall) as (_ & _ & _ & _ & _ & _ & Hq & Hh & _).
  destruct Hk; subst k; congruence.
Qed.

Lemma netloc_cut_plain (u nl rest : str) (k : ascii) :
  k = HASH \/ k = QMARK -> netloc_cut E u = Ok (nl, rest) -> ~ In k nl.
Proof.
  intros Hk. unfold netloc_cut.
  destruct u as [|c1 [|c2 r]]; try (intros [= <- _]; intros []).
  destruct (is_ch SLASH c1 && is_ch SLASH c2); [|intros [= <- _]; intros []].
  unfold _splitnetloc.
  pose proof (break_at_prefix is_netloc_delim r) as Hpre.
  destruct (break_at is_netloc_delim r) as [n0 r0]. cbn [fst] in Hpre.
  destruct (check_brackets E n0) as [[]|ex]; [|discriminate].
  cbn [bind]. intros [= <- _] Hin.
  rewrite Forall_forall in Hpre. specialize (Hpre k Hin).
  destruct Hk; subst k; discriminate.
Qed.

Lemma urlsplit_plain (url : str) (r : SplitResult) (k : ascii) :
  k = HASH \/ k = QMARK ->
  urlsplit E url [] = Ok r ->
  ~ In k (sp_scheme r) /\ ~ In k (sp_netloc r) /\ ~ In k (sp_url r).
Proof.
  intros Hk. rewrite urlsplit_cuts. cbv zeta.
  set (u := remove_unsafe (lstrip is_c0_control_or_space url)).
  destruct (netloc_cut E (snd (scheme_cut u))) as [[nl rest]|ex] eqn:Hnc;
    [|discriminate].
  cbn [bind]. destruct (_checknetloc E nl) as [[]|ex]; [|discriminate].
  cbn [bind]. intros [= <-]. cbn [sp_scheme sp_netloc sp_url].
  split; [now apply scheme_cut_plain|].
  split; [now apply (netloc_cut_plain _ _ _ k Hk Hnc)|].
  destruct (path_cut_plain rest). destruct Hk; subst k; assumption.
Qed.

Lemma splitparams_incl (url : str) (c : ascii) :
  In c (fst (_splitparams url)) -> In c url.
Proof.
  unfold _splitparams. destruct (contains SLASH url).
  - destruct (rfind SLASH url) as [j|]; [|trivial].
    destruct (partition SEMI (skipn j url)) as [[a b]|] eqn:Hp; [|trivial].
    apply partition_some in Hp as [Hs _]. cbn [fst]. intros H.
    rewrite <- (firstn_skipn j url), Hs.
    apply in_app_or in H as [H|H]; apply in_or_app; [now left | right].
    apply in_or_app. now left.
  - destruct (partition SEMI url) as [[a b]|] eqn:Hp; [|trivial].
    apply partition_some in Hp as [-> _]. cbn [fst]. intros H.
    apply in_or_app. now left.
Qed.

Lemma urlparse_plain (url : str) (p : ParseResult) (k : ascii) :
  k = HASH \/ k = QMARK ->
  urlparse E url [] = Ok p ->
  ~ In k (scheme p ++ netloc p ++ path p).
Proof.
  intros Hk. unfold urlparse.
  destruct (urlsplit E url []) as [r|ex] eqn:Hr; [|discriminate].
  destruct (urlsplit_plain url r k Hk Hr) as (Hs & Hn & Hu).
  cbn [bind].
  assert (Hpath : forall x : str * str,
            x = (if str_in (sp_scheme r) uses_params
                    && contains SEMI (sp_url r)
                 then _splitparams (sp_url r) else (sp_url r, [])) ->
            ~ In k (fst x)).
  { intros x ->. destruct (_ && _); [|exact Hu].
    intros H. now apply Hu, splitparams_incl. }
  specialize (Hpath _ eq_refl).
  destruct (if str_in (sp_scheme r) uses_params && contains SEMI (sp_url r)
            then _splitparams (sp_url r) else (sp_url r, [])) as [pa pr].
  intros [= <-]. cbn [scheme netloc path fst] in *.
  intros H. apply in_app_or in H as [H|H]; [contradiction|].
  apply in_app_or in H as [H|H]; contradiction.
Qed.

Lemma normalize_url_normal_form (cfg : config) (url out : str) :
  _normalize_url E cfg url = Ok out -> normal_form E cfg url out.
Proof.
  unfold _normalize_url.
  destruct (urljoin E (base_url cfg) url) as [joined|ex] eqn:Hj;
    [|discriminate]. cbn [bind].
  destruct (urlparse E joined []) as [parsed|ex] eqn:Hp; [|discriminate].
  cbn [bind]. intros [= <-].
  pose proof (urlparse_plain joined parsed HASH (or_introl eq_refl) Hp) as Hh.
  pose proof (urlparse_plain joined parsed QMARK (or_intror eq_refl) Hp) as Hq.
  assert (Hchars : forall k, ~ In k (scheme parsed ++ netloc parsed
                                       ++ path parsed) ->
                             k <> COLON -> k <> SLASH ->
                             ~ In k (rstrip (is_ch SLASH)
                                       (scheme parsed ++ lit "://"
                                        ++ netloc parsed ++ path parsed))).
  { intros k Hk Hc Hs Hin. apply rstrip_incl in Hin.
    apply in_app_or in Hin as [Hin|Hin].
    - apply Hk, in_or_app. now left.
    - cbn in Hin.
      destruct Hin as [<-|[<-|[<-|Hin]]];
        [now elim Hc | now elim Hs | now elim Hs |].
      apply Hk, in_or_app. now right. }
  split; [exists joined, parsed; now repeat split|].
  split; [apply Hchars; [assumption | discriminate | discriminate]|].
  split; [apply Hchars; [assumption | discriminate | discriminate]|].
  match goal with |- rstrip _ ?x = [] \/ _ => set (t := x) end.
  pose proof (rstrip_last (is_ch SLASH) t SLASH) as H.
  destruct (rstrip (is_ch SLASH) t) as [|c r]; [now left|right].
  intros Hl. rewrite Hl, is_ch_refl in H.
  assert (true = false) by (apply H; discriminate). discriminate.
Qed.

(** *** A URL written out from its components *)

Lemma well_formed_lower (s n p : str) (q f : option str) :
  well_formed_for E s n p q f ->
  well_formed_for E (lower s) n p (present q) (present f).
Proof.
  intros (Hs & Hn & Hp & Hq & Hf).
  split; [now apply valid_scheme_lower|]. split; [assumption|].
  split; [assumption|]. split.
  - destruct q as [[|c r]|]; cbn; trivial.
  - destruct f as [[|c r]|]; cbn; trivial.
Qed.

Lemma urlunparse_build (s n p : str) (q f : option str) :
  well_formed_for E s n p q f ->
  urlunparse {| scheme := lower s; netloc := n; path := p; params := [];
                query := text_of q; fragment := text_of f |}
  = build (lower s) n p (present q) (present f).
Proof.
  intros (Hs & Hn & Hp & _).
  unfold urlunparse, urlunsplit.
  cbn [params path scheme netloc query fragment nonempty].
  destruct Hn as (Hne & _). apply nonempty_true in Hne. rewrite Hne.
  cbn [orb].
  assert (Hp' : (if nonempty p && negb (startswith (lit "/") p)
                 then SLASH :: p else p) = p).
  { destruct Hp as ([->|(r & ->)] & _); reflexivity. }
  rewrite Hp'.
  assert (Hls : nonempty (lower s) = true)
    by (rewrite lower_nonempty; destruct s; [contradiction | reflexivity]).
  rewrite Hls. unfold build.
  destruct q as [[|c r]|], f as [[|c' r']|];
    cbn [text_of present marked nonempty];
    rewrite <- ?app_assoc; cbn [app];
    rewrite ?app_nil_r, <- ?app_assoc; reflexivity.
Qed.

Lemma uses_relative_uses_netloc (x : str) :
  str_in x uses_relative = true -> str_in x uses_netloc = true.
Proof.
  intros H. apply str_in_In in H. cbn in H.
  repeat (destruct H as [<-|H]; [vm_compute; reflexivity|]).
  contradiction.
Qed.

(** Joining an absolute URL with a network location: the URL itself, or
    the same URL put together again. *)
Lemma urljoin_build (base s n p : str) (q f : option str) :
  well_formed_for E s n p q f ->
  usable_base E base ->
  urljoin E base (build s n p q f) = Ok (build s n p q f)
  \/ urljoin E base (build s n p q f)
     = Ok (build (lower s) n p (present q) (present f)).
Proof.
  intros Hwf Hbase. unfold urljoin.
  destruct (nonempty base) eqn:Hb; cbn [negb]; [|now left].
  assert (Hu : nonempty (build s n p q f) = true).
  { destruct Hwf as (Hs & _). destruct s; [contradiction | reflexivity]. }
  rewrite Hu. cbn [negb].
  destruct Hbase as [->|(b & Hparse)]; [discriminate|].
  rewrite Hparse. cbn [bind].
  rewrite (urlparse_build E _ _ _ _ _ _ Hwf). cbn [bind scheme netloc].
  destruct (negb (str_eqb (lower s) (scheme b))
            || negb (str_in (lower s) uses_relative)) eqn:Hc; [now left|].
  apply orb_false_elim in Hc as [_ Hrel].
  apply negb_false_iff, uses_relative_uses_netloc in Hrel. rewrite Hrel.
  destruct Hwf as (Hs & Hn & Hrest). pose proof Hn as (Hne & _).
  apply nonempty_true in Hne. rewrite Hne. cbn [andb].
  right. f_equal. apply urlunparse_build.
  exact (conj Hs (conj Hn Hrest)).
Qed.

Lemma rstrip_after_netloc (s n p : str) :
  accepted_netloc E n ->
  rstrip (is_ch SLASH) (s ++ lit "://" ++ n ++ p)
  = s ++ lit "://" ++ n ++ rstrip (is_ch SLASH) p.
Proof.
  intros (Hne & _ & Hslash & _).
  destruct (exists_last Hne) as (n' & c & ->).
  assert (Hc : is_ch SLASH c = false).
  { apply is_ch_false. intros ->. apply Hslash, in_or_app. right. now left. }
  replace (s ++ lit "://" ++ (n' ++ [c]) ++ p)
    with (((s ++ lit "://" ++ n') ++ [c]) ++ p)
    by (now rewrite <- !app_assoc).
  rewrite rstrip_app_keep by assumption.
  now rewrite <- !app_assoc.
Qed.

Lemma normalize_url_build (cfg : config) (s n p : str) (q f : option str) :
  well_formed_for E s n p q f ->
  usable_base E (base_url cfg) ->
  normalizes_to_canonical E cfg s n p q f.
Proof.
  intros Hwf Hbase. unfold normalizes_to_canonical, _normalize_url, canonical.
  pose proof Hwf as (_ & Hn & _).
  destruct (urljoin_build (base_url cfg) s n p q f Hwf Hbase) as [-> | ->];
    cbn [bind].
  - rewrite (urlparse_build E _ _ _ _ _ _ Hwf). cbn [bind scheme netloc path].
    now rewrite rstrip_after_netloc.
  - rewrite (urlparse_build E _ _ _ _ _ _ (well_formed_lower _ _ _ _ _ Hwf)).
    cbn [bind scheme netloc path].
    now rewrite lower_idem, rstrip_after_netloc.
Qed.

Lemma crawler_normalize_url_build (s n p : str) (q f : option str) :
  well_formed_for E s n p q f ->
  Crawler.normalize_url E (build s n p q f) = Ok (canonical s n p).
Proof.
  intros Hwf. unfold Crawler.normalize_url.
  now rewrite (urlparse_build E _ _ _ _ _ _ Hwf).
Qed.

(** The canonical text is itself a URL written out from components. *)
Lemma canonical_build (s n p : str) :
  canonical s n p = build (lower s) n (rstrip (is_ch SLASH) p) None None.
Proof. unfold canonical, build. cbn [marked]. now rewrite !app_nil_r. Qed.

Lemma plain_path_rstrip (p : str) :
  plain_path p -> plain_path (rstrip (is_ch SLASH) p).
Proof.
  intros (Hhead & Hc & Hq & Hh & Hs). split.
  - destruct Hhead as [->|(r & ->)]; [now left|].
    destruct (rstrip_head (is_ch SLASH) SLASH r) as [->|(r' & ->)];
      [now left | right; now exists r'].
  - split; [now apply rstrip_forall|].
    repeat split; intros H; apply rstrip_incl in H; contradiction.
Qed.

Lemma well_formed_canonical (s n p : str) (q f : option str) :
  well_formed_for E s n p q f ->
  well_formed_for E (lower s) n (rstrip (is_ch SLASH) p) None None.
Proof.
  intros (Hs & Hn & Hp & _).
  split; [now apply valid_scheme_lower|]. split; [assumption|].
  split; [now apply plain_path_rstrip|]. now split.
Qed.

Lemma canonical_canonical (s n p : str) :
  canonical (lower s) n (rstrip (is_ch SLASH) p) = canonical s n p.
Proof. unfold canonical. now rewrite lower_idem, rstrip_idem. Qed.

(** Once [urljoin] has gone through, the base is one it can use. *)
Lemma urljoin_usable (base url joined : str) (p : ParseResult) :
  urljoin E base url = Ok joined -> urlparse E joined [] = Ok p ->
  usable_base E base.
Proof.
  unfold urljoin, usable_base. intros Hj Hp.
  destruct (nonempty base) eqn:Hb; cbn [negb] in Hj;
    [|left; now apply nonempty_false].
  destruct (nonempty url); cbn [negb] in Hj.
  - destruct (urlparse E base []) as [b|ex]; [|discriminate].
    right. now exists b.
  - injection Hj as <-. right. now exists p.
Qed.

Lemma canonical_of_absolute (url : str) (p : ParseResult) :
  urlparse E url [] = Ok p -> absolute p ->
  scheme p ++ lit "://" ++ netloc p ++ rstrip (is_ch SLASH) (path p)
  = canonical (scheme p) (netloc p) (path p)
  /\ rstrip (is_ch SLASH) (scheme p ++ lit "://" ++ netloc p ++ path p)
     = canonical (scheme p) (netloc p) (path p).
Proof.
  intros Hp Habs.
  destruct (urlparse_shape E url p Hp Habs) as [(_ & Hn & _) Hl].
  unfold canonical. rewrite Hl. split; [reflexivity|].
  now apply rstrip_after_netloc.
Qed.

(** The canonical text of an absolute parse is a fixed point. *)
Lemma canonical_fixed (cfg : config) (url : str) (p : ParseResult) :
  urlparse E url [] = Ok p -> absolute p ->
  usable_base E (base_url cfg) ->
  _normalize_url E cfg (canonical (scheme p) (netloc p) (path p))
  = Ok (canonical (scheme p) (netloc p) (path p)).
Proof.
  intros Hp Habs Hbase.
  destruct (urlparse_shape E url p Hp Habs) as [Hwf _].
  pose proof (well_formed_canonical _ _ _ _ _ Hwf) as Hwf'.
  pose proof (normalize_url_build cfg _ _ _ None None Hwf' Hbase) as H.
  unfold normalizes_to_canonical in H.
  now rewrite <- canonical_build, canonical_canonical in H.
Qed.

Lemma canonical_fixed_crawler (url : str) (p : ParseResult) :
  urlparse E url [] = Ok p -> absolute p ->
  Crawler.normalize_url E (canonical (scheme p) (netloc p) (path p))
  = Ok (canonical (scheme p) (netloc p) (path p)).
Proof.
  intros Hp Habs.
  destruct (urlparse_shape E url p Hp Habs) as [Hwf _].
  pose proof (well_formed_canonical _ _ _ _ _ Hwf) as Hwf'.
  pose proof (crawler_normalize_url_build _ _ _ None None Hwf') as H.
  now rewrite <- canonical_build, canonical_canonical in H.
Qed.

Lemma fixed_after_one_holds (cfg : config) (url joined : str)
  (p : ParseResult) :
  urljoin E (base_url cfg) url = Ok joined ->
  urlparse E joined [] = Ok p ->
  absolute p ->
  fixed_after_one E cfg url p.
Proof.
  intros Hj Hp Habs. unfold fixed_after_one. cbv zeta. split.
  - unfold _normalize_url. rewrite Hj. cbn [bind]. rewrite Hp. cbn [bind].
    f_equal. now apply (canonical_of_absolute joined).
  - apply (canonical_fixed cfg joined p Hp Habs).
    now apply (urljoin_usable _ url joined p).
Qed.

Lemma fixed_after_one_crawler_holds (url : str) (p : ParseResult) :
  urlparse E url [] = Ok p -> absolute p ->
  fixed_after_one_crawler E url p.
Proof.
  intros Hp Habs. unfold fixed_after_one_crawler. cbv zeta. split.
  - unfold Crawler.normalize_url. rewrite Hp. cbn [bind]. f_equal.
    now apply (canonical_of_absolute url).
  - now apply (canonical_fixed_crawler url).
Qed.

End NormalizeFacts.


(** C6 (amended). On any input it accepts, [_normalize_url] returns the
    scheme, [://], the network location and the path that [urlparse] finds
    in the URL resolved against [base_url], without the trailing slashes:
    a text with no [?], no [#] and no slash at its end; the host is not
    lowercased and the query is not kept.  In closed form, when [base_url]
    is empty or parses: on a well-formed [scheme://netloc path ?query
    #fragment] -- the scheme an ASCII letter followed by letters, digits,
    [+], [-] or [.]; the network location not empty, ASCII, without [/],
    [?], [#], [[] or []]; the path empty or led by a slash, without [?],
    [#] or [;]; the query without [#]; no tab, carriage return or line
    feed anywhere -- it returns the scheme in lower case, [://], the
    network location exactly as written, and the path without its
    trailing slashes. *)
Theorem C6_canonical_form (E : Externals) (cfg : EnhancedCrawler.config)
  (s n p : str) (q f : option str) :
  Url.well_formed s n p q f ->
  Normal.usable_base E (EnhancedCrawler.base_url cfg) ->
  Normal.normalizes_to_canonical E cfg s n p q f
  /\ (forall url out,
        EnhancedCrawler._normalize_url E cfg url = Ok out ->
        Normal.normal_form E cfg url out).
Proof.
  intros Hwf Hbase. split.
  - apply normalize_url_build; [|assumption]. now apply well_formed_accepted.
  - apply normalize_url_normal_form.
Qed.

Lemma sample_url_well_formed :
  Url.well_formed (lit "HTTPS") (lit "Example.COM") (lit "/a/")
    (Some (lit "x=1")) (Some (lit "top")).
Proof.
  split; [split; reflexivity|].
  split.
  { split; [discriminate|]. split; [reflexivity|].
    split; [repeat constructor|].
    repeat split; vm_compute; intuition discriminate. }
  split.
  { split; [right; now eexists|]. split; [repeat constructor|].
    repeat split; vm_compute; intuition discriminate. }
  split.
  { split; [repeat constructor | vm_compute; intuition discriminate]. }
  repeat constructor.
Defined.

Lemma sample_base_usable :
  Normal.usable_base sample_externals
    (EnhancedCrawler.base_url Retry.sample_config).
Proof. right. eexists. vm_compute. reflexivity. Defined.

Lemma C6_canonical_form_witness :
  EnhancedCrawler._normalize_url sample_externals Retry.sample_config
    (lit "HTTPS://Example.COM/a/?x=1#top")
  = Ok (lit "https://Example.COM/a").
Proof.
  destruct (C6_canonical_form sample_externals Retry.sample_config
              (lit "HTTPS") (lit "Example.COM") (lit "/a/")
              (Some (lit "x=1")) (Some (lit "top"))
              sample_url_well_formed sample_base_usable) as [H _].
  exact H.
Defined.

(** C6, as stated, fails: the host keeps its capitals and the query is
    dropped, where the claim has a lower-case host and the query kept. *)
Lemma C6_counterexample :
  EnhancedCrawler._normalize_url sample_externals Retry.sample_config
    (Url.build (lit "https") (lit "Example.COM") (lit "/a/")
       (Some (lit "x=1")) None)
  = Ok (lit "https://Example.COM/a")
  /\ Normal.canonical_as_specified (lit "https") (lit "Example.COM")
       (lit "/a/") (Some (lit "x=1"))
     = lit "https://example.com/a?x=1"
  /\ EnhancedCrawler._normalize_url sample_externals Retry.sample_config
       (Url.build (lit "https") (lit "Example.COM") (lit "/a/")
          (Some (lit "x=1")) None)
     <> Ok (Normal.canonical_as_specified (lit "https") (lit "Example.COM")
              (lit "/a/") (Some (lit "x=1"))).
Proof.
  split; [vm_compute; reflexivity|].
  split; [vm_compute; reflexivity|].
  vm_compute. discriminate.
Qed.

(** C7 (amended). Normalizing is idempotent wherever the URL, once
    resolved against [base_url], parses with a scheme, a network location
    and a path without [;]: [_normalize_url] of Crawler-v02.py returns the
    canonical text of that parse and, given that text, returns it again.
    The same holds for [normalize_url] of crawler.py where the URL itself
    parses so. *)
Theorem C7_normalize_idempotent (E : Externals)
  (cfg : EnhancedCrawler.config) (url joined : str)
  (p : Urllib.ParseResult) :
  Urllib.urljoin E (EnhancedCrawler.base_url cfg) url = Ok joined ->
  Urllib.urlparse E joined [] = Ok p ->
  Url.absolute p ->
  Normal.fixed_after_one E cfg url p
  /\ (forall p', Urllib.urlparse E url [] = Ok p' -> Url.absolute p' ->
                 Normal.fixed_after_one_crawler E url p').
Proof.
  intros Hj Hp Habs. split.
  - now apply (fixed_after_one_holds E cfg url joined).
  - intros p' Hp' Habs'. now apply fixed_after_one_crawler_holds.
Qed.

Lemma C7_normalize_idempotent_witness :
  let p := {| Urllib.scheme := lit "https"; Urllib.netloc := lit "example.com";
              Urllib.path := lit "/docs/a/"; Urllib.params := [];
              Urllib.query := lit "x=1"; Urllib.fragment := [] |} in
  Urllib.urljoin sample_externals
    (EnhancedCrawler.base_url Retry.sample_config) (lit "docs/a/?x=1")
  = Ok (lit "https://example.com/docs/a/?x=1")
  /\ Urllib.urlparse sample_externals (lit "https://example.com/docs/a/?x=1")
       [] = Ok p
  /\ Url.absolute p
  /\ EnhancedCrawler._normalize_url sample_externals Retry.sample_config
       (lit "docs/a/?x=1") = Ok (lit "https://example.com/docs/a")
  /\ EnhancedCrawler._normalize_url sample_externals Retry.sample_config
       (lit "https://example.com/docs/a") = Ok (lit "https://example.com/docs/a").
Proof.
  cbv zeta.
  assert (Habs : Url.absolute
            {| Urllib.scheme := lit "https";
               Urllib.netloc := lit "example.com";
               Urllib.path := lit "/docs/a/"; Urllib.params := [];
               Urllib.query := lit "x=1"; Urllib.fragment := [] |}).
  { split; [discriminate|]. split; [discriminate|].
    vm_compute. intuition discriminate. }
  split; [vm_compute; reflexivity|].
  split; [vm_compute; reflexivity|].
  split; [exact Habs|].
  destruct (C7_normalize_idempotent sample_externals Retry.sample_config
              (lit "docs/a/?x=1") (lit "https://example.com/docs/a/?x=1")
              _ eq_refl eq_refl Habs) as [[H1 H2] _].
  split; [exact H1 | exact H2].
Defined.

(** C7, as stated, fails where a path segment has parameters: the slash
    after [a;b] is stripped by the first pass, which makes [;b] the
    parameters of the last segment, dropped by the second pass.  So it is
    in both variants; in crawler.py it also fails on a relative link. *)
Lemma C7_counterexample :
  ~ Normal.idempotent_on sample_externals Retry.sample_config
      (lit "http://h/a;b/")
  /\ (EnhancedCrawler._normalize_url sample_externals Retry.sample_config
        (lit "http://h/a;b/") = Ok (lit "http://h/a;b")
      /\ EnhancedCrawler._normalize_url sample_externals Retry.sample_config
           (lit "http://h/a;b") = Ok (lit "http://h/a"))
  /\ (Crawler.normalize_url sample_externals (lit "http://h/a;b/")
      = Ok (lit "http://h/a;b")
      /\ Crawler.normalize_url sample_externals (lit "http://h/a;b")
         = Ok (lit "http://h/a"))
  /\ (Crawler.normalize_url sample_externals (lit "page.html")
      = Ok (lit "://page.html")
      /\ Crawler.normalize_url sample_externals (lit "://page.html")
         = Ok (lit "://://page.html")).
Proof.
  split.
  - intros [H _]. specialize (H (lit "http://h/a;b")).
    assert (Hn : EnhancedCrawler._normalize_url sample_externals
                   Retry.sample_config (lit "http://h/a;b/")
                 = Ok (lit "http://h/a;b")) by (vm_compute; reflexivity).
    specialize (H Hn). vm_compute in H. discriminate.
  - repeat split; vm_compute; reflexivity.
Qed.

(* ------------------------------------------------------------------ *)
(** ** The crawl loop ends *)

Section TurnsFacts.

Import EnhancedCrawler AtMostOnce Turns.

Variable E : Externals.

Lemma claimed_once_length (c : crawler) :
  claimed_once c ->
  length (seen_urls c) = (length (dispatched c) + length (queue c))%nat.
Proof.
  intros (Hnd & Hns & Heq). rewrite <- length_app.
  apply Nat.le_antisymm; apply NoDup_incl_length; trivial;
    intros u Hu; now apply Heq.
Qed.

Lemma handle_result_dispatched (cfg : config) (c : crawler)
  (r : str * option page_data) :
  dispatched (fst (handle_result E cfg c r)) = dispatched c.
Proof.
  destruct r as [url [d|]]; [|reflexivity].
  unfold handle_result.
  destruct (_extract_links E cfg (d_html d) url); [|reflexivity].
  now destruct (enqueue_links _ _).
Qed.

Lemma handle_results_dispatched (cfg : config)
  (rs : list (str * option page_data)) :
  forall c, dispatched (fst (handle_results E cfg c rs)) = dispatched c.
Proof.
  induction rs as [|r rs IH]; intros c; [reflexivity|].
  cbn [handle_results].
  pose proof (handle_result_dispatched cfg c r) as H1.
  destruct (handle_result E cfg c r) as [c1 [ex|]]; [exact H1|].
  rewrite IH. exact H1.
Qed.

(** What a turn of the loop does to the dispatched URLs, and when it
    starts. *)
Lemma crawl_step_dispatched (cfg : config) (process_batch : batch_processor)
  (c : crawler) :
  match crawl_step E cfg process_batch c with
  | Finished c' =>
      dispatched c' = dispatched c
      /\ (queue c = [] \/
          (max_pages cfg <= Z.of_nat (length (seen_urls c)))%Z)
  | Continue c' | Crashed _ c' =>
      dispatched c' = dispatched c ++ batch_of cfg c
      /\ queue c <> []
      /\ (Z.of_nat (length (seen_urls c)) < max_pages cfg)%Z
  end.
Proof.
  unfold crawl_step, batch_of.
  destruct (queue c) as [|u q] eqn:Hq; cbn [length Nat.eqb negb andb].
  - split; [reflexivity | now left].
  - destruct (Z.ltb_spec (Z.of_nat (length (seen_urls c))) (max_pages cfg))
      as [Hlt|Hge]; [|split; [reflexivity | now right]].
    set (k := Z.to_nat _).
    destruct (process_batch (firstn k (u :: q)) (shared c)) as [results s].
    destruct results as [results|ex];
      [|split; [reflexivity | split; [discriminate | exact Hlt]]].
    pose proof (handle_results_dispatched cfg
                  (combine (firstn k (u :: q)) results)
                  {| queue := skipn k (u :: q); seen_urls := seen_urls c;
                     shared := s;
                     dispatched := dispatched c ++ firstn k (u :: q) |})
      as H1.
    destruct (handle_results E cfg _ _) as [c1 [ex|]]; cbn [fst] in H1;
      (split; [exact H1 | split; [discriminate | exact Hlt]]).
Qed.

Lemma batch_of_length (cfg : config) (c : crawler) :
  (1 <= concurrent_requests cfg)%Z -> queue c <> [] ->
  (1 <= length (batch_of cfg c))%nat
  /\ (Z.of_nat (length (batch_of cfg c)) <= concurrent_requests cfg)%Z.
Proof.
  intros Hcr Hq. unfold batch_of. rewrite length_firstn.
  destruct (queue c) as [|u q]; [now elim Hq|]. cbn [length]. lia.
Qed.

Lemma crawl_loop_ends (cfg : config) (process_batch : batch_processor) :
  (1 <= concurrent_requests cfg)%Z ->
  forall (fuel : nat) (c : crawler),
    claimed_once c ->
    (1 <= fuel)%nat ->
    (max_pages cfg <= Z.of_nat fuel + Z.of_nat (length (dispatched c)))%Z ->
    (Z.of_nat (length (dispatched c)) <= dispatch_bound cfg)%Z ->
    exists o,
      crawl_loop E cfg process_batch fuel c = Some o
      /\ ended o
      /\ (Z.of_nat (length (dispatched (outcome_state o)))
          <= dispatch_bound cfg)%Z.
Proof.
  intros Hcr. induction fuel as [|fuel IH]; intros c Hc Hf Hm Hb; [lia|].
  cbn [crawl_loop].
  pose proof (crawl_step_dispatched cfg process_batch c) as Hd.
  pose proof (crawl_step_once E cfg process_batch c Hc) as Ho.
  pose proof (claimed_once_length c Hc) as Hl.
  destruct (crawl_step E cfg process_batch c) as [c1|c1|ex c1].
  - destruct Hd as (Hd & Hq & Hlt). cbn [outcome_state] in Ho.
    destruct (batch_of_length cfg c Hcr Hq) as [Hb1 Hb2].
    assert (Hq1 : (1 <= length (queue c))%nat)
      by (destruct (queue c); [now elim Hq | cbn; lia]).
    apply IH; trivial.
    + lia.
    + rewrite Hd, length_app. lia.
    + rewrite Hd, length_app. unfold dispatch_bound. lia.
  - exists (Finished c1). split; [reflexivity|]. split; [exact I|].
    cbn [outcome_state]. destruct Hd as [-> _]. exact Hb.
  - exists (Crashed ex c1). split; [reflexivity|]. split; [exact I|].
    cbn [outcome_state]. destruct Hd as (Hd & Hq & Hlt).
    destruct (batch_of_length cfg c Hcr Hq) as [Hb1 Hb2].
    assert (Hq1 : (1 <= length (queue c))%nat)
      by (destruct (queue c); [now elim Hq | cbn; lia]).
    rewrite Hd, length_app. unfold dispatch_bound. lia.
Qed.

(** X1. With at least one request per batch, [crawl] comes to an end
    within [max(1, max_pages)] evaluations of its loop condition, whatever
    the pages answer, and by then it has handed at most
    [max_pages - 2 + concurrent_requests] URLs to [_process_url]. *)
Theorem crawl_ends (cfg : config) (process_batch : batch_processor)
  (s : store) :
  (1 <= concurrent_requests cfg)%Z ->
  exists o,
    crawl E cfg process_batch (Z.to_nat (Z.max 1 (max_pages cfg))) s = Some o
    /\ ended o
    /\ (Z.of_nat (length (dispatched (outcome_state o)))
        <= dispatch_bound cfg)%Z.
Proof.
  intros Hcr. unfold crawl.
  apply crawl_loop_ends; trivial.
  - apply crawl_init_once.
  - lia.
  - cbn [crawl_init dispatched length]. lia.
  - cbn [crawl_init dispatched length]. unfold dispatch_bound. lia.
Qed.

(** X2. With [concurrent_requests <= 0] every batch is empty: when
    [max_pages] is at least 2 the loop of [crawl] never ends, and no URL is
    ever handed to [_process_url]. *)
Theorem crawl_hangs_without_concurrency (cfg : config)
  (process_batch : batch_processor) (s : store) (fuel : nat) :
  (concurrent_requests cfg <= 0)%Z ->
  (2 <= max_pages cfg)%Z ->
  gathers_nothing process_batch ->
  crawl E cfg process_batch fuel s = None
  /\ exists c, after_turns E cfg process_batch fuel (crawl_init cfg s)
               = Some c
               /\ dispatched c = []
               /\ queue c = [base_url cfg].
Proof.
  intros Hcr Hm Hg. unfold crawl.
  assert (Hstep : forall c, queue c = [base_url cfg] ->
                            seen_urls c = [base_url cfg] ->
                            dispatched c = [] ->
            exists c', crawl_step E cfg process_batch c = Continue c'
                       /\ queue c' = [base_url cfg]
                       /\ seen_urls c' = [base_url cfg]
                       /\ dispatched c' = []).
  { intros c Hq Hs Hd. unfold crawl_step. rewrite Hq, Hs, Hd.
    cbn [length Nat.eqb negb andb].
    destruct (Z.ltb_spec (Z.of_nat 1) (max_pages cfg)) as [_|]; [|lia].
    replace (Z.to_nat (Z.min (concurrent_requests cfg) (Z.of_nat 1)))
      with 0%nat by lia.
    cbn [firstn skipn app].
    destruct (Hg (shared c)) as [s' ->].
    cbn [combine handle_results queue seen_urls dispatched].
    eexists. split; [reflexivity|]. now repeat split. }
  assert (Hall : forall n c, queue c = [base_url cfg] ->
                             seen_urls c = [base_url cfg] ->
                             dispatched c = [] ->
            crawl_loop E cfg process_batch n c = None
            /\ exists c', after_turns E cfg process_batch n c = Some c'
                          /\ dispatched c' = []
                          /\ queue c' = [base_url cfg]).
  { induction n as [|n IH]; intros c Hq Hs Hd.
    - split; [reflexivity|]. exists c. now repeat split.
    - cbn [crawl_loop after_turns].
      destruct (Hstep c Hq Hs Hd) as (c' & -> & Hq' & Hs' & Hd').
      now apply IH. }
  apply Hall; reflexivity.
Qed.

End TurnsFacts.

Lemma crawl_hangs_without_concurrency_witness :
  EnhancedCrawler.crawl sample_externals Turns.idle_config
    (EnhancedCrawler.process_batch_seq sample_externals Turns.idle_config
       Cap.no_download Cap.index_world 0)
    50 Retry.sample_store = None.
Proof.
  apply (crawl_hangs_without_concurrency sample_externals Turns.idle_config
           (EnhancedCrawler.process_batch_seq sample_externals
              Turns.idle_config Cap.no_download Cap.index_world 0)
           Retry.sample_store 50).
  - cbn. lia.
  - cbn. lia.
  - intros s. exists s. reflexivity.
Defined.

Lemma crawl_ends_witness :
  exists o,
    EnhancedCrawler.crawl Cap.linking_externals (Cap.capped_config 2)
      (EnhancedCrawler.process_batch_seq Cap.linking_externals
         (Cap.capped_config 2) Cap.no_download Cap.index_world 0)
      2 Retry.sample_store = Some o
    /\ Turns.ended o.
Proof.
  destruct (crawl_ends Cap.linking_externals (Cap.capped_config 2)
              (EnhancedCrawler.process_batch_seq Cap.linking_externals
                 (Cap.capped_config 2) Cap.no_download Cap.index_world 0)
              Retry.sample_store) as (o & H & He & _).
  - cbn. lia.
  - exists o. split; [exact H | exact He].
Defined.

(* ------------------------------------------------------------------ *)
(** ** File names that are not taken *)

Section NamesFacts.

Import SafeFilename Names.

Lemma last_occurrence (k : ascii) (s : str) :
  In k s -> exists a seg, s = a ++ k :: seg /\ ~ In k seg.
Proof.
  induction s as [|c t IH]; [intros []|].
  intros Hin. destruct (in_dec ascii_dec k t) as [Ht|Ht].
  - destruct (IH Ht) as (a & seg & -> & Hseg).
    exists (c :: a), seg. now split.
  - destruct Hin as [->|Hin]; [|contradiction].
    exists [], t. now split.
Qed.

Lemma rfind_cases (k : ascii) (s : str) :
  (rfind k s = None /\ ~ In k s)
  \/ exists a seg, s = a ++ k :: seg /\ ~ In k seg
                   /\ rfind k s = Some (length a).
Proof.
  destruct (in_dec ascii_dec k s) as [Hin|Hout].
  - right. destruct (last_occurrence k s Hin) as (a & seg & -> & Hseg).
    exists a, seg. split; [reflexivity|]. split; [assumption|].
    now apply rfind_last.
  - left. split; [now apply rfind_without | assumption].
Qed.

(** [splitext] cuts its argument in two, the second part empty or led by
    a dot. *)
Lemma splitext_parts (p name ext : str) :
  OsPath.splitext p = (name, ext) ->
  p = name ++ ext /\ (ext = [] \/ exists t, ext = DOT :: t).
Proof.
  unfold OsPath.splitext.
  destruct (rfind_cases DOT p) as [[-> _]|(a & seg & Hp & _ & ->)].
  - intros [= <- <-]. rewrite app_nil_r. split; [reflexivity | now left].
  - destruct (_ && _).
    + intros [= <- <-]. rewrite firstn_skipn. split; [reflexivity|].
      right. rewrite Hp, skipn_app, Nat.sub_diag, skipn_all.
      cbn. now exists seg.
    + intros [= <- <-]. rewrite app_nil_r. split; [reflexivity | now left].
Qed.

Lemma str_of_nat_inj (i j : nat) : str_of_nat i = str_of_nat j -> i = j.
Proof.
  unfold str_of_nat. intros H.
  apply (f_equal string_of_list_ascii) in H.
  rewrite !string_of_list_ascii_of_string in H.
  assert (Hn : forall n, Nat.to_uint n <> Decimal.Nil).
  { intros n. rewrite <- (DecimalNat.Unsigned.of_to n) at 1.
    rewrite DecimalNat.Unsigned.to_of. apply DecimalFacts.unorm_nonnil. }
  apply DecimalNat.Unsigned.to_uint_inj.
  pose proof (DecimalString.NilZero.usu _ (Hn i)) as Hi.
  pose proof (DecimalString.NilZero.usu _ (Hn j)) as Hj.
  rewrite H in Hi. congruence.
Qed.

Lemma startswith_slash_app (a b : str) :
  a <> [] -> startswith [SLASH] (a ++ b) = startswith [SLASH] a.
Proof. destruct a; [now intros H; elim H | reflexivity]. Qed.

(** Whether a candidate is an absolute path depends on the original name
    only. *)
Lemma candidate_absolute (original : str) (k : nat) :
  startswith [SLASH] (candidate original k)
  = startswith [SLASH] (fst (OsPath.splitext original)).
Proof.
  unfold candidate.
  destruct (OsPath.splitext original) as [name ext] eqn:Hs. cbn [fst].
  destruct (splitext_parts _ _ _ Hs) as [Ho He].
  destruct name as [|c name].
  - destruct k as [|k].
    + rewrite Ho. destruct He as [->|[t ->]]; reflexivity.
    + reflexivity.
  - destruct k as [|k]; [rewrite Ho|]; reflexivity.
Qed.

Lemma candidate_inj (original : str) (i j : nat) :
  candidate original i = candidate original j -> i = j.
Proof.
  unfold candidate.
  destruct (OsPath.splitext original) as [name ext] eqn:Hs.
  destruct (splitext_parts _ _ _ Hs) as [Ho _].
  assert (Hne : forall k, name ++ ext <> name ++ lit "_" ++ str_of_nat k ++ ext).
  { intros k H. apply app_inv_head in H.
    apply (f_equal (@length ascii)) in H.
    rewrite !length_app in H. cbn in H. lia. }
  destruct i as [|i], j as [|j]; trivial.
  - rewrite Ho. intros H. now apply Hne in H.
  - rewrite Ho. intros H. symmetry in H. now apply Hne in H.
  - intros H. apply app_inv_head in H. apply app_inv_head in H.
    apply app_inv_tail in H. now apply str_of_nat_inj.
Qed.

(** Different candidates are different paths under [base_path]. *)
Lemma candidate_path_inj (base_path original : str) (i j : nat) :
  OsPath.join base_path (candidate original i)
  = OsPath.join base_path (candidate original j) -> i = j.
Proof.
  unfold OsPath.join. rewrite !candidate_absolute.
  destruct (startswith _ (fst _)); [apply candidate_inj|].
  destruct (_ || _); intros H; apply app_inv_head in H.
  - now apply candidate_inj in H.
  - injection H as H. now apply candidate_inj in H.
Qed.

Lemma NoDup_map_inj (f : nat -> str) (l : list nat) :
  (forall i j, f i = f j -> i = j) -> NoDup l -> NoDup (map f l).
Proof.
  intros Hinj. induction 1 as [|x l Hx Hnd IH]; cbn; constructor; trivial.
  intros Hin. apply in_map_iff in Hin as (y & Hy & Hl).
  apply Hinj in Hy. now subst.
Qed.

(** Names that are all taken are no more than the files. *)
Lemma taken_bound (f : nat -> str) (files : list str) (m : nat) :
  (forall i j, f i = f j -> i = j) ->
  (forall i, (i < m)%nat -> In (f i) files) ->
  (m <= length files)%nat.
Proof.
  intros Hinj Hall.
  rewrite <- (length_seq m 0), <- (length_map f).
  apply NoDup_incl_length.
  - apply NoDup_map_inj; [exact Hinj | apply seq_NoDup].
  - intros x Hx. apply in_map_iff in Hx as (i & <- & Hi).
    apply in_seq in Hi. apply Hall. lia.
Qed.

(** The first name that is not taken comes among the first
    [length files + 1]. *)
Lemma least_free (f : nat -> str) (files : list str) :
  (forall i j, f i = f j -> i = j) ->
  exists k, (k <= length files)%nat /\ ~ In (f k) files
            /\ forall i, (i < k)%nat -> In (f i) files.
Proof.
  intros Hinj.
  assert (Hsearch : forall d m,
             (forall i, (i < m)%nat -> In (f i) files) ->
             (length files - m < d)%nat ->
             exists k, (k <= length files)%nat /\ ~ In (f k) files
                       /\ forall i, (i < k)%nat -> In (f i) files).
  { induction d as [|d IH]; intros m Hall Hd; [lia|].
    pose proof (taken_bound f files m Hinj Hall) as Hm.
    destruct (in_dec str_eq_dec (f m) files) as [Hin|Hout].
    - assert (Hall' : forall i, (i < S m)%nat -> In (f i) files).
      { intros i Hi. destruct (Nat.eq_dec i m) as [->|Hne]; [assumption|].
        apply Hall. lia. }
      pose proof (taken_bound f files (S m) Hinj Hall') as Hm'.
      apply (IH (S m)); [assumption | lia].
    - exists m. split; [assumption|]. split; assumption. }
  apply (Hsearch (S (length files)) 0%nat); [intros i Hi; lia | lia].
Qed.

(** The loop returns the first candidate whose path does not exist. *)
Lemma unique_loop_first (os_path_exists : str -> bool)
  (base_path original : str) (d : nat) :
  forall j fuel,
    (forall i, (j <= i < j + d)%nat ->
       os_path_exists (OsPath.join base_path (candidate original i)) = true) ->
    os_path_exists (OsPath.join base_path (candidate original (j + d)))
    = false ->
    (d < fuel)%nat ->
    unique_loop os_path_exists base_path original fuel
      (candidate original j) (S j)
    = Some (candidate original (j + d)).
Proof.
  induction d as [|d IH]; intros j fuel Hall Hfree Hf;
    (destruct fuel as [|fuel]; [lia|]); cbn [unique_loop].
  - rewrite Nat.add_0_r in Hfree. rewrite Hfree. now rewrite Nat.add_0_r.
  - rewrite (Hall j) by lia.
    specialize (IH (S j) fuel).
    replace (S j + d)%nat with (j + S d)%nat in IH by lia.
    destruct (OsPath.splitext original) as [name ext] eqn:Hs.
    assert (Hc : candidate original (S j)
                 = name ++ lit "_" ++ str_of_nat (S j) ++ ext)
      by (unfold candidate; now rewrite Hs).
    rewrite <- Hc.
    apply IH; [intros i Hi; apply Hall; lia | assumption | lia].
Qed.

Lemma listed_In (files : list str) (p : str) :
  listed files p = true <-> In p files.
Proof. apply str_in_In. Qed.

Lemma listed_not_In (files : list str) (p : str) :
  listed files p = false <-> ~ In p files.
Proof.
  rewrite <- listed_In. destruct (listed files p); split; congruence.
Qed.

(** In a directory of finitely many files the function returns, and what
    it returns is the first candidate that is free. *)
Lemma generate_safe_filename_first (E : Externals)
  (guess_extension : str -> option str) (files : list str)
  (url base_path original : str) :
  original_filename E guess_extension url = Ok original ->
  exists k,
    (k <= length files)%nat
    /\ generate_safe_filename E guess_extension (listed files)
         (S (length files)) url base_path
       = Ok (Some (candidate original k))
    /\ ~ In (OsPath.join base_path (candidate original k)) files
    /\ forall i, (i < k)%nat ->
         In (OsPath.join base_path (candidate original i)) files.
Proof.
  intros Ho.
  destruct (least_free
              (fun i => OsPath.join base_path (candidate original i)) files
              (candidate_path_inj base_path original))
    as (k & Hk & Hfree & Hall).
  exists k. split; [assumption|]. split; [|split; assumption].
  unfold generate_safe_filename. rewrite Ho. cbn [bind]. f_equal.
  apply (unique_loop_first (listed files) base_path original k 0%nat).
  - intros i Hi. apply listed_In, Hall. lia.
  - now apply listed_not_In.
  - lia.
Qed.

(** X3. In a directory that holds finitely many files,
    [generate_safe_filename] returns after at most [length files + 1]
    tests; the name it returns is the original one when that is free and
    otherwise [name_kext] for the least [k] that is free, and no file
    exists under it. *)
Theorem generate_safe_filename_is_free (E : Externals)
  (guess_extension : str -> option str) (files : list str)
  (url base_path original : str) :
  original_filename E guess_extension url = Ok original ->
  exists k,
    (k <= length files)%nat
    /\ generate_safe_filename E guess_extension (listed files)
         (S (length files)) url base_path
       = Ok (Some (candidate original k))
    /\ listed files (OsPath.join base_path (candidate original k)) = false
    /\ forall i, (i < k)%nat ->
         listed files (OsPath.join base_path (candidate original i)) = true.
Proof.
  intros Ho.
  destruct (generate_safe_filename_first E guess_extension files url
              base_path original Ho) as (k & Hk & Hg & Hfree & Hall).
  exists k. split; [assumption|]. split; [assumption|].
  split; [now apply listed_not_In|].
  intros i Hi. now apply listed_In, Hall.
Qed.

Lemma written_paths_fresh (E : Externals)
  (guess_extension : str -> option str) (base_path : str)
  (urls : list str) :
  forall files,
    (forall url, In url urls ->
       exists o, original_filename E guess_extension url = Ok o) ->
    exists ps,
      written_paths E guess_extension base_path urls files = Ok ps
      /\ length ps = length urls
      /\ NoDup ps
      /\ forall p, In p ps -> ~ In p files.
Proof.
  induction urls as [|url rest IH]; intros files Hparse.
  - exists []. cbn. repeat split; [constructor | intros p []].
  - destruct (Hparse url (or_introl eq_refl)) as [o Ho].
    destruct (generate_safe_filename_first E guess_extension files url
                base_path o Ho) as (k & _ & Hg & Hfree & _).
    cbn [written_paths]. rewrite Hg. cbn [bind].
    set (p := OsPath.join base_path (candidate o k)) in *.
    destruct (IH (p :: files)) as (ps & -> & Hlen & Hnd & Hnew).
    { intros u Hu. apply Hparse. now right. }
    exists (p :: ps). cbn [bind length]. split; [reflexivity|].
    split; [now rewrite Hlen|]. split.
    + constructor; [|assumption]. intros Hin.
      apply (Hnew p Hin). now left.
    + intros q [<-|Hq]; [assumption|].
      intros Hin. apply (Hnew q Hq). now right.
Qed.

(** X4. Files saved one after the other into a directory, each under the
    name [generate_safe_filename] gives at that moment, all go to
    different paths, and none replaces a file that was there before. *)
Theorem sequential_downloads_never_overwrite (E : Externals)
  (guess_extension : str -> option str) (base_path : str)
  (urls files : list str) :
  (forall url, In url urls ->
     exists o, original_filename E guess_extension url = Ok o) ->
  exists ps,
    written_paths E guess_extension base_path urls files = Ok ps
    /\ length ps = length urls
    /\ NoDup ps
    /\ forall p, In p ps -> listed files p = false.
Proof.
  intros Hparse.
  destruct (written_paths_fresh E guess_extension base_path urls files
              Hparse) as (ps & Hw & Hlen & Hnd & Hnew).
  exists ps. repeat split; trivial.
  intros p Hp. now apply listed_not_In, Hnew.
Qed.

End NamesFacts.

Lemma generate_safe_filename_is_free_witness :
  exists k,
    (k <= 2)%nat
    /\ SafeFilename.generate_safe_filename sample_externals Names.no_guess
         (Names.listed [lit "files/doc/a.pdf"; lit "files/doc/a_1.pdf"])
         3 (lit "https://example.com/x/a.pdf") (lit "files/doc")
       = Ok (Some (Names.candidate (lit "a.pdf") k))
    /\ Names.listed [lit "files/doc/a.pdf"; lit "files/doc/a_1.pdf"]
         (OsPath.join (lit "files/doc") (Names.candidate (lit "a.pdf") k))
       = false
    /\ forall i, (i < k)%nat ->
         Names.listed [lit "files/doc/a.pdf"; lit "files/doc/a_1.pdf"]
           (OsPath.join (lit "files/doc") (Names.candidate (lit "a.pdf") i))
         = true.
Proof.
  apply (generate_safe_filename_is_free sample_externals Names.no_guess
           [lit "files/doc/a.pdf"; lit "files/doc/a_1.pdf"]
           (lit "https://example.com/x/a.pdf") (lit "files/doc")
           (lit "a.pdf")).
  vm_compute. reflexivity.
Defined.

Lemma sequential_downloads_never_overwrite_witness :
  exists ps,
    Names.written_paths sample_externals Names.no_guess (lit "files/doc")
      [lit "https://example.com/x/a.pdf"; lit "https://example.org/a.pdf"]
      [lit "files/doc/a.pdf"] = Ok ps
    /\ NoDup ps.
Proof.
  destruct (sequential_downloads_never_overwrite sample_externals
              Names.no_guess (lit "files/doc")
              [lit "https://example.com/x/a.pdf";
               lit "https://example.org/a.pdf"]
              [lit "files/doc/a.pdf"])
    as (ps & Hw & _ & Hnd & _).
  - intros url [<-|[<-|[]]]; eexists; vm_compute; reflexivity.
  - exists ps. split; assumption.
Defined.

(* ------------------------------------------------------------------ *)
(** ** Rotation and accounting of the proxy manager *)

Section RotationFacts.

Import ProxyManager EnhancedCrawler Rotation.

(** A call without sweep returns the current entry and moves on by one. *)
Lemma get_proxy_no_sweep (e : env) (pm : t) :
  no_sweep_due pm e ->
  (current_index pm < length (proxies pm))%nat ->
  get_proxy e pm
  = (Ok (turn pm 0),
     {| proxies := proxies pm;
        current_index := (current_index pm + 1) mod length (proxies pm);
        last_update := last_update pm;
        stats := {| total_used := total_used (stats pm) + 1;
                    successful_requests := successful_requests (stats pm);
                    failed_requests := failed_requests (stats pm);
                    rotations := rotations (stats pm) + 1 |} |}).
Proof.
  intros Hnow Hidx. unfold get_proxy, bump_total_used, turn.
  cbn [last_update proxies current_index stats].
  replace (update_interval <? now e - last_update pm)%Z with false
    by (symmetry; apply Z.ltb_ge; assumption).
  cbn [last_update proxies current_index stats total_used
       successful_requests failed_requests rotations].
  destruct (proxies pm) as [|p l] eqn:Hp; [cbn in Hidx; lia|].
  rewrite Nat.add_0_r, (Nat.mod_small (current_index pm)) by assumption.
  rewrite (nth_error_nth' (p :: l) direct Hidx). reflexivity.
Qed.

Lemma get_proxies_round_robin (es : list env) :
  forall pm,
    (current_index pm < length (proxies pm))%nat ->
    Forall (no_sweep_due pm) es ->
    fst (get_proxies es pm)
    = map (fun k => Ok (turn pm k)) (seq 0 (length es))
    /\ proxies (snd (get_proxies es pm)) = proxies pm
    /\ current_index (snd (get_proxies es pm))
       = ((current_index pm + length es) mod length (proxies pm))%nat
    /\ total_used (stats (snd (get_proxies es pm)))
       = (total_used (stats pm) + Z.of_nat (length es))%Z.
Proof.
  induction es as [|e es IH]; intros pm Hidx Hall.
  - cbn. rewrite Nat.add_0_r, Nat.mod_small by assumption.
    repeat split; lia.
  - inversion Hall as [|e' es' He Hes]; subst.
    cbn [get_proxies]. rewrite (get_proxy_no_sweep e pm He Hidx).
    set (pm1 := {| proxies := proxies pm |}).
    assert (Hn : length (proxies pm) <> 0%nat) by lia.
    destruct (IH pm1) as (H1 & H2 & H3 & H4).
    { cbn. now apply Nat.mod_upper_bound. }
    { exact Hes. }
    destruct (get_proxies es pm1) as [rs pm2]. cbn [fst snd] in *.
    split; [|split; [exact H2 | split]].
    + cbn [length seq map]. f_equal. rewrite H1, <- seq_shift, map_map.
      apply map_ext. intros k. unfold turn. cbn [proxies current_index pm1].
      rewrite Nat.Div0.add_mod_idemp_l.
      do 3 f_equal. lia.
    + rewrite H3. cbn [proxies current_index pm1 length].
      rewrite Nat.Div0.add_mod_idemp_l. f_equal. lia.
    + rewrite H4. cbn [stats total_used pm1 length]. lia.
Qed.

(** X5. Between two sweeps [get_proxy] goes round the list: from an index
    within the list, the [k]-th call (from 0) returns the entry
    [(current_index + k) mod len(proxies)], so that every [len(proxies)]
    calls in a row use each entry once; the list is left as it is. *)
Theorem get_proxy_round_robin (es : list env) (pm : t) :
  (current_index pm < length (proxies pm))%nat ->
  Forall (no_sweep_due pm) es ->
  fst (get_proxies es pm)
  = map (fun k => Ok (turn pm k)) (seq 0 (length es))
  /\ proxies (snd (get_proxies es pm)) = proxies pm
  /\ current_index (snd (get_proxies es pm))
     = ((current_index pm + length es) mod length (proxies pm))%nat
  /\ total_used (stats (snd (get_proxies es pm)))
     = (total_used (stats pm) + Z.of_nat (length es))%Z.
Proof. apply get_proxies_round_robin. Qed.

(** What [get_proxy] does to the counters. *)
Lemma get_proxy_stats (e : env) (pm : t) :
  let pm' := snd (get_proxy e pm) in
  total_used (stats pm') = (total_used (stats pm) + 1)%Z
  /\ successful_requests (stats pm') = successful_requests (stats pm)
  /\ failed_requests (stats pm') = failed_requests (stats pm).
Proof.
  unfold get_proxy.
  set (pm1 := if (update_interval <? now e - last_update (bump_total_used pm))%Z
              then _update_proxies (probes e) (now_after e) (bump_total_used pm)
              else bump_total_used pm).
  assert (H1 : stats pm1 = stats (bump_total_used pm))
    by (unfold pm1; now destruct (_ <? _)%Z).
  destruct (proxies pm1) as [|p l]; cbn [snd].
  - rewrite H1. cbn. repeat split.
  - destruct (nth_error (p :: l) (current_index pm1)); cbn [snd stats];
      rewrite ?H1; cbn; repeat split.
Qed.

Lemma try_request_stats (e : attempt_env) (url : str) (s : store) :
  let pm := proxy_manager s in
  let pm' := proxy_manager (snd (try_request e url s)) in
  total_used (stats pm') = (total_used (stats pm) + 1)%Z
  /\ successful_requests (stats pm') = successful_requests (stats pm)
  /\ failed_requests (stats pm') = failed_requests (stats pm).
Proof.
  cbv zeta. unfold try_request.
  pose proof (get_proxy_stats (proxy_env e) (proxy_manager s)) as H.
  cbv zeta in H.
  destruct (get_proxy (proxy_env e) (proxy_manager s)) as [[proxy|ex] pm1];
    cbn [snd] in H; [|exact H].
  destruct (send e _); exact H.
Qed.

Lemma handle_request_from_stats (cfg : config) (envs : nat -> attempt_env)
  (url : str) (remaining : nat) :
  forall attempt s,
    let result := _handle_request_from cfg envs url remaining attempt s in
    let pm := proxy_manager s in
    let pm' := proxy_manager (snd result) in
    let n := (Z.of_nat (Retry.attempts_in (effects (snd result)))
              - Z.of_nat (Retry.attempts_in (effects s)))%Z in
    (0 <= n <= Z.of_nat remaining)%Z
    /\ total_used (stats pm') = (total_used (stats pm) + n)%Z
    /\ successful_requests (stats pm')
       = (successful_requests (stats pm) + answered (fst result))%Z
    /\ failed_requests (stats pm')
       = (failed_requests (stats pm) + n - answered (fst result))%Z.
Proof.
  induction remaining as [|remaining IH]; intros attempt s; cbv zeta.
  - cbn. repeat split; lia.
  - cbn [_handle_request_from].
    pose proof (try_request_stats (envs attempt) url
                  (emit (Attempt url attempt) s)) as Ht.
    pose proof (try_request_store (envs attempt) url
                  (emit (Attempt url attempt) s)) as [pm1 Hs].
    cbv zeta in Ht.
    destruct (try_request (envs attempt) url (emit (Attempt url attempt) s))
      as [[r|ex] s1]; cbn [snd] in Ht, Hs; subst s1.
    + cbn [fst snd answered]. cbn in Ht |- *.
      rewrite attempts_in_app. cbn. destruct Ht as (-> & -> & ->).
      repeat split; lia.
    + match goal with
      | |- context [_handle_request_from _ _ _ _ _ ?s5] =>
          specialize (IH (S attempt) s5); cbv zeta in IH;
          assert (Hpm : stats (proxy_manager s5)
                        = stats (record_result false pm1)
                        /\ effects s5
                           = effects s ++ [Attempt url attempt;
                                           LogError url (attempt + 1) ex;
                                           Sleep (Z.of_nat attempt + 1)]);
          [|destruct (_handle_request_from cfg envs url remaining
                        (S attempt) s5) as [r s6]]
      end.
      { destruct (_ =? _)%Z; cbn; rewrite <- !app_assoc; now split. }
      destruct Hpm as [Hpm He]. rewrite Hpm, He in IH.
      rewrite attempts_in_app in IH. cbn in IH, Ht |- *.
      destruct Ht as (Ht1 & Ht2 & Ht3).
      rewrite Ht1, Ht2, Ht3 in IH.
      destruct IH as (I1 & I2 & I3 & I4).
      repeat split; lia.
Qed.

(** X6. [_handle_request] keeps the counters of the proxy manager in step
    with its attempts: [total_used] grows by the number of attempts made,
    [successful_requests] by one when a response is returned, and
    [failed_requests] by the number of attempts that failed; a manager
    whose [total_used] is the sum of the two others stays so. *)
Theorem handle_request_keeps_stats (cfg : config)
  (envs : nat -> attempt_env) (url : str) (s : store) :
  let result := _handle_request cfg envs url s in
  let pm := proxy_manager s in
  let pm' := proxy_manager (snd result) in
  let n := (Z.of_nat (Retry.attempts_in (effects (snd result)))
            - Z.of_nat (Retry.attempts_in (effects s)))%Z in
  (0 <= n <= Z.max 0 (max_retries cfg))%Z
  /\ total_used (stats pm') = (total_used (stats pm) + n)%Z
  /\ successful_requests (stats pm')
     = (successful_requests (stats pm) + answered (fst result))%Z
  /\ failed_requests (stats pm')
     = (failed_requests (stats pm) + n - answered (fst result))%Z
  /\ (balanced pm -> balanced pm').
Proof.
  cbv zeta. unfold _handle_request.
  pose proof (handle_request_from_stats cfg envs url
                (Z.to_nat (max_retries cfg)) 0%nat s) as H.
  cbv zeta in H. destruct H as (H0 & H1 & H2 & H3).
  split; [lia|]. split; [exact H1|]. split; [exact H2|].
  split; [exact H3|]. unfold balanced. lia.
Qed.

End RotationFacts.

Lemma get_proxy_round_robin_witness :
  fst (Rotation.get_proxies
         [ProxyFacts.early; ProxyFacts.early; ProxyFacts.early;
          ProxyFacts.early]
         (ProxyManager.init (ProxyManager.Content ProxyFacts.three_lines) 0))
  = map (fun k =>
           Ok (Rotation.turn
                 (ProxyManager.init
                    (ProxyManager.Content ProxyFacts.three_lines) 0) k))
      (seq 0 4).
Proof.
  apply (get_proxy_round_robin
           [ProxyFacts.early; ProxyFacts.early; ProxyFacts.early;
            ProxyFacts.early]
           (ProxyManager.init (ProxyManager.Content ProxyFacts.three_lines)
              0)).
  - vm_compute. lia.
  - repeat constructor; vm_compute; discriminate.
Defined.

(* ------------------------------------------------------------------ *)
(** ** The proxy file and the health sweep *)

Section ProxyListFacts.

Import ProxyManager Rotation.

Lemma split_cons_field (k : ascii) (a rest : str) :
  ~ In k a -> split k (a ++ k :: rest) = a :: split k rest.
Proof.
  intros Hno. induction a as [|c a IH]; cbn.
  - now rewrite is_ch_refl.
  - destruct (is_ch k c) eqn:Hc.
    + apply is_ch_true in Hc. exfalso. apply Hno. now left.
    + rewrite IH; [reflexivity|]. intros Hin. apply Hno. now right.
Qed.

Lemma join_cons (k : ascii) (x : str) (l : list str) :
  l <> [] -> join k (x :: l) = x ++ k :: join k l.
Proof. destruct l; [now intros H; elim H | reflexivity]. Qed.

Lemma join_split (k : ascii) (s : str) : join k (split k s) = s.
Proof.
  induction s as [|c s IH]; [reflexivity|]. cbn [split].
  pose proof (split_not_nil k s) as Hne.
  destruct (is_ch k c) eqn:Hc.
  - apply is_ch_true in Hc. subst c.
    rewrite join_cons by assumption. now rewrite IH.
  - destruct (split k s) as [|h r] eqn:Hs; [now elim Hne|].
    rewrite <- IH. destruct r; reflexivity.
Qed.

Lemma split_fields_without (k : ascii) (s : str) :
  Forall (fun h => ~ In k h) (split k s).
Proof.
  induction s as [|c s IH]; cbn [split].
  - constructor; [intros [] | constructor].
  - destruct (is_ch k c) eqn:Hc.
    + constructor; [intros [] | exact IH].
    + apply is_ch_false in Hc.
      destruct (split k s) as [|h r]; inversion IH; subst.
      * constructor; [|constructor]. intros [->|[]]. now elim Hc.
      * constructor; [|assumption].
        intros [->|Hin]; [now elim Hc | contradiction].
Qed.

Lemma split_four (k : ascii) (s a b c d : str) :
  split k s = [a; b; c; d]
  <-> s = a ++ k :: b ++ k :: c ++ k :: d
      /\ ~ In k a /\ ~ In k b /\ ~ In k c /\ ~ In k d.
Proof.
  split.
  - intros H. pose proof (join_split k s) as Hj.
    pose proof (split_fields_without k s) as Hf.
    rewrite H in Hj, Hf. cbn in Hj.
    inversion Hf as [|? ? Ha Hf1]; subst.
    inversion Hf1 as [|? ? Hb Hf2]; subst.
    inversion Hf2 as [|? ? Hc Hf3]; subst.
    inversion Hf3 as [|? ? Hd _]; subst.
    now repeat split.
  - intros (-> & Ha & Hb & Hc & Hd).
    rewrite !split_cons_field by assumption.
    now rewrite split_without.
Qed.

(** The lines [parse_line] accepts, and the entry it makes of each. *)
Lemma parse_line_four_fields_iff (line : str) (p : proxy) :
  parse_line line = Some p
  <-> exists ip port username password,
        ~ In COLON ip /\ ~ In COLON port
        /\ ~ In COLON username /\ ~ In COLON password
        /\ strip isspace line = line_of ip port username password
        /\ p = entry_of ip port username password.
Proof.
  unfold parse_line. split.
  - destruct (nonempty (strip isspace line)); cbn [negb]; [|discriminate].
    destruct (split COLON (strip isspace line))
      as [|ip [|port [|username [|password [|x r]]]]] eqn:Hs;
      try discriminate.
    intros [= <-]. apply split_four in Hs as (Hs & Ha & Hb & Hc & Hd).
    exists ip, port, username, password.
    repeat (split; [assumption|]). reflexivity.
  - intros (ip & port & username & password
            & Ha & Hb & Hc & Hd & Hs & ->).
    assert (H4 : split COLON (strip isspace line)
                 = [ip; port; username; password])
      by (apply split_four; now rewrite Hs).
    rewrite H4.
    replace (nonempty (strip isspace line)) with true; [reflexivity|].
    rewrite Hs. unfold line_of. now destruct ip.
Qed.

(** X8. [_load_proxies] makes an entry of a line exactly when the line,
    without the white space around it, is four fields separated by three
    colons; the entry then routes both [http] and [https] through
    [http://username:password@ip:port].  A blank line, or one with more or
    fewer fields -- a password that holds a colon, say -- gives no
    entry. *)
Theorem parse_line_four_fields (line : str) (p : proxy) :
  parse_line line = Some p
  <-> exists ip port username password,
        ~ In COLON ip /\ ~ In COLON port
        /\ ~ In COLON username /\ ~ In COLON password
        /\ strip isspace line = line_of ip port username password
        /\ p = entry_of ip port username password.
Proof. apply parse_line_four_fields_iff. Qed.

Lemma filter_map_In {A B : Type} (f : A -> option B) (l : list A) (y : B) :
  In y (filter_map f l) <-> exists x, In x l /\ f x = Some y.
Proof.
  induction l as [|a l IH]; cbn.
  - split; [intros [] | intros (x & [] & _)].
  - destruct (f a) as [b|] eqn:Hf; cbn; rewrite IH; split.
    + intros [<-|(x & Hx & Hy)]; [now exists a; split; [left|]|].
      exists x. split; [now right | assumption].
    + intros (x & [<-|Hx] & Hy); [left; congruence | right; now exists x].
    + intros (x & Hx & Hy). exists x. split; [now right | assumption].
    + intros (x & [<-|Hx] & Hy); [congruence | now exists x].
Qed.

Lemma filter_map_length {A B : Type} (f : A -> option B) (l : list A) :
  length (filter_map f l)
  = length (filter (fun x => match f x with Some _ => true | None => false end)
              l).
Proof.
  induction l as [|a l IH]; cbn; [reflexivity|].
  destruct (f a); cbn; now rewrite IH.
Qed.

Lemma speed_le_total (a b : proxy) :
  speed_le a b = false -> speed_le b a = true.
Proof.
  unfold speed_le. destruct (speed a), (speed b); try discriminate; trivial.
  intros H. apply Z.leb_gt in H. apply Z.leb_le. lia.
Qed.

Lemma speed_le_trans (a b c : proxy) :
  speed_le a b = true -> speed_le b c = true -> speed_le a c = true.
Proof.
  unfold speed_le. destruct (speed a), (speed b), (speed c);
    try discriminate; trivial.
  rewrite !Z.leb_le. lia.
Qed.

Lemma insert_sorted_perm (p : proxy) (l : list proxy) :
  Permutation (insert_sorted p l) (p :: l).
Proof.
  induction l as [|q l IH]; cbn; [reflexivity|].
  destruct (speed_le p q); [reflexivity|].
  rewrite IH. apply perm_swap.
Qed.

Lemma sorted_by_speed_perm (l : list proxy) :
  Permutation (sorted_by_speed l) l.
Proof.
  induction l as [|p l IH]; [reflexivity|].
  change (sorted_by_speed (p :: l)) with (insert_sorted p (sorted_by_speed l)).
  rewrite insert_sorted_perm. now constructor.
Qed.

Lemma insert_sorted_ascending (p : proxy) (l : list proxy) :
  ascending l -> ascending (insert_sorted p l).
Proof.
  unfold ascending. induction 1 as [|q l Hl IH Hq]; cbn.
  - repeat constructor.
  - destruct (speed_le p q) eqn:Hpq.
    + constructor; [now constructor|].
      constructor; [assumption|].
      rewrite Forall_forall in Hq |- *. intros x Hx.
      eapply speed_le_trans; [exact Hpq | now apply Hq].
    + constructor; [assumption|].
      rewrite Forall_forall in Hq |- *. intros x Hx.
      apply (Permutation_in _ (insert_sorted_perm p l)) in Hx.
      destruct Hx as [<-|Hx]; [now apply speed_le_total | now apply Hq].
Qed.

Lemma sorted_by_speed_ascending (l : list proxy) :
  ascending (sorted_by_speed l).
Proof.
  induction l as [|p l IH]; [constructor|].
  change (sorted_by_speed (p :: l)) with (insert_sorted p (sorted_by_speed l)).
  now apply insert_sorted_ascending.
Qed.

(** X7. After a health sweep the list holds the entries that answered the
    probe, and only those, each with the time its probe took, from the
    fastest to the slowest; when none answered it holds the direct
    connection alone.  The sweep never makes the list longer. *)
Theorem update_proxies_keeps_working (pr : probe) (now : Z) (pm : t) :
  let l' := proxies (_update_proxies pr now pm) in
  ((forall p, In p (proxies pm) -> pr p = None) -> l' = [direct])
  /\ ((exists p, In p (proxies pm) /\ pr p <> None) ->
      (forall q, In q l' <-> exists p, In p (proxies pm) /\ measured pr p q)
      /\ ascending l'
      /\ length l'
         = length (filter (fun p => match pr p with
                                    | Some _ => true
                                    | None => false
                                    end) (proxies pm))
      /\ (length l' <= length (proxies pm))%nat).
Proof.
  cbv zeta. unfold _update_proxies. cbn [proxies].
  set (f := fun p => match pr p with
                     | Some t => Some {| http := http p; https := https p;
                                         speed := Some t |}
                     | None => None
                     end).
  assert (Hin : forall q, In q (_test_all_proxies pr (proxies pm))
                          <-> exists p, In p (proxies pm) /\ measured pr p q).
  { intros q. unfold _test_all_proxies. fold f. rewrite filter_map_In.
    split; intros (p & Hp & Hq); exists p; (split; [assumption|]).
    - unfold f in Hq. destruct (pr p) as [t|] eqn:Ht; [|discriminate].
      exists t. split; [assumption | congruence].
    - destruct Hq as (t & Ht & ->). unfold f. now rewrite Ht. }
  assert (Hlen : length (_test_all_proxies pr (proxies pm))
                 = length (filter (fun p => match pr p with
                                            | Some _ => true
                                            | None => false
                                            end) (proxies pm))).
  { unfold _test_all_proxies. rewrite filter_map_length.
    f_equal. apply filter_ext. intros p. now destruct (pr p). }
  split.
  - intros Hnone.
    destruct (_test_all_proxies pr (proxies pm)) as [|q l] eqn:Hw;
      [reflexivity|].
    destruct (proj1 (Hin q) (or_introl eq_refl)) as (p & Hp & t & Ht & _).
    rewrite (Hnone p Hp) in Ht. discriminate.
  - intros (p & Hp & Hsome).
    destruct (_test_all_proxies pr (proxies pm)) as [|q l] eqn:Hw.
    + exfalso. destruct (pr p) as [t|] eqn:Ht; [|now elim Hsome].
      apply (proj2 (Hin {| http := http p; https := https p;
                           speed := Some t |})).
      exists p. split; [assumption|]. now exists t.
    + split; [|split; [apply sorted_by_speed_ascending|split]].
      * intros x. rewrite <- Hin. split; intros Hx.
        -- now apply (Permutation_in _ (sorted_by_speed_perm (q :: l))).
        -- now apply (Permutation_in _
                        (Permutation_sym (sorted_by_speed_perm (q :: l)))).
      * now rewrite sorted_by_speed_length.
      * rewrite sorted_by_speed_length, Hlen. apply filter_length_le.
Qed.

End ProxyListFacts.

(* ------------------------------------------------------------------ *)
(** ** Links stay on the site *)

Section LinksFacts.

Import Urllib Url EnhancedCrawler Normal Links.

Variable E : Externals.

Lemma collect_links_from (cfg : config) (hrefs : list str) :
  forall acc links,
    collect_links E cfg hrefs acc = Ok links ->
    forall l, In l links ->
      In l acc
      \/ exists href, In href hrefs
                      /\ _normalize_url E cfg href = Ok l
                      /\ _is_valid_url E cfg l = Ok true.
Proof.
  induction hrefs as [|href rest IH]; intros acc links; cbn [collect_links].
  - intros [= <-] l Hl. now left.
  - destruct (_normalize_url E cfg href) as [url|ex] eqn:Hn; [|discriminate].
    cbn [bind].
    destruct (_is_valid_url E cfg url) as [valid|ex] eqn:Hv; [|discriminate].
    cbn [bind]. intros Hc l Hl.
    destruct (IH _ _ Hc l Hl) as [Hacc|(h & Hh & Hn' & Hv')].
    + destruct valid.
      * apply in_app_or in Hacc as [Hacc|[<-|[]]]; [now left|].
        right. exists href. split; [now left | now split].
      * now left.
    + right. exists h. split; [now right | now split].
Qed.

Lemma valid_url_in_scope (cfg : config) (href l : str) :
  _normalize_url E cfg href = Ok l ->
  _is_valid_url E cfg l = Ok true ->
  in_scope E cfg l.
Proof.
  intros Hn Hv.
  destruct (normalize_url_normal_form E cfg href l Hn)
    as (_ & Hh & Hq & Hl).
  unfold _is_valid_url in Hv.
  destruct (nonempty l) eqn:Hne; cbn [negb] in Hv; [|discriminate].
  apply nonempty_true in Hne.
  destruct (urlparse E l []) as [p|ex] eqn:Hp; [|discriminate].
  cbn [bind] in Hv.
  destruct (nonempty (netloc p) && negb (str_eqb (netloc p) (domain cfg)))
    eqn:Hd; [discriminate|].
  injection Hv as Hv. apply negb_true_iff in Hv.
  apply orb_false_iff in Hv as [Hv Hs].
  apply orb_false_iff in Hv as [Ha _].
  split.
  { exists p. split; [assumption|].
    apply andb_false_iff in Hd as [Hd|Hd].
    - left. now apply nonempty_false.
    - right. apply negb_false_iff in Hd. now apply str_eqb_eq. }
  split; [assumption|]. split; [assumption|]. split; [assumption|].
  split; [|now split].
  destruct Hl as [->|Hl]; [now elim Hne | assumption].
Qed.

(** X9. Every link [_extract_links] returns is the normal form of an
    [href] of the page and is in scope: it parses, its network location is
    empty or the crawled domain, it has no query, no fragment and no
    trailing slash, it holds none of [login], [logout], [signin],
    [signout], [auth] in any case, and it does not end in [.css], [.js],
    [.json] or [.xml]. *)
Theorem extracted_links_in_scope (cfg : config) (html source_url : str)
  (links : list str) :
  set_of_its_list E ->
  _extract_links E cfg html source_url = Ok links ->
  forall l, In l links ->
    (exists hrefs href,
        soup_hrefs E html = Ok hrefs /\ In href hrefs
        /\ _normalize_url E cfg href = Ok l)
    /\ in_scope E cfg l.
Proof.
  intros Hset. unfold _extract_links.
  destruct (soup_hrefs E html) as [hrefs|ex]; [|discriminate]. cbn [bind].
  destruct (collect_links E cfg hrefs []) as [ls|ex] eqn:Hc; [|discriminate].
  cbn [bind]. intros [= <-] l Hl. apply Hset in Hl.
  destruct (collect_links_from cfg hrefs [] ls Hc l Hl)
    as [[]|(href & Hh & Hn & Hv)].
  split.
  - exists hrefs, href. now repeat split.
  - now apply (valid_url_in_scope cfg href).
Qed.

End LinksFacts.

Lemma extracted_links_in_scope_witness :
  Links.in_scope Cap.linking_externals (Cap.capped_config 2)
    (lit "https://example.com/b").
Proof.
  apply (extracted_links_in_scope Cap.linking_externals
           (Cap.capped_config 2) Cap.index_body
           (lit "https://example.com")
           [lit "https://example.com/a"; lit "https://example.com/b";
            lit "https://example.com/c"]).
  - intros x y H. exact H.
  - vm_compute. reflexivity.
  - right. left. reflexivity.
Defined.

(* ------------------------------------------------------------------ *)
(** ** What the retry loops of crawler4.py and Code.py record *)

Section FetchFacts.

Import EnhancedCrawler Fetch FetchLaws.

Variable E : Externals.

Lemma sleeps_in_app (a b : list effect) :
  sleeps_in (a ++ b) = (sleeps_in a + sleeps_in b)%nat.
Proof.
  induction a as [|e a IH]; [reflexivity|].
  destruct e; cbn; now rewrite IH.
Qed.

(** The body of the [try] sleeps no time, starts no attempt and leaves the
    failed set alone. *)
Lemma crawler4_attempt_body_keeps (now : Z) (url : str)
  (r : Crawler4.reply) (s : state) :
  let s' := snd (Crawler4.attempt_body E now url r s) in
  Fetch.failed_urls s' = Fetch.failed_urls s
  /\ sleeps_in (Fetch.effects s') = sleeps_in (Fetch.effects s)
  /\ Retry.attempts_in (Fetch.effects s')
     = Retry.attempts_in (Fetch.effects s).
Proof.
  cbv zeta. unfold Crawler4.attempt_body.
  destruct r as [response|ex]; [|now repeat split].
  destruct (_ && _); [now repeat split|].
  destruct (negb _).
  { cbn. rewrite sleeps_in_app, attempts_in_app. cbn. repeat split; lia. }
  destruct (set_mem _ _ _).
  { cbn. rewrite sleeps_in_app, attempts_in_app. cbn. repeat split; lia. }
  destruct (soup_title E _); [destruct (soup_stripped_strings E _)|];
    now repeat split.
Qed.

Lemma crawler4_fetch_from_exhaustion (sends : nat -> Crawler4.reply)
  (now : Z) (url : str) (remaining : nat) :
  forall attempt s,
    let result := Crawler4._fetch_url_from E sends now url remaining attempt s in
    let s' := snd result in
    exists k,
      (k <= remaining)%nat
      /\ sleeps_in (Fetch.effects s') = (sleeps_in (Fetch.effects s) + k)%nat
      /\ (k = remaining ->
          fst result = None
          /\ Fetch.failed_urls s'
             = set_add str_eq_dec url (Fetch.failed_urls s)
          /\ Retry.attempts_in (Fetch.effects s')
             = (Retry.attempts_in (Fetch.effects s) + remaining)%nat)
      /\ ((k < remaining)%nat ->
          Fetch.failed_urls s' = Fetch.failed_urls s
          /\ Retry.attempts_in (Fetch.effects s')
             = (Retry.attempts_in (Fetch.effects s) + k + 1)%nat).
Proof.
  induction remaining as [|remaining IH]; intros attempt s; cbv zeta.
  - exists 0%nat. cbn. repeat split; lia.
  - cbn [Crawler4._fetch_url_from].
    pose proof (crawler4_attempt_body_keeps now url (sends attempt)
                  (emit (Attempt url attempt) s)) as Hb.
    cbv zeta in Hb.
    destruct (Crawler4.attempt_body E now url (sends attempt)
                (emit (Attempt url attempt) s)) as [[returned|ex] s1];
      cbn [snd fst] in Hb |- *; destruct Hb as (Hf & Hs & Ha);
      cbn in Hf, Hs, Ha; rewrite ?sleeps_in_app, ?attempts_in_app in *;
      cbn in Hs, Ha.
    + exists 0%nat. split; [lia|]. split; [lia|].
      split; [lia|]. intros _. split; [assumption | lia].
    + specialize (IH (S attempt)
                    (emit (Sleep (Z.of_nat attempt + 1))
                       (emit (LogError url (attempt + 1) ex) s1))).
      cbv zeta in IH. destruct IH as (k & Hk & Hsl & Hex & Hlt).
      cbn in Hsl, Hex, Hlt.
      rewrite ?sleeps_in_app, ?attempts_in_app in *. cbn in Hsl, Hex, Hlt.
      exists (S k). split; [lia|]. split; [lia|]. split.
      * intros Hkr. destruct Hex as (H1 & H2 & H3); [lia|].
        split; [assumption|]. split; [now rewrite H2, Hf | lia].
      * intros Hkr. destruct Hlt as (H1 & H2); [lia|].
        split; [now rewrite H1 | lia].
Qed.

(** X10. [_fetch_url] of crawler4.py makes one more attempt after each
    one that raised, up to [max_retries]; the URL enters [failed_urls]
    exactly when all of them raised -- also when [max_retries] is 0 or
    less, in which case no request is made at all. *)
Theorem crawler4_fetch_records_exhaustion (max_retries : Z)
  (sends : nat -> Crawler4.reply) (now : Z) (url : str) (s : state) :
  let result := Crawler4._fetch_url E max_retries sends now url s in
  let s' := snd result in
  let n := Z.to_nat max_retries in
  (exists k,
      (k <= n)%nat
      /\ sleeps_in (Fetch.effects s') = (sleeps_in (Fetch.effects s) + k)%nat
      /\ (k = n ->
          fst result = None
          /\ Fetch.failed_urls s'
             = set_add str_eq_dec url (Fetch.failed_urls s)
          /\ Retry.attempts_in (Fetch.effects s')
             = (Retry.attempts_in (Fetch.effects s) + n)%nat)
      /\ ((k < n)%nat ->
          Fetch.failed_urls s' = Fetch.failed_urls s
          /\ Retry.attempts_in (Fetch.effects s')
             = (Retry.attempts_in (Fetch.effects s) + k + 1)%nat))
  /\ ((max_retries <= 0)%Z -> result = (None, add_failed_url url s)).
Proof.
  cbv zeta. split.
  - apply crawler4_fetch_from_exhaustion.
  - intros Hm. unfold Crawler4._fetch_url.
    replace (Z.to_nat max_retries) with 0%nat by lia. reflexivity.
Qed.

Lemma crawler4_attempt_parse_raises (now : Z) (url : str)
  (r : Crawler4.response) (ex : exn) (s : state) :
  html_page r ->
  ~ In (md5 E (Crawler4.content r)) (Fetch.content_hashes s) ->
  parse_raises E (Crawler4.text r) ex ->
  Crawler4.attempt_body E now url (Crawler4.Responds r) s
  = (Raise ex, add_content_hash (md5 E (Crawler4.content r)) s).
Proof.
  intros (Hs & Hc) Hfresh Hparse. unfold Crawler4.attempt_body.
  replace (400 <=? Crawler4.status_code r)%Z with false
    by (symmetry; apply Z.leb_gt; assumption).
  cbn [andb]. rewrite Hc. cbn [negb].
  replace (set_mem str_eq_dec (md5 E (Crawler4.content r))
             (Fetch.content_hashes s))
    with false by (symmetry; now apply set_mem_not_In).
  destruct Hparse as [->|[[t ->] ->]]; reflexivity.
Qed.

Lemma crawler4_attempt_duplicate (now : Z) (url : str)
  (r : Crawler4.response) (s : state) :
  html_page r ->
  In (md5 E (Crawler4.content r)) (Fetch.content_hashes s) ->
  Crawler4.attempt_body E now url (Crawler4.Responds r) s
  = (Ok None, emit (LogInfo url) s).
Proof.
  intros (Hs & Hc) Hin. unfold Crawler4.attempt_body.
  replace (400 <=? Crawler4.status_code r)%Z with false
    by (symmetry; apply Z.leb_gt; assumption).
  cbn [andb]. rewrite Hc. cbn [negb].
  replace (set_mem str_eq_dec (md5 E (Crawler4.content r))
             (Fetch.content_hashes s))
    with true by (symmetry; now apply set_mem_In).
  reflexivity.
Qed.

(** X11. In crawler4.py the digest of a body is recorded before the body
    is parsed: when parsing raises, the retry that receives the same body
    finds the digest, takes the page for a duplicate and returns nothing;
    the page is lost and its URL is not in [failed_urls]. *)
Theorem crawler4_unparsable_page_is_dropped (max_retries : Z)
  (sends : nat -> Crawler4.reply) (now : Z) (url : str) (s : state)
  (r0 r1 : Crawler4.response) (ex : exn) :
  (2 <= max_retries)%Z ->
  sends 0%nat = Crawler4.Responds r0 ->
  sends 1%nat = Crawler4.Responds r1 ->
  html_page r0 -> html_page r1 ->
  Crawler4.content r1 = Crawler4.content r0 ->
  ~ In (md5 E (Crawler4.content r0)) (Fetch.content_hashes s) ->
  parse_raises E (Crawler4.text r0) ex ->
  let result := Crawler4._fetch_url E max_retries sends now url s in
  fst result = None
  /\ Fetch.failed_urls (snd result) = Fetch.failed_urls s
  /\ In (md5 E (Crawler4.content r0)) (Fetch.content_hashes (snd result))
  /\ Fetch.effects (snd result)
     = Fetch.effects s
       ++ [Attempt url 0; LogError url 1 ex; Sleep 1; Attempt url 1;
           LogInfo url].
Proof.
  intros Hm H0 H1 Hp0 Hp1 Hsame Hfresh Hparse.
  cbv zeta. unfold Crawler4._fetch_url.
  destruct (Z.to_nat max_retries) as [|[|n]] eqn:Hn; [lia | lia |].
  cbn [Crawler4._fetch_url_from]. rewrite H0, H1.
  rewrite (crawler4_attempt_parse_raises now url r0 ex
             (emit (Attempt url 0) s) Hp0 Hfresh Hparse).
  rewrite crawler4_attempt_duplicate;
    [|assumption
     |rewrite Hsame; cbn; apply set_add_intro2; reflexivity].
  cbn. rewrite <- ?app_assoc. cbn.
  split; [reflexivity|]. split; [reflexivity|].
  split; [apply set_add_intro2; reflexivity | reflexivity].
Qed.

Lemma codepy_attempt_body_keeps (now : Z) (url : str)
  (r : CodePy.reply) (s : state) :
  let s' := snd (CodePy.attempt_body E now url r s) in
  Fetch.failed_urls s' = Fetch.failed_urls s
  /\ Retry.attempts_in (Fetch.effects s')
     = Retry.attempts_in (Fetch.effects s).
Proof.
  cbv zeta. unfold CodePy.attempt_body, CodePy._get_request.
  destruct r as [response|ex].
  2:{ cbn. rewrite !attempts_in_app. cbn. split; [reflexivity | lia]. }
  destruct (negb _).
  { cbn. rewrite attempts_in_app. cbn. split; [reflexivity | lia]. }
  destruct (CodePy.read response); [|now split].
  destruct (set_mem _ _ _).
  { cbn. rewrite attempts_in_app. cbn. split; [reflexivity | lia]. }
  destruct (CodePy.text response); [|now split].
  destruct (soup_title E _); [destruct (soup_stripped_strings E _)|];
    now split.
Qed.

Lemma codepy_failed_request_returns (now : Z) (url : str) (ex : exn)
  (s : state) :
  fst (CodePy.attempt_body E now url (CodePy.Fails ex) s) = Ok None.
Proof. reflexivity. Qed.

Lemma codepy_fetch_from_failed_request (sends : nat -> CodePy.reply)
  (now : Z) (url : str) (i : nat) (ex : exn) (remaining : nat) :
  sends i = CodePy.Fails ex ->
  forall attempt s,
    (attempt <= i < attempt + remaining)%nat ->
    let s' := snd (CodePy._fetch_url_from E sends now url remaining attempt s)
    in
    Fetch.failed_urls s' = Fetch.failed_urls s
    /\ (Retry.attempts_in (Fetch.effects s')
        <= Retry.attempts_in (Fetch.effects s) + (i - attempt) + 1)%nat.
Proof.
  intros Hi. induction remaining as [|remaining IH]; intros attempt s Hr;
    [lia|]. cbv zeta. cbn [CodePy._fetch_url_from].
  pose proof (codepy_attempt_body_keeps now url (sends attempt)
                (emit (Attempt url attempt) s)) as Hb.
  cbv zeta in Hb.
  destruct (Nat.eq_dec attempt i) as [->|Hne].
  - rewrite Hi in Hb |- *.
    pose proof (codepy_failed_request_returns now url ex
                  (emit (Attempt url i) s)) as Hret.
    destruct (CodePy.attempt_body E now url (CodePy.Fails ex)
                (emit (Attempt url i) s)) as [[returned|e] s1];
      cbn [fst] in Hret; [|discriminate].
    cbn [snd] in Hb |- *. destruct Hb as [Hf Ha]. cbn in Hf, Ha.
    rewrite attempts_in_app in Ha. cbn in Ha. split; [assumption | lia].
  - destruct (CodePy.attempt_body E now url (sends attempt)
                (emit (Attempt url attempt) s)) as [[returned|e] s1];
      cbn [snd] in Hb |- *; destruct Hb as [Hf Ha]; cbn in Hf, Ha;
      rewrite attempts_in_app in Ha; cbn in Ha.
    + split; [assumption | lia].
    + specialize (IH (S attempt)
                    (emit (Sleep (Z.of_nat attempt + 1))
                       (emit (LogError url (attempt + 1) e) s1))).
      cbv zeta in IH. destruct IH as [I1 I2]; [lia|].
      cbn in I1, I2. rewrite !attempts_in_app in I2. cbn in I2.
      split; [now rewrite I1 | lia].
Qed.

(** X12. In Code.py a request that fails to connect ends [_fetch_url]:
    [_get_request] swallows the exception, so the attempt is not retried
    and, when it falls within the [max_retries] attempts, the URL is never
    added to [failed_urls]. *)
Theorem codepy_failed_request_is_not_recorded (max_retries : Z)
  (sends : nat -> CodePy.reply) (now : Z) (url : str) (s : state)
  (i : nat) (ex : exn) :
  sends i = CodePy.Fails ex ->
  (Z.of_nat i < max_retries)%Z ->
  let s' := snd (CodePy._fetch_url E max_retries sends now url s) in
  Fetch.failed_urls s' = Fetch.failed_urls s
  /\ (Retry.attempts_in (Fetch.effects s')
      <= Retry.attempts_in (Fetch.effects s) + i + 1)%nat.
Proof.
  intros Hi Hm. cbv zeta. unfold CodePy._fetch_url.
  pose proof (codepy_fetch_from_failed_request sends now url i ex
                (Z.to_nat max_retries) Hi 0%nat s) as H.
  cbv zeta in H. rewrite Nat.sub_0_r in H. apply H. lia.
Qed.

End FetchFacts.

Lemma crawler4_unparsable_page_is_dropped_witness :
  fst (Crawler4._fetch_url FetchLaws.broken_parser 3
         (fun _ => Crawler4.Responds FetchLaws.sample_page) 0
         (lit "https://example.com") FetchLaws.empty_state) = None
  /\ Fetch.failed_urls
       (snd (Crawler4._fetch_url FetchLaws.broken_parser 3
               (fun _ => Crawler4.Responds FetchLaws.sample_page) 0
               (lit "https://example.com") FetchLaws.empty_state)) = [].
Proof.
  destruct (crawler4_unparsable_page_is_dropped FetchLaws.broken_parser 3
              (fun _ => Crawler4.Responds FetchLaws.sample_page) 0
              (lit "https://example.com") FetchLaws.empty_state
              FetchLaws.sample_page FetchLaws.sample_page OtherError)
    as (H1 & H2 & _); try reflexivity.
  - lia.
  - split; [cbn; lia | vm_compute; reflexivity].
  - split; [cbn; lia | vm_compute; reflexivity].
  - intros [].
  - left. reflexivity.
  - split; [exact H1 | exact H2].
Defined.

Lemma codepy_failed_request_is_not_recorded_witness :
  Fetch.failed_urls
    (snd (CodePy._fetch_url sample_externals 3
            FetchLaws.second_request_fails 0 (lit "https://example.com")
            FetchLaws.empty_state)) = [].
Proof.
  apply (codepy_failed_request_is_not_recorded sample_externals 3
           FetchLaws.second_request_fails 0 (lit "https://example.com")
           FetchLaws.empty_state 1 ClientError).
  - reflexivity.
  - lia.
Defined.

(* ------------------------------------------------------------------ *)
(** ** Generated names are plain file names *)

Section PlainNameFacts.

Import SafeFilename Names Digest.

Lemma basename_plain (p : str) : ~ In SLASH (OsPath.basename p).
Proof.
  unfold OsPath.basename.
  destruct (rfind_cases SLASH p) as [[-> Hno]|(a & seg & -> & Hseg & ->)];
    [assumption|].
  replace (S (length a)) with (length (a ++ [SLASH]))
    by (rewrite length_app; cbn; lia).
  replace (a ++ SLASH :: seg) with ((a ++ [SLASH]) ++ seg)
    by now rewrite <- app_assoc.
  now rewrite skipn_app, Nat.sub_diag, skipn_all.
Qed.

Lemma basename_of_plain (f : str) : ~ In SLASH f -> OsPath.basename f = f.
Proof. intros H. unfold OsPath.basename. now rewrite rfind_without. Qed.

Lemma basename_after_slash (a f : str) :
  ~ In SLASH f -> OsPath.basename (a ++ SLASH :: f) = f.
Proof.
  intros H. unfold OsPath.basename. rewrite rfind_last by assumption.
  replace (S (length a)) with (length (a ++ [SLASH]))
    by (rewrite length_app; cbn; lia).
  replace (a ++ SLASH :: f) with ((a ++ [SLASH]) ++ f)
    by now rewrite <- app_assoc.
  now rewrite skipn_app, Nat.sub_diag, skipn_all.
Qed.

Lemma endswith_slash (a : str) :
  endswith [SLASH] a = true -> exists b, a = b ++ [SLASH].
Proof.
  unfold endswith. cbn [rev app].
  destruct (rev a) as [|c r] eqn:Hr; cbn [startswith]; [discriminate|].
  rewrite andb_true_r. intros Hc. apply Ascii.eqb_eq in Hc. subst c.
  exists (rev r). apply (f_equal (@rev ascii)) in Hr.
  rewrite rev_involutive in Hr. now rewrite Hr.
Qed.

(** [os.path.basename] undoes [os.path.join] on a plain file name. *)
Lemma basename_join (base_path f : str) :
  ~ In SLASH f -> OsPath.basename (OsPath.join base_path f) = f.
Proof.
  intros Hf. unfold OsPath.join.
  destruct (startswith [SLASH] f) eqn:Hs.
  - destruct f as [|c f]; [discriminate|]. cbn [startswith] in Hs.
    rewrite andb_true_r in Hs. apply Ascii.eqb_eq in Hs. subst c.
    exfalso. apply Hf. now left.
  - destruct (nonempty base_path) eqn:Hb; cbn [negb orb].
    + destruct (endswith [SLASH] base_path) eqn:He.
      * apply endswith_slash in He as [b ->]. rewrite <- app_assoc.
        now apply basename_after_slash.
      * now apply basename_after_slash.
    + apply nonempty_false in Hb. subst base_path.
      now apply basename_of_plain.
Qed.

Lemma string_of_uint_digits (d : Decimal.uint) (c : ascii) :
  In c (list_ascii_of_string (DecimalString.NilEmpty.string_of_uint d)) ->
  is_digit c = true.
Proof.
  induction d as [|d IH|d IH|d IH|d IH|d IH|d IH|d IH|d IH|d IH|d IH];
    cbn; [intros [] | | | | | | | | | |];
    (intros [<-|H]; [reflexivity | now apply IH]).
Qed.

Lemma str_of_nat_digits (n : nat) (c : ascii) :
  In c (str_of_nat n) -> is_digit c = true.
Proof.
  unfold str_of_nat, DecimalString.NilZero.string_of_uint.
  destruct (Nat.to_uint n) eqn:Hn;
    try (rewrite <- Hn at 1); try apply string_of_uint_digits.
  cbn. intros [<-|[]]. reflexivity.
Qed.

Lemma hex_digest_plain (E : Externals) (s : str) :
  hex_digest E -> ~ In SLASH (md5 E s).
Proof.
  intros H Hin. destruct (H s) as [_ Hx].
  rewrite forallb_forall in Hx. specialize (Hx _ Hin). discriminate.
Qed.

Lemma original_filename_plain (E : Externals)
  (guess_extension : str -> option str) (url original : str) :
  hex_digest E -> plain_extensions guess_extension ->
  original_filename E guess_extension url = Ok original ->
  ~ In SLASH original.
Proof.
  intros Hh Hg. unfold original_filename.
  destruct (Urllib.urlparse E url []) as [p|ex]; [|discriminate].
  cbn [bind]. destruct (nonempty (OsPath.basename (Urllib.path p))).
  - intros [= <-]. apply basename_plain.
  - intros [= <-]. intros Hin. apply in_app_or in Hin as [Hin|Hin].
    + now apply (hex_digest_plain E url Hh).
    + destruct (guess_extension (Urllib.path p)) as [e|] eqn:He.
      * destruct (nonempty e).
        -- now apply (Hg _ _ He).
        -- cbn in Hin. repeat (destruct Hin as [Hin|Hin]; [discriminate|]).
           exact Hin.
      * cbn in Hin. repeat (destruct Hin as [Hin|Hin]; [discriminate|]).
        exact Hin.
Qed.

Lemma candidate_plain (original : str) (k : nat) :
  ~ In SLASH original -> ~ In SLASH (candidate original k).
Proof.
  intros Ho. unfold candidate. destruct k as [|k]; [assumption|].
  destruct (OsPath.splitext original) as [name ext] eqn:Hs.
  destruct (splitext_parts _ _ _ Hs) as [-> _].
  intros Hin. apply in_app_or in Hin as [Hin|Hin].
  - apply Ho, in_or_app. now left.
  - cbn in Hin. destruct Hin as [Hin|Hin]; [discriminate|].
    apply in_app_or in Hin as [Hin|Hin].
    + apply str_of_nat_digits in Hin. discriminate.
    + apply Ho, in_or_app. now right.
Qed.

(** Whatever the loop returns is one of the candidates. *)
Lemma unique_loop_candidate (os_path_exists : str -> bool)
  (base_path original : str) (fuel : nat) :
  forall j f,
    unique_loop os_path_exists base_path original fuel
      (candidate original j) (S j) = Some f ->
    exists k, f = candidate original k.
Proof.
  induction fuel as [|fuel IH]; intros j f; cbn [unique_loop];
    [discriminate|].
  destruct (os_path_exists _).
  - destruct (OsPath.splitext original) as [name ext] eqn:Hs.
    assert (Hc : candidate original (S j)
                 = name ++ lit "_" ++ str_of_nat (S j) ++ ext)
      by (unfold candidate; now rewrite Hs).
    rewrite <- Hc. apply IH.
  - intros [= <-]. now exists j.
Qed.

(** X13. A name returned by [generate_safe_filename] holds no slash, so
    that the file is written in [base_path] itself, and
    [os.path.basename] of the path it is written to gives the name
    back. *)
Theorem safe_filename_is_plain (E : Externals)
  (guess_extension : str -> option str) (os_path_exists : str -> bool)
  (fuel : nat) (url base_path f : str) :
  hex_digest E -> plain_extensions guess_extension ->
  generate_safe_filename E guess_extension os_path_exists fuel url base_path
  = Ok (Some f) ->
  ~ In SLASH f
  /\ OsPath.basename (OsPath.join base_path f) = f.
Proof.
  intros Hh Hg. unfold generate_safe_filename.
  destruct (original_filename E guess_extension url) as [o|ex] eqn:Ho;
    [|discriminate]. cbn [bind]. intros [= Hl].
  apply (unique_loop_candidate os_path_exists base_path o fuel 0%nat)
    in Hl as [k ->].
  assert (Hp : ~ In SLASH (candidate o k)).
  { apply candidate_plain.
    now apply (original_filename_plain E guess_extension url). }
  split; [assumption | now apply basename_join].
Qed.

Lemma short_digest_hex : hex_digest hex_externals.
Proof.
  intros s. cbn [md5 hex_externals]. unfold short_digest. split.
  - rewrite length_firstn, length_app, repeat_length. lia.
  - apply forallb_forall. intros c Hc.
    assert (Hc' : In c (filter is_hex_char s ++ repeat (chr 48) 32)).
    { rewrite <- (firstn_skipn 32). apply in_or_app. now left. }
    clear Hc. apply in_app_or in Hc' as [Hc|Hc].
    + now apply filter_In in Hc.
    + apply repeat_spec in Hc. now subst c.
Qed.

End PlainNameFacts.

Lemma safe_filename_is_plain_witness :
  ~ In SLASH (lit "a_2.pdf")
  /\ OsPath.basename (OsPath.join (lit "files/doc") (lit "a_2.pdf"))
     = lit "a_2.pdf".
Proof.
  apply (safe_filename_is_plain Digest.hex_externals Names.no_guess
           (Names.listed [lit "files/doc/a.pdf"; lit "files/doc/a_1.pdf"])
           3 (lit "https://example.com/x/a.pdf")).
  - exact short_digest_hex.
  - intros t e H. discriminate.
  - vm_compute. reflexivity.
Defined.

(* ------------------------------------------------------------------ *)
(** ** The PDF counters stay consistent *)

Section PdfCountersFacts.

Import PDFProcessor LongestWins ProcessPdf PdfCounters.

(** The method reported for a PDF with text is one of the table. *)
Lemma best_method_listed (B : Backends) (pdf_path : str) :
  has_text B pdf_path = true ->
  In (snd (extract_text_from_pdf B pdf_path))
    [lit "pymupdf"; lit "pypdf2"; lit "ocr"].
Proof.
  unfold has_text, extract_text_from_pdf, extract_text_from_pdf_with.
  cbn [fst snd].
  pose proof (run_best_so_far (methods B) pdf_path) as Hbest.
  set (st := run (methods B) pdf_path) in *.
  destruct Hbest as [_ [(_ & -> & _)|[_ Hwin]]]; [discriminate|].
  intros _. destruct Hwin as (pre & f & post & Heq & _).
  change [lit "pymupdf"; lit "pypdf2"; lit "ocr"]
    with (map fst (methods B)).
  rewrite Heq, map_app. apply in_or_app. right. now left.
Qed.

Lemma dict_increment_listed (key : str) (d : list (str * Z)) :
  In key (map fst d) ->
  exists d', dict_increment key d = Some d'
             /\ map fst d' = map fst d
             /\ fold_right Z.add 0%Z (map snd d')
                = (fold_right Z.add 0%Z (map snd d) + 1)%Z.
Proof.
  induction d as [|[k v] d IH]; cbn [map fst dict_increment]; [intros []|].
  intros Hin. destruct (str_eqb k key) eqn:Hk.
  - eexists. split; [reflexivity|]. cbn. split; [reflexivity | lia].
  - destruct Hin as [->|Hin]; [now rewrite str_eqb_refl in Hk|].
    destruct (IH Hin) as (d' & -> & Hf & Hs).
    eexists. split; [reflexivity|]. cbn. rewrite Hf, Hs. split; [reflexivity | lia].
Qed.

(** X14. [_process_pdf] never fails on its own counters: the method
    reported for a PDF with text is a key of [extraction_methods], and the
    counters per method always add up to [processed].  A PDF without text
    counts as failed; one with text counts as processed and its text is
    written; but when writing the text raises, the PDF has been counted as
    processed and is counted as failed too. *)
Theorem process_pdf_counts (B : Backends) (E : Externals) (text_dir : str)
  (write : str -> str -> result unit) (now : Z) (pdf_path url : str)
  (st : state) :
  keyed st ->
  let text := fst (extract_text_from_pdf B pdf_path) in
  let method := snd (extract_text_from_pdf B pdf_path) in
  let path := OsPath.join text_dir (md5 E url ++ lit "_pdf.txt") in
  let result := _process_pdf B E text_dir write now pdf_path url st in
  let st' := snd result in
  keyed st'
  /\ (by_method st' - processed (stats st')
      = by_method st - processed (stats st))%Z
  /\ (has_text B pdf_path = false ->
      fst result = None
      /\ processed (stats st') = processed (stats st)
      /\ failed (stats st') = (failed (stats st) + 1)%Z
      /\ text_files st' = text_files st)
  /\ (has_text B pdf_path = true ->
      In method [lit "pymupdf"; lit "pypdf2"; lit "ocr"]
      /\ processed (stats st') = (processed (stats st) + 1)%Z
      /\ match write path text with
         | Ok _ =>
             fst result
             = Some {| pm_url := url; pm_source_file := pdf_path;
                       pm_extraction_method := method;
                       pm_timestamp := now; pm_text_file := path;
                       pm_text_length := length text |}
             /\ failed (stats st') = failed (stats st)
             /\ text_files st' = text_files st ++ [(path, text)]
         | Raise _ =>
             fst result = None
             /\ failed (stats st') = (failed (stats st) + 1)%Z
             /\ text_files st' = text_files st
         end).
Proof.
  intros Hkeyed. cbv zeta.
  pose proof (best_method_listed B pdf_path) as Hlisted.
  unfold _process_pdf, has_text in *.
  destruct (extract_text_from_pdf B pdf_path) as [text method].
  cbn [fst snd] in *.
  destruct (nonempty (strip isspace text)); cbn [negb].
  - specialize (Hlisted eq_refl).
    destruct (dict_increment_listed method
                (extraction_methods (stats (count_processed st))))
      as (d & -> & Hkeys & Hsum).
    { cbn. unfold keyed in Hkeyed. now rewrite Hkeyed. }
    cbn in Hkeys, Hsum.
    destruct (write _ text) as [u|ex]; cbn [fst snd].
    + split; [unfold keyed; cbn; now rewrite Hkeys|].
      split; [unfold by_method; cbn; rewrite Hsum; lia|].
      split; [discriminate|]. intros _.
      split; [assumption|]. split; [reflexivity|]. now repeat split.
    + split; [unfold keyed; cbn; now rewrite Hkeys|].
      split; [unfold by_method; cbn; rewrite Hsum; lia|].
      split; [discriminate|]. intros _.
      split; [assumption|]. split; [reflexivity|]. now repeat split.
  - cbn [fst snd]. split; [exact Hkeyed|].
    split; [unfold by_method; cbn; lia|].
    split; [intros _; now repeat split | discriminate].
Qed.

End PdfCountersFacts.

Lemma process_pdf_counts_witness :
  PdfCounters.keyed
    (snd (ProcessPdf._process_pdf LongestWins.scanned_pdf sample_externals
            (lit "crawled_data/example.com/text") (fun _ _ => Raise OtherError)
            0 (lit "files/a.pdf") (lit "https://example.com/a.pdf")
            PdfCounters.start)).
Proof.
  apply (process_pdf_counts LongestWins.scanned_pdf sample_externals
           (lit "crawled_data/example.com/text") (fun _ _ => Raise OtherError)
           0 (lit "files/a.pdf") (lit "https://example.com/a.pdf")
           PdfCounters.start).
  reflexivity.
Defined.

(* ------------------------------------------------------------------ *)
(** ** No body is returned twice *)

Section PagesFacts.

Import EnhancedCrawler Pages.

Variable E : Externals.

(** A page is returned only with a digest that is new, which is then
    recorded; digests are never forgotten. *)
Lemma fetch_url_digest (cfg : config) (envs : nat -> attempt_env) (now : Z)
  (url : str) (s : store) :
  let result := _fetch_url E cfg envs now url s in
  (forall h, In h (content_hashes s) -> In h (content_hashes (snd result)))
  /\ match fst result with
     | Some d =>
         ~ In (digest E d) (content_hashes s)
         /\ In (digest E d) (content_hashes (snd result))
         /\ pages_processed (snd result) = (pages_processed s + 1)%Z
     | None => pages_processed (snd result) = pages_processed s
     end.
Proof.
  cbv zeta. unfold _fetch_url.
  destruct (handle_request_keeps cfg envs url s) as (Hc & _ & Hp).
  destruct (_handle_request cfg envs url s) as [[response|] s1];
    cbn [fst snd] in *.
  2:{ split; [intros h; now rewrite Hc | assumption]. }
  destruct (negb _).
  { cbn. split; [intros h; now rewrite Hc | assumption]. }
  destruct (text response) as [content|ex].
  2:{ cbn. split; [intros h; now rewrite Hc | assumption]. }
  destruct (set_mem str_eq_dec (md5 E content) (content_hashes s1)) eqn:Hm.
  { cbn. split; [intros h; now rewrite Hc | assumption]. }
  apply set_mem_not_In in Hm.
  assert (Hgrow : forall h, In h (content_hashes s) ->
                            In h (set_add str_eq_dec (md5 E content)
                                    (content_hashes s1))).
  { intros h Hh. apply set_add_intro1. now rewrite Hc. }
  destruct (soup_title E content) as [title|ex];
    [destruct (soup_stripped_strings E content) as [strings|ex]|]; cbn.
  - split; [exact Hgrow|]. unfold digest. cbn.
    split; [now rewrite <- Hc|].
    split; [apply set_add_intro2; reflexivity | now rewrite Hp].
  - split; [exact Hgrow | assumption].
  - split; [exact Hgrow | assumption].
Qed.

Lemma fetch_all_distinct (cfg : config) (world : str -> nat -> attempt_env)
  (now : Z) (urls : list str) :
  forall s,
    let result := fetch_all E cfg world now urls s in
    NoDup (map (digest E) (fst result))
    /\ (forall d, In d (fst result) ->
          ~ In (digest E d) (content_hashes s)
          /\ In (digest E d) (content_hashes (snd result)))
    /\ (forall h, In h (content_hashes s) ->
          In h (content_hashes (snd result)))
    /\ pages_processed (snd result)
       = (pages_processed s + Z.of_nat (length (fst result)))%Z.
Proof.
  induction urls as [|url rest IH]; intros s; cbv zeta.
  - cbn. split; [constructor|]. split; [intros d []|].
    split; [trivial | lia].
  - cbn [fetch_all].
    pose proof (fetch_url_digest cfg (world url) now url s) as Hstep.
    cbv zeta in Hstep.
    destruct (_fetch_url E cfg (world url) now url s) as [r s1].
    cbn [fst snd] in Hstep. destruct Hstep as [Hgrow Hr].
    specialize (IH s1). cbv zeta in IH.
    destruct (fetch_all E cfg world now rest s1) as [ps s2].
    cbn [fst snd] in IH |- *. destruct IH as (Hnd & Hnew & Hkeep & Hpp).
    destruct r as [d|].
    + destruct Hr as (Hfresh & Hin & Hp1). split; [|split; [|split]].
      * cbn [map]. constructor; [|assumption].
        intros Hd. apply in_map_iff in Hd as (d' & Heq & Hd').
        destruct (Hnew d' Hd') as [Hno _]. apply Hno. now rewrite Heq.
      * intros d' [<-|Hd'].
        -- split; [assumption | now apply Hkeep].
        -- destruct (Hnew d' Hd') as [Hno Hyes].
           split; [|assumption]. intros Hh. apply Hno. now apply Hgrow.
      * intros h Hh. now apply Hkeep, Hgrow.
      * cbn [length]. lia.
    + split; [assumption|]. split; [|split].
      * intros d' Hd'. destruct (Hnew d' Hd') as [Hno Hyes].
        split; [|assumption]. intros Hh. apply Hno. now apply Hgrow.
      * intros h Hh. now apply Hkeep, Hgrow.
      * lia.
Qed.

(** X15. Whatever the pages fetched one after the other, no two of the
    pages [_fetch_url] returns have the same body digest, none has a
    digest that was recorded before, and [pages_processed] grows by the
    number of pages returned. *)
Theorem returned_pages_are_distinct (cfg : config)
  (world : str -> nat -> attempt_env) (now : Z) (urls : list str)
  (s : store) :
  let result := fetch_all E cfg world now urls s in
  NoDup (map (digest E) (fst result))
  /\ (forall d, In d (fst result) ->
        ~ In (digest E d) (content_hashes s)
        /\ In (digest E d) (content_hashes (snd result)))
  /\ (forall h, In h (content_hashes s) ->
        In h (content_hashes (snd result)))
  /\ pages_processed (snd result)
     = (pages_processed s + Z.of_nat (length (fst result)))%Z.
Proof. apply fetch_all_distinct. Qed.

End PagesFacts.

(* ------------------------------------------------------------------ *)
(** ** Cleaned text and sanitized names (crawler.py) *)

Section CrawlerTextFacts.

Import CrawlerText Digest.

Lemma collapse_spaces_length (t : str) :
  forall b, (length (collapse_spaces b t) <= length t)%nat.
Proof.
  induction t as [|c t IH]; intros b; cbn; [lia|].
  destruct (isspace c); [destruct b|]; cbn;
    [specialize (IH true) | specialize (IH true) | specialize (IH false)];
    lia.
Qed.

Lemma collapse_spaces_idem (t : str) :
  forall b, collapse_spaces b (collapse_spaces b t) = collapse_spaces b t.
Proof.
  induction t as [|c t IH]; intros b; cbn [collapse_spaces]; [reflexivity|].
  destruct (isspace c) eqn:Hc.
  - destruct b; [apply IH|].
    cbn [collapse_spaces]. change (isspace (chr 32)) with true. cbn iota.
    now rewrite IH.
  - cbn [collapse_spaces]. rewrite Hc. destruct b; now rewrite IH.
Qed.

(** What a text that collapsing leaves alone begins with. *)
Lemma collapse_fixed_head (b : bool) (c : ascii) (t : str) :
  collapse_spaces b (c :: t) = c :: t ->
  (isspace c = false /\ collapse_spaces false t = t)
  \/ (isspace c = true /\ b = false /\ c = chr 32
      /\ collapse_spaces true t = t).
Proof.
  cbn [collapse_spaces]. destruct (isspace c) eqn:Hc.
  - destruct b.
    + intros H. apply (f_equal (@length ascii)) in H.
      pose proof (collapse_spaces_length t true). cbn in H. lia.
    + intros [= <- H]. right. now repeat split.
  - intros [= H]. left. now split.
Qed.

Lemma collapse_fixed_lstrip (x : str) :
  collapse_spaces false x = x ->
  collapse_spaces false (lstrip isspace x) = lstrip isspace x.
Proof.
  destruct x as [|c x]; [trivial|]. intros H.
  destruct (collapse_fixed_head _ _ _ H) as [[Hc Hx]|(Hc & _ & _ & Hx)].
  - cbn [lstrip]. now rewrite Hc.
  - cbn [lstrip]. rewrite Hc. destruct x as [|d x]; [reflexivity|].
    destruct (collapse_fixed_head _ _ _ Hx) as [[Hd Hx']|(_ & Hb & _)];
      [|discriminate].
    cbn [lstrip]. rewrite Hd. cbn [collapse_spaces]. rewrite Hd.
    now rewrite Hx'.
Qed.

Lemma collapse_fixed_rstrip (y : str) :
  forall b, collapse_spaces b y = y ->
            collapse_spaces b (rstrip isspace y) = rstrip isspace y.
Proof.
  induction y as [|c y IH]; intros b H; [reflexivity|].
  destruct (collapse_fixed_head _ _ _ H) as [[Hc Hy]|(Hc & -> & -> & Hy)].
  - specialize (IH false Hy). cbn [rstrip].
    destruct (rstrip isspace y) as [|z r] eqn:Hr.
    + rewrite Hc. cbn [collapse_spaces]. now rewrite Hc.
    + remember (z :: r) as w eqn:Hw in *.
      cbn [collapse_spaces]. rewrite Hc. destruct b; now rewrite IH.
  - specialize (IH true Hy). cbn [rstrip].
    destruct (rstrip isspace y) as [|z r] eqn:Hr.
    + now rewrite Hc.
    + remember (z :: r) as w eqn:Hw in *.
      cbn [collapse_spaces]. rewrite Hc. now rewrite IH.
Qed.

Lemma lstrip_idem (P : ascii -> bool) (s : str) :
  lstrip P (lstrip P s) = lstrip P s.
Proof.
  induction s as [|c s IH]; [reflexivity|]. cbn [lstrip].
  destruct (P c) eqn:Hc; [exact IH|]. cbn [lstrip]. now rewrite Hc.
Qed.

Lemma rstrip_keeps_head (P : ascii -> bool) (c : ascii) (s : str) :
  P c = false -> exists r, rstrip P (c :: s) = c :: r.
Proof.
  intros Hc. cbn [rstrip]. destruct (rstrip P s).
  - rewrite Hc. now exists [].
  - now eexists.
Qed.

Lemma lstrip_head (P : ascii -> bool) (s : str) :
  match lstrip P s with [] => True | c :: _ => P c = false end.
Proof.
  induction s as [|x s IH]; cbn [lstrip]; [exact I|].
  destruct (P x) eqn:Hx; [exact IH | exact Hx].
Qed.

Lemma strip_idem (P : ascii -> bool) (s : str) :
  strip P (strip P s) = strip P s.
Proof.
  unfold strip. pose proof (lstrip_head P s) as Hh.
  destruct (lstrip P s) as [|c l]; [reflexivity|].
  destruct (rstrip_keeps_head P c l Hh) as [r Hr]. rewrite Hr.
  cbn [lstrip]. rewrite Hh. rewrite <- Hr. apply rstrip_idem.
Qed.

Lemma collapse_spaces_chars (t : str) :
  forall b, Forall (fun c => isspace c = true -> c = chr 32)
              (collapse_spaces b t).
Proof.
  induction t as [|c t IH]; intros b; cbn [collapse_spaces]; [constructor|].
  destruct (isspace c) eqn:Hc.
  - destruct b; [apply IH|]. constructor; [reflexivity | apply IH].
  - constructor; [congruence | apply IH].
Qed.

Lemma collapse_spaces_content (t : str) :
  forall b, filter (fun c => negb (isspace c)) (collapse_spaces b t)
            = filter (fun c => negb (isspace c)) t.
Proof.
  induction t as [|c t IH]; intros b; cbn [collapse_spaces filter];
    [reflexivity|].
  destruct (isspace c) eqn:Hc; cbn [negb].
  - destruct b; [apply IH|]. cbn [filter].
    change (isspace (chr 32)) with true. cbn [negb]. apply IH.
  - cbn [filter]. rewrite Hc. cbn [negb]. now rewrite IH.
Qed.

Lemma lstrip_content (s : str) :
  filter (fun c => negb (isspace c)) (lstrip isspace s)
  = filter (fun c => negb (isspace c)) s.
Proof.
  induction s as [|c s IH]; [reflexivity|]. cbn [lstrip].
  destruct (isspace c) eqn:Hc; [|reflexivity].
  cbn [filter]. rewrite Hc. exact IH.
Qed.

Lemma rstrip_content (s : str) :
  filter (fun c => negb (isspace c)) (rstrip isspace s)
  = filter (fun c => negb (isspace c)) s.
Proof.
  induction s as [|c s IH]; [reflexivity|]. cbn [rstrip].
  destruct (rstrip isspace s) as [|z r] eqn:Hr.
  - cbn [filter] in IH |- *. rewrite <- IH.
    destruct (isspace c) eqn:Hc; cbn; now rewrite ?Hc.
  - cbn [filter]. now rewrite <- IH.
Qed.

Lemma lstrip_incl (P : ascii -> bool) (s : str) (c : ascii) :
  In c (lstrip P s) -> In c s.
Proof.
  induction s as [|x s IH]; cbn [lstrip]; [trivial|].
  destruct (P x); [intros H; right; now apply IH | trivial].
Qed.

(** X16. [clean_text] puts a text in a normal form: cleaning it again
    changes nothing, neither does either of its two steps; every white
    space character left is a plain space; and the characters that are not
    white space are those of the text, in order. *)
Theorem clean_text_normal_form (text : str) :
  let r := clean_text text in
  clean_text r = r
  /\ collapse_spaces false r = r
  /\ strip isspace r = r
  /\ Forall (fun c => isspace c = true -> c = chr 32) r
  /\ filter (fun c => negb (isspace c)) r
     = filter (fun c => negb (isspace c)) text.
Proof.
  cbv zeta. unfold clean_text.
  assert (Hfix : collapse_spaces false
                   (strip isspace (collapse_spaces false text))
                 = strip isspace (collapse_spaces false text)).
  { unfold strip. apply collapse_fixed_rstrip, collapse_fixed_lstrip,
      collapse_spaces_idem. }
  split; [rewrite Hfix; apply strip_idem|].
  split; [exact Hfix|]. split; [apply strip_idem|]. split.
  - apply Forall_forall. intros c Hc. unfold strip in Hc.
    apply rstrip_incl, lstrip_incl in Hc.
    pose proof (collapse_spaces_chars text false) as H.
    rewrite Forall_forall in H. now apply H.
  - unfold strip. now rewrite rstrip_content, lstrip_content,
      collapse_spaces_content.
Qed.

Lemma app_tail_same_length {A : Type} (a c b d : list A) :
  a ++ b = c ++ d -> length b = length d -> a = c /\ b = d.
Proof.
  revert c. induction a as [|x a IH]; intros c H Hl.
  - destruct c as [|y c]; [now split|].
    apply (f_equal (@length A)) in H. cbn in H. rewrite length_app in H. lia.
  - destruct c as [|y c].
    + apply (f_equal (@length A)) in H. cbn in H. rewrite length_app in H.
      lia.
    + injection H as -> H. destruct (IH c H Hl) as [-> ->]. now split.
Qed.

Lemma hex_char_valid (c : ascii) :
  is_hex_char c = true -> In c valid_chars.
Proof.
  destruct c as [[] [] [] [] [] [] [] []]; cbn; intros H;
    try discriminate; tauto.
Qed.

Lemma hex_char_not_dot (c : ascii) :
  is_hex_char c = true -> is_ch DOT c = false.
Proof.
  destruct c as [[] [] [] [] [] [] [] []]; cbn; intros H;
    try discriminate; reflexivity.
Qed.

(** X17. When digests are 32 hexadecimal digits, [sanitize_filename]
    returns the allowed characters among the first fifty of the name, an
    underscore and the digest of the whole name: between 33 and 83
    characters, all of them allowed (so none is a slash), and the same for
    two names only if their digests are the same. *)
Theorem sanitize_filename_is_safe (E : Externals) (filename : str) :
  hex_digest E ->
  let r := sanitize_filename E filename in
  r = filter (fun c => existsb (Ascii.eqb c) valid_chars)
        (firstn 50 filename)
      ++ lit "_" ++ md5 E filename
  /\ Forall (fun c => In c valid_chars) r
  /\ (33 <= length r <= 83)%nat
  /\ (forall other, sanitize_filename E other = r ->
                    md5 E other = md5 E filename).
Proof.
  intros Hhex. cbv zeta.
  assert (Hshape : forall name,
             sanitize_filename E name
             = filter (fun c => existsb (Ascii.eqb c) valid_chars)
                 (firstn 50 name)
               ++ lit "_" ++ md5 E name).
  { intros name. unfold sanitize_filename.
    destruct (Hhex name) as [Hlen Hall].
    destruct (md5 E name) as [|h0 hs] eqn:Hm using rev_ind;
      [discriminate|]. clear IHhs.
    rewrite forallb_app in Hall. apply andb_prop in Hall as [_ Hh].
    cbn in Hh. rewrite andb_true_r in Hh.
    rewrite !app_assoc.
    rewrite <- (app_nil_r ((_ ++ hs) ++ [h0])) at 1.
    rewrite rstrip_app_keep by now apply hex_char_not_dot.
    cbn [rstrip]. now rewrite app_nil_r. }
  split; [apply Hshape|]. rewrite Hshape.
  destruct (Hhex filename) as [Hlen Hall]. split; [|split].
  - apply Forall_app. split.
    + apply Forall_forall. intros c Hc. apply filter_In in Hc as [_ Hc].
      apply existsb_exists in Hc as (x & Hx & Heq).
      apply Ascii.eqb_eq in Heq. now subst x.
    + constructor; [cbn; tauto|].
      apply Forall_forall. intros c Hc. apply hex_char_valid.
      rewrite forallb_forall in Hall. now apply Hall.
  - rewrite length_app. cbn [lit list_ascii_of_string app length].
    rewrite Hlen.
    pose proof (filter_length_le (fun c => existsb (Ascii.eqb c) valid_chars)
                  (firstn 50 filename)) as Hf.
    pose proof (firstn_le_length 50 filename) as Hn. lia.
  - intros other Ho. rewrite Hshape in Ho.
    rewrite !app_assoc in Ho.
    apply app_tail_same_length in Ho as [_ Ho]; [assumption|].
    destruct (Hhex other) as [Hlo _]. now rewrite Hlo, Hlen.
Qed.

End CrawlerTextFacts.

Lemma sanitize_filename_is_safe_witness :
  (33 <= length (CrawlerText.sanitize_filename Digest.hex_externals
                   (lit "https://example.com/a b.pdf")) <= 83)%nat.
Proof.
  apply (sanitize_filename_is_safe Digest.hex_externals
           (lit "https://example.com/a b.pdf")).
  exact short_digest_hex.
Defined.

(* ------------------------------------------------------------------ *)
(** ** Loading a proxy file *)

Section ProxyFileFacts.

Import ProxyManager Rotation ProxyFile.

Lemma linebreak_isspace (c : ascii) :
  is_linebreak c = true -> isspace c = true.
Proof.
  destruct c as [[] [] [] [] [] [] [] []]; cbn; intros H;
    try discriminate; reflexivity.
Qed.

Lemma splitlines_line (l : str) :
  forallb (fun c => negb (is_linebreak c)) l = true ->
  forall cur rest,
    splitlines_from cur (l ++ LF :: rest)
    = (cur ++ l) :: splitlines_from [] rest.
Proof.
  induction l as [|c l IH]; intros Hl cur rest.
  - cbn [app splitlines_from]. change (is_linebreak LF) with true.
    cbn iota. rewrite app_nil_r.
    destruct rest as [|c' t']; [reflexivity|].
    change ((code LF =? 13)%nat) with false. reflexivity.
  - cbn [forallb] in Hl. apply andb_prop in Hl as [Hc Hl].
    apply negb_true_iff in Hc.
    cbn [app splitlines_from]. rewrite Hc.
    rewrite IH by assumption. now rewrite <- app_assoc.
Qed.

Lemma splitlines_lines (ls : list str) :
  Forall (fun l => forallb (fun c => negb (is_linebreak c)) l = true) ls ->
  splitlines (concat (map (fun l => l ++ [LF]) ls)) = ls.
Proof.
  unfold splitlines. induction 1 as [|l ls Hl Hls IH]; [reflexivity|].
  cbn [map concat]. rewrite <- app_assoc. cbn [app].
  rewrite splitlines_line by assumption. cbn [app]. now rewrite IH.
Qed.

Lemma forallb_app_all (P : ascii -> bool) (a b : str) :
  forallb P a = true -> forallb P b = true -> forallb P (a ++ b) = true.
Proof. intros Ha Hb. now rewrite forallb_app, Ha, Hb. Qed.

Lemma line_no_space (x : fields) :
  plain_fields x ->
  forallb (fun c => negb (isspace c)) (line x) = true.
Proof.
  intros ((_ & H1) & (_ & H2) & (_ & H3) & (_ & H4)).
  unfold line, line_of.
  repeat (apply forallb_app_all; [assumption|];
          cbn [forallb]; apply andb_true_intro; split; [reflexivity|]).
  assumption.
Qed.

Lemma strip_no_space (s : str) :
  forallb (fun c => negb (isspace c)) s = true -> strip isspace s = s.
Proof.
  intros H. unfold strip.
  assert (Hl : lstrip isspace s = s).
  { destruct s as [|c s]; [reflexivity|]. cbn [forallb] in H.
    apply andb_prop in H as [Hc _]. apply negb_true_iff in Hc.
    cbn [lstrip]. now rewrite Hc. }
  rewrite Hl. clear Hl. induction s as [|c s IH]; [reflexivity|].
  cbn [forallb] in H. apply andb_prop in H as [Hc Hs].
  apply negb_true_iff in Hc. cbn [rstrip]. rewrite (IH Hs).
  destruct s; [now rewrite Hc | reflexivity].
Qed.

Lemma parse_plain_line (x : fields) :
  plain_fields x -> parse_line (line x) = Some (entry x).
Proof.
  intros Hx. apply parse_line_four_fields_iff.
  exists (ip x), (port x), (username x), (password x).
  destruct Hx as ((H1 & S1) & (H2 & S2) & (H3 & S3) & (H4 & S4)).
  repeat (split; [assumption|]). split; [|reflexivity].
  apply strip_no_space, line_no_space. now repeat split.
Qed.

(** X18. From a file that holds one well-formed line per proxy,
    [_load_proxies] builds one entry per line, in the order of the file,
    whatever the list was before; an empty file gives the direct
    connection alone. *)
Theorem load_proxies_reads_every_line (xs : list fields)
  (current : list proxy) :
  Forall plain_fields xs ->
  _load_proxies (Content (file_of xs)) current
  = match xs with
    | [] => [direct]
    | _ => map entry xs
    end.
Proof.
  intros Hxs. unfold _load_proxies, file_of.
  rewrite <- map_map with (f := line) (g := fun l => l ++ [LF]).
  rewrite splitlines_lines.
  2:{ apply Forall_forall. intros l Hl. apply in_map_iff in Hl as (x & <- & Hx).
      rewrite Forall_forall in Hxs. specialize (Hxs x Hx).
      pose proof (line_no_space x Hxs) as Hn.
      rewrite forallb_forall in Hn |- *. intros c Hc. specialize (Hn c Hc).
      apply negb_true_iff in Hn. apply negb_true_iff.
      destruct (is_linebreak c) eqn:Hb; [|reflexivity].
      apply linebreak_isspace in Hb. congruence. }
  assert (Hmap : filter_map parse_line (map line xs) = map entry xs).
  { induction Hxs as [|x xs Hx Hxs IH]; [reflexivity|].
    cbn [map filter_map]. rewrite (parse_plain_line x Hx). now rewrite IH. }
  rewrite Hmap. destruct xs; reflexivity.
Qed.

End ProxyFileFacts.

Lemma load_proxies_reads_every_line_witness :
  ProxyManager._load_proxies
    (ProxyManager.Content
       (ProxyFile.file_of
          [{| ProxyFile.ip := lit "10.0.0.1"; ProxyFile.port := lit "8080";
              ProxyFile.username := lit "user";
              ProxyFile.password := lit "secret" |}]))
    []
  = [ProxyFile.entry
       {| ProxyFile.ip := lit "10.0.0.1"; ProxyFile.port := lit "8080";
          ProxyFile.username := lit "user";
          ProxyFile.password := lit "secret" |}].
Proof.
  apply (load_proxies_reads_every_line
           [{| ProxyFile.ip := lit "10.0.0.1"; ProxyFile.port := lit "8080";
               ProxyFile.username := lit "user";
               ProxyFile.password := lit "secret" |}] []).
  repeat constructor; cbn; intuition discriminate.
Defined.

(* ------------------------------------------------------------------ *)
(** ** Pages that are taken for files *)

Section ListedSuffixFacts.

Import FileHandler Classifier Urllib Url EnhancedCrawler.

(** X19. In Crawler-v02.py a URL whose path ends in a name with a suffix
    of the table is handed to the download under the category that lists
    the suffix, in whatever case it is written, and [_process_url] returns
    no page for it: the links of a page at [.../index.html] ([.html] is
    listed under [code], with [.js] and [.css]) are never followed. *)
Theorem listed_suffix_is_never_crawled (E : Externals) (cfg : config)
  (download : downloader) (envs : nat -> attempt_env) (now : Z)
  (st : store) (s n pre a seg : str) (q f : option str)
  (c : str) (exts : list str) :
  well_formed_for E s n (pre ++ SLASH :: a ++ DOT :: seg) q f ->
  a <> [] -> seg <> [] ->
  ~ In SLASH a -> ~ In SLASH seg -> ~ In DOT seg ->
  In (c, exts) downloadable_extensions ->
  In (lower (DOT :: seg)) exts ->
  let url := build s n (pre ++ SLASH :: a ++ DOT :: seg) q f in
  route E url = Ok (DownloadFile c)
  /\ _process_url E cfg download envs now url st
     = (Ok None, download url c st).
Proof.
  intros Hwf Ha Hseg Hsa Hss Hds Hin Hext. cbv zeta.
  assert (Hcat : get_file_category E
                   (build s n (pre ++ SLASH :: a ++ DOT :: seg) q f)
                 = Ok (Some c)).
  { unfold get_file_category.
    rewrite (urlparse_build E _ _ _ _ _ _ Hwf). cbn [bind Urllib.path].
    rewrite suffix_last_component by assumption.
    destruct (category_of_ext_some downloadable_extensions
                (lower (DOT :: seg)) downloadable_extensions_well_formed)
      as (c' & -> & _ & _ & Huniq & _); [discriminate|].
    now rewrite (Huniq c exts Hin Hext). }
  assert (Hroute : route E (build s n (pre ++ SLASH :: a ++ DOT :: seg) q f)
                   = Ok (DownloadFile c)).
  { apply (route_of_category E _ (Some c) Hcat).
    destruct downloadable_extensions_well_formed as (_ & Hnames & _).
    rewrite Forall_forall in Hnames. apply Hnames.
    apply in_map_iff. now exists (c, exts). }
  split; [exact Hroute|]. unfold _process_url. now rewrite Hroute.
Qed.

End ListedSuffixFacts.

Lemma listed_suffix_is_never_crawled_witness :
  EnhancedCrawler.route sample_externals
    (Url.build (lit "https") (lit "example.com")
       (lit "/docs" ++ SLASH :: lit "Index" ++ DOT :: lit "HTML") None None)
  = Ok (EnhancedCrawler.DownloadFile (lit "code")).
Proof.
  apply (listed_suffix_is_never_crawled sample_externals
           Retry.sample_config Cap.no_download (Cap.index_world []) 0
           Retry.sample_store
           (lit "https") (lit "example.com") (lit "/docs") (lit "Index")
           (lit "HTML") None None (lit "code")
           [lit ".py"; lit ".js"; lit ".html"; lit ".css"; lit ".java";
            lit ".cpp"; lit ".h"]).
  - repeat split; try (vm_compute; intuition discriminate);
      try (repeat constructor; vm_compute; reflexivity).
    right. now eexists.
  - discriminate.
  - discriminate.
  - vm_compute. intuition discriminate.
  - vm_compute. intuition discriminate.
  - vm_compute. intuition discriminate.
  - vm_compute. tauto.
  - vm_compute. tauto.
Defined.

(* ------------------------------------------------------------------ *)
(** ** The three ways a download ends *)

Section DownloadFacts.

Import EnhancedCrawler Download DownloadLaws.

Variable B : PDFProcessor.Backends.
Variable E : Externals.
Variable guess_extension : str -> option str.

Lemma read_chunks_size (chunks : list (result str)) :
  forall w t,
    let r := read_chunks chunks w t in
    (snd r + length w = t + length (snd (fst r)))%nat
    /\ exists tail, snd (fst r) = w ++ tail.
Proof.
  induction chunks as [|[chunk|ex] rest IH]; intros w t; cbv zeta;
    cbn [read_chunks].
  - cbn. split; [lia | exists []; now rewrite app_nil_r].
  - destruct (nonempty chunk).
    + destruct (IH (w ++ chunk) (t + length chunk)%nat) as [H1 [tail H2]].
      cbv zeta in H1. rewrite length_app in H1. split; [lia|].
      exists (chunk ++ tail). now rewrite H2, <- app_assoc.
    + cbn. split; [lia | exists []; now rewrite app_nil_r].
  - cbn. split; [lia | exists []; now rewrite app_nil_r].
Qed.

Lemma dict_add_recorded (category url : str) (d d' : list (str * set str)) :
  dict_add category url d = Some d' -> recorded category url d'.
Proof.
  revert d'. induction d as [|[k v] d IH]; intros d'; cbn [dict_add];
    [discriminate|].
  destruct (str_eqb k category) eqn:Hk.
  - apply str_eqb_eq in Hk. subst k. intros [= <-].
    exists (set_add str_eq_dec url v). split; [now left|].
    apply set_add_intro2. reflexivity.
  - destruct (dict_add category url d) as [r'|]; [|discriminate].
    intros [= <-]. destruct (IH r' eq_refl) as (urls & Hin & Hu).
    exists urls. split; [now right | assumption].
Qed.

(** The name generated in a directory listing is that of no file of the
    listing; without a name there is an exception. *)
Lemma generated_name_cases (files : list str) (url base_path : str) :
  (exists ex, SafeFilename.generate_safe_filename E guess_extension
                (fun p => str_in p files) (S (length files)) url base_path
              = Raise ex)
  \/ (exists filename,
         SafeFilename.generate_safe_filename E guess_extension
           (fun p => str_in p files) (S (length files)) url base_path
         = Ok (Some filename)
         /\ ~ In (OsPath.join base_path filename) files).
Proof.
  destruct (SafeFilename.original_filename E guess_extension url)
    as [o|ex] eqn:Ho.
  - right.
    destruct (generate_safe_filename_first E guess_extension files url
                base_path o Ho) as (k & _ & Hg & Hfree & _).
    exists (Names.candidate o k). split; assumption.
  - left. exists ex. unfold SafeFilename.generate_safe_filename.
    now rewrite Ho.
Qed.

(** X20. [_download_file] ends in one of three ways.  Without a response
    it returns nothing and touches nothing but what [_handle_request]
    did.  When it returns the metadata of a file, the file went to a path
    where no file was, it holds the bytes read, [size] is their number,
    the URL is recorded under its category and [files_downloaded] is one
    higher.  When it has a response and yet returns nothing, an exception
    was caught: the URL is in [failed_urls], [errors] is one higher and
    the download is not counted -- though a file cut short may be left on
    disk. *)
Theorem download_file_outcomes (cfg : config) (envs : nat -> attempt_env)
  (body : response -> list (result str)) (can_open : str -> result unit)
  (write_text : str -> str -> result unit) (now : Z)
  (url category : str) (d : state) :
  let requested := _handle_request cfg envs url (shared d) in
  let result :=
    _download_file B E guess_extension cfg envs body can_open write_text now
      url category d in
  let d' := snd result in
  (fst requested = None ->
   result = (None, with_shared (snd requested) d))
  /\ (forall m, fst result = Some m ->
        exists response,
          fst requested = Some response
          /\ ~ In (fm_filepath m) (map fst (disk d))
          /\ disk d' = disk d ++ [(fm_filepath m, written (body response))]
          /\ fm_size m = length (written (body response))
          /\ recorded category url (downloaded_files d')
          /\ files_downloaded d' = (files_downloaded d + 1)%Z
          /\ failed_urls (shared d') = failed_urls (snd requested)
          /\ errors (shared d') = errors (snd requested))
  /\ (forall response, fst requested = Some response ->
        fst result = None ->
        In url (failed_urls (shared d'))
        /\ errors (shared d') = (errors (snd requested) + 1)%Z
        /\ files_downloaded d' = files_downloaded d
        /\ downloaded_files d' = downloaded_files d
        /\ (disk d' = disk d
            \/ exists path bytes, disk d' = disk d ++ [(path, bytes)]
                                  /\ ~ In path (map fst (disk d)))).
Proof.
  cbv zeta. unfold _download_file.
  destruct (_handle_request cfg envs url (shared d)) as [[response|] s];
    cbn [fst snd].
  2:{ split; [reflexivity|]. split; [discriminate|]. discriminate. }
  split; [discriminate|].
  cbn [disk with_shared].
  set (base_path := OsPath.join (files_dir cfg) category).
  assert (Hfailed : forall ex d0,
             shared d0 = s ->
             files_downloaded d0 = files_downloaded d ->
             downloaded_files d0 = downloaded_files d ->
             let r := failed url ex d0 in
             fst r = None
             /\ In url (failed_urls (shared (snd r)))
             /\ errors (shared (snd r)) = (errors s + 1)%Z
             /\ files_downloaded (snd r) = files_downloaded d
             /\ downloaded_files (snd r) = downloaded_files d
             /\ disk (snd r) = disk d0).
  { intros ex d0 Hs Hf Hd. cbv zeta. unfold failed. cbn. rewrite Hs.
    repeat split; try assumption. apply set_add_intro2. reflexivity. }
  destruct (generated_name_cases (map fst (disk d)) url base_path)
    as [[ex ->]|(filename & -> & Hfresh)].
  { destruct (Hfailed ex (with_shared s d) eq_refl eq_refl eq_refl)
      as (H1 & H2 & H3 & H4 & H5 & H6). cbv zeta in *.
    split; [intros m Hm; rewrite H1 in Hm; discriminate|].
    intros r [= <-] _. repeat split; try assumption. now left. }
  destruct (can_open (OsPath.join base_path filename)) as [u|ex].
  2:{ destruct (Hfailed ex (with_shared s d) eq_refl eq_refl eq_refl)
        as (H1 & H2 & H3 & H4 & H5 & H6). cbv zeta in *.
      split; [intros m Hm; rewrite H1 in Hm; discriminate|].
      intros r [= <-] _. repeat split; try assumption. now left. }
  pose proof (read_chunks_size (body response) [] 0%nat) as Hsize.
  cbv zeta in Hsize.
  assert (Hw : written (body response)
               = snd (fst (read_chunks (body response) [] 0)))
    by reflexivity.
  destruct (read_chunks (body response) [] 0) as [[outcome bytes] total].
  cbn [fst snd length] in Hsize, Hw |- *. destruct Hsize as [Hsize _].
  set (d1 := write_disk (OsPath.join base_path filename) bytes
               (with_shared s d)).
  destruct outcome as [u'|ex].
  2:{ destruct (Hfailed ex d1 eq_refl eq_refl eq_refl)
        as (H1 & H2 & H3 & H4 & H5 & H6). cbv zeta in *.
      split; [intros m Hm; rewrite H1 in Hm; discriminate|].
      intros r [= <-] _. repeat split; try assumption.
      right. exists (OsPath.join base_path filename), bytes.
      split; [rewrite H6; reflexivity | assumption]. }
  set (pdf_step :=
         if str_eqb category (lit "document")
            && endswith (lit ".pdf") (lower (OsPath.join base_path filename))
         then
           let (m, p) :=
             ProcessPdf._process_pdf B E (text_dir cfg) write_text now
               (OsPath.join base_path filename) url (pdf d1) in
           (m, with_pdf p d1)
         else (None, d1)).
  assert (Hpdf : shared (snd pdf_step) = s
                 /\ disk (snd pdf_step) = disk d1
                 /\ downloaded_files (snd pdf_step) = downloaded_files d
                 /\ files_downloaded (snd pdf_step) = files_downloaded d).
  { unfold pdf_step. destruct (_ && _); [|now repeat split].
    destruct (ProcessPdf._process_pdf _ _ _ _ _ _ _ _); now repeat split. }
  destruct pdf_step as [pdf_metadata d2]. cbn [snd] in Hpdf.
  destruct Hpdf as (Hs2 & Hdisk2 & Hdf2 & Hfd2).
  destruct (dict_add category url (downloaded_files d2)) as [files|] eqn:Hadd.
  - cbn [fst snd]. split; [|discriminate].
    intros m [= <-]. exists response. rewrite Hw. cbn.
    split; [reflexivity|]. split; [assumption|].
    split; [rewrite Hdisk2; reflexivity|]. split; [lia|].
    split; [now apply (dict_add_recorded _ _ _ _ Hadd)|].
    split; [now rewrite Hfd2|]. rewrite Hs2. now split.
  - destruct (Hfailed OtherError d2 Hs2 Hfd2 Hdf2)
      as (H1 & H2 & H3 & H4 & H5 & H6). cbv zeta in *.
    split; [intros m Hm; rewrite H1 in Hm; discriminate|].
    intros r [= <-] _. repeat split; try assumption.
    right. exists (OsPath.join base_path filename), bytes.
    split; [rewrite H6, Hdisk2; reflexivity | assumption].
Qed.

End DownloadFacts.
